(** * Redex: local dead-code elimination and CFG mutation

    A shallow embedding of [LocalDce.cpp] (liveness-driven dead-code
    elimination over an editable control-flow graph), of the operand-kind
    predicates of [IRInstruction.h], and of the mutation buffer exercised by
    [CFGMutationTest.cpp].

    Conventions.
    - A fatal assertion ([always_assert], a failed bounds check of
      [boost::dynamic_bitset], [std::unordered_map::at] on a missing key) is
      the value [None] of the [option] monad.
    - Registers, bit positions and block ids are [nat]; the sizes handled here
      stay far below the 32-bit range of [reg_t].
    - An [IRInstruction*] is an address (its identity) together with the
      instruction it points to. *)

From Stdlib Require Import Ascii ZArith Zbitwise.
From stdpp Require Import base option list gmap sets.

Set Default Proof Using "Type".

(** ** Opcodes *)

Module Opcode.

(** Modelled from the spec: the enumeration [IROpcode] and its classifier
    tables live in [IROpcode.h], which is not part of the sources at hand.
    The constructors are the IR opcodes (the Dalvik opcodes without /2addr,
    /range and payload forms, one [switch], one [const]), including every
    opcode that [has_side_effects] lists and those the tests assemble. *)
Inductive IROpcode : Type :=
  | OPCODE_NOP
  | OPCODE_MOVE | OPCODE_MOVE_WIDE | OPCODE_MOVE_OBJECT
  | OPCODE_MOVE_RESULT | OPCODE_MOVE_RESULT_WIDE | OPCODE_MOVE_RESULT_OBJECT
  | OPCODE_MOVE_EXCEPTION
  | OPCODE_RETURN_VOID | OPCODE_RETURN | OPCODE_RETURN_WIDE
  | OPCODE_RETURN_OBJECT
  | OPCODE_CONST | OPCODE_CONST_WIDE | OPCODE_CONST_STRING
  | OPCODE_CONST_CLASS
  | OPCODE_MONITOR_ENTER | OPCODE_MONITOR_EXIT
  | OPCODE_CHECK_CAST | OPCODE_INSTANCE_OF | OPCODE_ARRAY_LENGTH
  | OPCODE_NEW_INSTANCE | OPCODE_NEW_ARRAY | OPCODE_FILLED_NEW_ARRAY
  | OPCODE_FILL_ARRAY_DATA
  | OPCODE_THROW | OPCODE_GOTO | OPCODE_SWITCH
  | OPCODE_CMPL_FLOAT | OPCODE_CMPG_FLOAT | OPCODE_CMPL_DOUBLE
  | OPCODE_CMPG_DOUBLE | OPCODE_CMP_LONG
  | OPCODE_IF_EQ | OPCODE_IF_NE | OPCODE_IF_LT | OPCODE_IF_GE | OPCODE_IF_GT
  | OPCODE_IF_LE
  | OPCODE_IF_EQZ | OPCODE_IF_NEZ | OPCODE_IF_LTZ | OPCODE_IF_GEZ
  | OPCODE_IF_GTZ | OPCODE_IF_LEZ
  | OPCODE_AGET | OPCODE_AGET_WIDE | OPCODE_AGET_OBJECT | OPCODE_AGET_BOOLEAN
  | OPCODE_AGET_BYTE | OPCODE_AGET_CHAR | OPCODE_AGET_SHORT
  | OPCODE_APUT | OPCODE_APUT_WIDE | OPCODE_APUT_OBJECT | OPCODE_APUT_BOOLEAN
  | OPCODE_APUT_BYTE | OPCODE_APUT_CHAR | OPCODE_APUT_SHORT
  | OPCODE_IGET | OPCODE_IGET_WIDE | OPCODE_IGET_OBJECT | OPCODE_IGET_BOOLEAN
  | OPCODE_IGET_BYTE | OPCODE_IGET_CHAR | OPCODE_IGET_SHORT
  | OPCODE_IPUT | OPCODE_IPUT_WIDE | OPCODE_IPUT_OBJECT | OPCODE_IPUT_BOOLEAN
  | OPCODE_IPUT_BYTE | OPCODE_IPUT_CHAR | OPCODE_IPUT_SHORT
  | OPCODE_SGET | OPCODE_SGET_WIDE | OPCODE_SGET_OBJECT | OPCODE_SGET_BOOLEAN
  | OPCODE_SGET_BYTE | OPCODE_SGET_CHAR | OPCODE_SGET_SHORT
  | OPCODE_SPUT | OPCODE_SPUT_WIDE | OPCODE_SPUT_OBJECT | OPCODE_SPUT_BOOLEAN
  | OPCODE_SPUT_BYTE | OPCODE_SPUT_CHAR | OPCODE_SPUT_SHORT
  | OPCODE_INVOKE_VIRTUAL | OPCODE_INVOKE_SUPER | OPCODE_INVOKE_DIRECT
  | OPCODE_INVOKE_STATIC | OPCODE_INVOKE_INTERFACE
  | OPCODE_NEG_INT | OPCODE_NOT_INT | OPCODE_NEG_LONG | OPCODE_NOT_LONG
  | OPCODE_NEG_FLOAT | OPCODE_NEG_DOUBLE
  | OPCODE_INT_TO_LONG | OPCODE_INT_TO_FLOAT | OPCODE_INT_TO_DOUBLE
  | OPCODE_LONG_TO_INT | OPCODE_LONG_TO_FLOAT | OPCODE_LONG_TO_DOUBLE
  | OPCODE_FLOAT_TO_INT | OPCODE_FLOAT_TO_LONG | OPCODE_FLOAT_TO_DOUBLE
  | OPCODE_DOUBLE_TO_INT | OPCODE_DOUBLE_TO_LONG | OPCODE_DOUBLE_TO_FLOAT
  | OPCODE_INT_TO_BYTE | OPCODE_INT_TO_CHAR | OPCODE_INT_TO_SHORT
  | OPCODE_ADD_INT | OPCODE_SUB_INT | OPCODE_MUL_INT | OPCODE_DIV_INT
  | OPCODE_REM_INT | OPCODE_AND_INT | OPCODE_OR_INT | OPCODE_XOR_INT
  | OPCODE_SHL_INT | OPCODE_SHR_INT | OPCODE_USHR_INT
  | OPCODE_ADD_LONG | OPCODE_SUB_LONG | OPCODE_MUL_LONG | OPCODE_DIV_LONG
  | OPCODE_REM_LONG | OPCODE_AND_LONG | OPCODE_OR_LONG | OPCODE_XOR_LONG
  | OPCODE_SHL_LONG | OPCODE_SHR_LONG | OPCODE_USHR_LONG
  | OPCODE_ADD_FLOAT | OPCODE_SUB_FLOAT | OPCODE_MUL_FLOAT | OPCODE_DIV_FLOAT
  | OPCODE_REM_FLOAT
  | OPCODE_ADD_DOUBLE | OPCODE_SUB_DOUBLE | OPCODE_MUL_DOUBLE
  | OPCODE_DIV_DOUBLE | OPCODE_REM_DOUBLE
  | OPCODE_ADD_INT_LIT16 | OPCODE_RSUB_INT | OPCODE_MUL_INT_LIT16
  | OPCODE_DIV_INT_LIT16 | OPCODE_REM_INT_LIT16 | OPCODE_AND_INT_LIT16
  | OPCODE_OR_INT_LIT16 | OPCODE_XOR_INT_LIT16
  | OPCODE_ADD_INT_LIT8 | OPCODE_RSUB_INT_LIT8 | OPCODE_MUL_INT_LIT8
  | OPCODE_DIV_INT_LIT8 | OPCODE_REM_INT_LIT8 | OPCODE_AND_INT_LIT8
  | OPCODE_OR_INT_LIT8 | OPCODE_XOR_INT_LIT8 | OPCODE_SHL_INT_LIT8
  | OPCODE_SHR_INT_LIT8 | OPCODE_USHR_INT_LIT8
  | IOPCODE_LOAD_PARAM | IOPCODE_LOAD_PARAM_OBJECT | IOPCODE_LOAD_PARAM_WIDE
  | IOPCODE_MOVE_RESULT_PSEUDO | IOPCODE_MOVE_RESULT_PSEUDO_OBJECT
  | IOPCODE_MOVE_RESULT_PSEUDO_WIDE.

(** Modelled from the spec: [opcode::Ref], the operand kind an opcode
    carries ("one of: none, integer literal, string reference, type
    reference, field reference, method reference, typed data blob"). *)
Inductive Ref : Type :=
  | RefNone | RefLiteral | RefString | RefType | RefField | RefMethod
  | RefData.

Definition Ref_eqb (x y : Ref) : bool :=
  match x, y with
  | RefNone, RefNone | RefLiteral, RefLiteral | RefString, RefString
  | RefType, RefType | RefField, RefField | RefMethod, RefMethod
  | RefData, RefData => true
  | _, _ => false
  end.

(** Modelled from the spec: [opcode::ref], the table that gives each opcode
    its operand kind. *)
Definition ref (op : IROpcode) : Ref :=
  match op with
  | OPCODE_CONST | OPCODE_CONST_WIDE
  | OPCODE_ADD_INT_LIT16 | OPCODE_RSUB_INT | OPCODE_MUL_INT_LIT16
  | OPCODE_DIV_INT_LIT16 | OPCODE_REM_INT_LIT16 | OPCODE_AND_INT_LIT16
  | OPCODE_OR_INT_LIT16 | OPCODE_XOR_INT_LIT16
  | OPCODE_ADD_INT_LIT8 | OPCODE_RSUB_INT_LIT8 | OPCODE_MUL_INT_LIT8
  | OPCODE_DIV_INT_LIT8 | OPCODE_REM_INT_LIT8 | OPCODE_AND_INT_LIT8
  | OPCODE_OR_INT_LIT8 | OPCODE_XOR_INT_LIT8 | OPCODE_SHL_INT_LIT8
  | OPCODE_SHR_INT_LIT8 | OPCODE_USHR_INT_LIT8 => RefLiteral
  | OPCODE_CONST_STRING => RefString
  | OPCODE_CONST_CLASS | OPCODE_CHECK_CAST | OPCODE_INSTANCE_OF
  | OPCODE_NEW_INSTANCE | OPCODE_NEW_ARRAY | OPCODE_FILLED_NEW_ARRAY =>
      RefType
  | OPCODE_IGET | OPCODE_IGET_WIDE | OPCODE_IGET_OBJECT | OPCODE_IGET_BOOLEAN
  | OPCODE_IGET_BYTE | OPCODE_IGET_CHAR | OPCODE_IGET_SHORT
  | OPCODE_IPUT | OPCODE_IPUT_WIDE | OPCODE_IPUT_OBJECT | OPCODE_IPUT_BOOLEAN
  | OPCODE_IPUT_BYTE | OPCODE_IPUT_CHAR | OPCODE_IPUT_SHORT
  | OPCODE_SGET | OPCODE_SGET_WIDE | OPCODE_SGET_OBJECT | OPCODE_SGET_BOOLEAN
  | OPCODE_SGET_BYTE | OPCODE_SGET_CHAR | OPCODE_SGET_SHORT
  | OPCODE_SPUT | OPCODE_SPUT_WIDE | OPCODE_SPUT_OBJECT | OPCODE_SPUT_BOOLEAN
  | OPCODE_SPUT_BYTE | OPCODE_SPUT_CHAR | OPCODE_SPUT_SHORT => RefField
  | OPCODE_INVOKE_VIRTUAL | OPCODE_INVOKE_SUPER | OPCODE_INVOKE_DIRECT
  | OPCODE_INVOKE_STATIC | OPCODE_INVOKE_INTERFACE => RefMethod
  | OPCODE_FILL_ARRAY_DATA => RefData
  | _ => RefNone
  end.

(** Modelled from the spec: [is_invoke] of [IROpcode.h], "all invokes": the
    five [invoke-*] opcodes. *)
Definition is_invoke (op : IROpcode) : bool :=
  match op with
  | OPCODE_INVOKE_VIRTUAL | OPCODE_INVOKE_SUPER | OPCODE_INVOKE_DIRECT
  | OPCODE_INVOKE_STATIC | OPCODE_INVOKE_INTERFACE => true
  | _ => false
  end.

(** Modelled from the spec: [is_conditional_branch] of [IROpcode.h], the
    twelve [if-*] opcodes; a block that ends in one has "exactly one GOTO and
    one-or-more BRANCH edges". *)
Definition is_conditional_branch (op : IROpcode) : bool :=
  match op with
  | OPCODE_IF_EQ | OPCODE_IF_NE | OPCODE_IF_LT | OPCODE_IF_GE | OPCODE_IF_GT
  | OPCODE_IF_LE
  | OPCODE_IF_EQZ | OPCODE_IF_NEZ | OPCODE_IF_LTZ | OPCODE_IF_GEZ
  | OPCODE_IF_GTZ | OPCODE_IF_LEZ => true
  | _ => false
  end.

(** Modelled from the spec: [is_switch] of [IROpcode.h]; "there is only one
    type of switch". *)
Definition is_switch (op : IROpcode) : bool :=
  match op with OPCODE_SWITCH => true | _ => false end.

(** Modelled from the spec: [is_filled_new_array] of [IROpcode.h]. *)
Definition is_filled_new_array (op : IROpcode) : bool :=
  match op with OPCODE_FILLED_NEW_ARRAY => true | _ => false end.

(** Modelled from the spec: [opcode::is_move_result_pseudo] of
    [IROpcode.h], the "move-result-pseudo entry that carries the destination
    register". *)
Definition is_move_result_pseudo (op : IROpcode) : bool :=
  match op with
  | IOPCODE_MOVE_RESULT_PSEUDO | IOPCODE_MOVE_RESULT_PSEUDO_OBJECT
  | IOPCODE_MOVE_RESULT_PSEUDO_WIDE => true
  | _ => false
  end.

(** Modelled from the spec: [is_move_result] of [IROpcode.h], the
    [move-result] that follows an invoke or a filled-new-array. *)
Definition is_move_result (op : IROpcode) : bool :=
  match op with
  | OPCODE_MOVE_RESULT | OPCODE_MOVE_RESULT_WIDE
  | OPCODE_MOVE_RESULT_OBJECT => true
  | _ => false
  end.

(** Modelled from the spec: [opcode::is_move_result_any] of [IROpcode.h], a
    [move-result] or a [move-result-pseudo] ("move-result entries"). *)
Definition is_move_result_any (op : IROpcode) : bool :=
  is_move_result op || is_move_result_pseudo op.

(** Modelled from the spec: [opcode_impl::has_move_result_pseudo] of
    [IROpcode.h].  "An instruction that can throw and also produce a result
    is represented as two adjacent logical steps: the throwing instruction
    (no destination) immediately followed by a move-result-pseudo entry":
    these are the throwing instructions. *)
Definition has_move_result_pseudo (op : IROpcode) : bool :=
  match op with
  | OPCODE_CONST_STRING | OPCODE_CONST_CLASS | OPCODE_CHECK_CAST
  | OPCODE_INSTANCE_OF | OPCODE_ARRAY_LENGTH | OPCODE_NEW_INSTANCE
  | OPCODE_NEW_ARRAY
  | OPCODE_AGET | OPCODE_AGET_WIDE | OPCODE_AGET_OBJECT | OPCODE_AGET_BOOLEAN
  | OPCODE_AGET_BYTE | OPCODE_AGET_CHAR | OPCODE_AGET_SHORT
  | OPCODE_IGET | OPCODE_IGET_WIDE | OPCODE_IGET_OBJECT | OPCODE_IGET_BOOLEAN
  | OPCODE_IGET_BYTE | OPCODE_IGET_CHAR | OPCODE_IGET_SHORT
  | OPCODE_SGET | OPCODE_SGET_WIDE | OPCODE_SGET_OBJECT | OPCODE_SGET_BOOLEAN
  | OPCODE_SGET_BYTE | OPCODE_SGET_CHAR | OPCODE_SGET_SHORT
  | OPCODE_DIV_INT | OPCODE_REM_INT | OPCODE_DIV_LONG | OPCODE_REM_LONG
  | OPCODE_DIV_INT_LIT16 | OPCODE_REM_INT_LIT16
  | OPCODE_DIV_INT_LIT8 | OPCODE_REM_INT_LIT8 => true
  | _ => false
  end.

(** Modelled from the spec: [opcode_impl::has_dest] of [IROpcode.h], the
    opcodes that write a destination register themselves: neither the
    throwing instructions above nor the invokes, whose result goes through
    the return-value slot. *)
Definition has_dest (op : IROpcode) : bool :=
  match op with
  | OPCODE_MOVE | OPCODE_MOVE_WIDE | OPCODE_MOVE_OBJECT
  | OPCODE_MOVE_RESULT | OPCODE_MOVE_RESULT_WIDE | OPCODE_MOVE_RESULT_OBJECT
  | OPCODE_MOVE_EXCEPTION
  | OPCODE_CONST | OPCODE_CONST_WIDE
  | OPCODE_CMPL_FLOAT | OPCODE_CMPG_FLOAT | OPCODE_CMPL_DOUBLE
  | OPCODE_CMPG_DOUBLE | OPCODE_CMP_LONG
  | OPCODE_NEG_INT | OPCODE_NOT_INT | OPCODE_NEG_LONG | OPCODE_NOT_LONG
  | OPCODE_NEG_FLOAT | OPCODE_NEG_DOUBLE
  | OPCODE_INT_TO_LONG | OPCODE_INT_TO_FLOAT | OPCODE_INT_TO_DOUBLE
  | OPCODE_LONG_TO_INT | OPCODE_LONG_TO_FLOAT | OPCODE_LONG_TO_DOUBLE
  | OPCODE_FLOAT_TO_INT | OPCODE_FLOAT_TO_LONG | OPCODE_FLOAT_TO_DOUBLE
  | OPCODE_DOUBLE_TO_INT | OPCODE_DOUBLE_TO_LONG | OPCODE_DOUBLE_TO_FLOAT
  | OPCODE_INT_TO_BYTE | OPCODE_INT_TO_CHAR | OPCODE_INT_TO_SHORT
  | OPCODE_ADD_INT | OPCODE_SUB_INT | OPCODE_MUL_INT
  | OPCODE_AND_INT | OPCODE_OR_INT | OPCODE_XOR_INT
  | OPCODE_SHL_INT | OPCODE_SHR_INT | OPCODE_USHR_INT
  | OPCODE_ADD_LONG | OPCODE_SUB_LONG | OPCODE_MUL_LONG
  | OPCODE_AND_LONG | OPCODE_OR_LONG | OPCODE_XOR_LONG
  | OPCODE_SHL_LONG | OPCODE_SHR_LONG | OPCODE_USHR_LONG
  | OPCODE_ADD_FLOAT | OPCODE_SUB_FLOAT | OPCODE_MUL_FLOAT | OPCODE_DIV_FLOAT
  | OPCODE_REM_FLOAT
  | OPCODE_ADD_DOUBLE | OPCODE_SUB_DOUBLE | OPCODE_MUL_DOUBLE
  | OPCODE_DIV_DOUBLE | OPCODE_REM_DOUBLE
  | OPCODE_ADD_INT_LIT16 | OPCODE_RSUB_INT | OPCODE_MUL_INT_LIT16
  | OPCODE_AND_INT_LIT16 | OPCODE_OR_INT_LIT16 | OPCODE_XOR_INT_LIT16
  | OPCODE_ADD_INT_LIT8 | OPCODE_RSUB_INT_LIT8 | OPCODE_MUL_INT_LIT8
  | OPCODE_AND_INT_LIT8 | OPCODE_OR_INT_LIT8 | OPCODE_XOR_INT_LIT8
  | OPCODE_SHL_INT_LIT8 | OPCODE_SHR_INT_LIT8 | OPCODE_USHR_INT_LIT8
  | IOPCODE_LOAD_PARAM | IOPCODE_LOAD_PARAM_OBJECT | IOPCODE_LOAD_PARAM_WIDE
  | IOPCODE_MOVE_RESULT_PSEUDO | IOPCODE_MOVE_RESULT_PSEUDO_OBJECT
  | IOPCODE_MOVE_RESULT_PSEUDO_WIDE => true
  | _ => false
  end.

End Opcode.

Export Opcode.

(** ** Instructions ([IRInstruction.h]) *)

Abbreviation reg_t := nat.

(** Interned referents are known by their address. *)
Abbreviation DexMethodRef := N.
Abbreviation DexMethod := N.

(** [class IRInstruction].  The anonymous union of [m_literal], [m_string],
    [m_type], [m_field], [m_method] and [m_data] is one 64-bit word,
    [m_union], read according to the opcode's operand kind. *)
Record IRInstruction : Type := mkIRInstruction {
  m_opcode : IROpcode;
  m_dest : reg_t;
  m_union : N;
  m_srcs : list reg_t
}.

Module IRInstr.

Definition opcode (i : IRInstruction) : IROpcode := m_opcode i.

Definition has_string (i : IRInstruction) : bool :=
  Ref_eqb (Opcode.ref (m_opcode i)) RefString.
Definition has_type (i : IRInstruction) : bool :=
  Ref_eqb (Opcode.ref (m_opcode i)) RefType.
Definition has_field (i : IRInstruction) : bool :=
  Ref_eqb (Opcode.ref (m_opcode i)) RefField.
Definition has_method (i : IRInstruction) : bool :=
  Ref_eqb (Opcode.ref (m_opcode i)) RefMethod.
Definition has_literal (i : IRInstruction) : bool :=
  Ref_eqb (Opcode.ref (m_opcode i)) RefLiteral.
Definition has_data (i : IRInstruction) : bool :=
  Ref_eqb (Opcode.ref (m_opcode i)) RefData.

Definition has_dest (i : IRInstruction) : bool := Opcode.has_dest (m_opcode i).

Definition srcs_size (i : IRInstruction) : nat := length (m_srcs i).

Definition has_move_result_pseudo (i : IRInstruction) : bool :=
  Opcode.has_move_result_pseudo (m_opcode i).

Definition has_move_result (i : IRInstruction) : bool :=
  has_method i ||
  match m_opcode i with OPCODE_FILLED_NEW_ARRAY => true | _ => false end.

Definition has_move_result_any (i : IRInstruction) : bool :=
  has_move_result i || has_move_result_pseudo i.

(** [dest()]: [always_assert_log(has_dest(), ...)]. *)
Definition dest (i : IRInstruction) : option reg_t :=
  if has_dest i then Some (m_dest i) else None.

(** [src(i)]: [m_srcs.at(i)]. *)
Definition src (i : IRInstruction) (k : nat) : option reg_t := m_srcs i !! k.

(** [get_method()]: [always_assert(has_method())]. *)
Definition get_method (i : IRInstruction) : option DexMethodRef :=
  if has_method i then Some (m_union i) else None.

(** The answers of the six operand-kind predicates. *)
Definition operand_kinds (i : IRInstruction) : list bool :=
  [has_literal i; has_string i; has_type i; has_field i; has_method i;
   has_data i].

End IRInstr.

(** An [IRInstruction*]: the address gives the pointer its identity (the
    deletion phase of [dce] keeps a set of pointers), the pointee is the
    instruction found there. *)
Record insn_ptr : Type := mk_insn_ptr {
  addr : N;
  pointee : IRInstruction
}.

(** ** A monadic left fold: a [for] loop whose body may fail *)

Fixpoint foldM {A B : Type} (f : B → A → option B) (l : list A) (b : B)
    : option B :=
  match l with
  | [] => Some b
  | x :: l' => b' ← f b x; foldM f l' b'
  end.

(** ** [boost::dynamic_bitset<>] *)

Module Bitset.

Abbreviation bitset := (list bool).

(** [dynamic_bitset(n)]: [n] bits, all zero. *)
Definition make (n : nat) : bitset := replicate n false.

Definition size (bs : bitset) : nat := length bs.

(** [test(pos)], with its [assert(pos < size())]. *)
Definition test (bs : bitset) (pos : nat) : option bool := bs !! pos.

(** [set(pos)], with its [assert(pos < size())]. *)
Definition set (bs : bitset) (pos : nat) : option bitset :=
  if decide (pos < length bs) then Some (<[pos := true]> bs) else None.

(** [reset(pos)], with its [assert(pos < size())]. *)
Definition reset (bs : bitset) (pos : nat) : option bitset :=
  if decide (pos < length bs) then Some (<[pos := false]> bs) else None.

(** [reset()]: clears every bit, the size stays. *)
Definition reset_all (bs : bitset) : bitset := replicate (length bs) false.

(** [operator|=], with its [assert(size() == rhs.size())]. *)
Definition or_assign (bs rhs : bitset) : option bitset :=
  if decide (length bs = length rhs) then Some (zip_with orb bs rhs)
  else None.

(** Number of bits that are set ([count()]). *)
Definition count (bs : bitset) : nat :=
  length (filter (λ b : bool, b = true) bs).

End Bitset.

Import Bitset.

(** ** Control-flow graph ([ControlFlow.h]) *)

Module cfg.

Abbreviation BlockId := nat.

Inductive EdgeType : Type := EDGE_GOTO | EDGE_BRANCH | EDGE_THROW.

Global Instance EdgeType_eq_dec : EqDecision EdgeType.
Proof. solve_decision. Defined.

(** [class Edge]; a [Block*] is the id of the block, which is unique within
    one graph. *)
Record Edge : Type := mkEdge {
  m_src : BlockId;
  m_target : BlockId;
  m_type : EdgeType
}.

(** [struct MethodItemEntry], a tagged union; only [MFLOW_OPCODE] entries
    carry an instruction, the payload of the other kinds plays no part
    here. *)
Inductive MethodItemEntry : Type :=
  | MFLOW_OPCODE (insn : insn_ptr)
  | MFLOW_TRY
  | MFLOW_CATCH
  | MFLOW_TARGET
  | MFLOW_DEBUG
  | MFLOW_POSITION
  | MFLOW_FALLTHROUGH.

(** [class Block]: its id, its entries in order, its outgoing edges. *)
Record Block : Type := mkBlock {
  m_id : BlockId;
  m_entries : list MethodItemEntry;
  m_succs : list Edge
}.

(** [class ControlFlowGraph]. *)
Record ControlFlowGraph : Type := mkCFG {
  m_blocks : list Block;
  m_registers_size : reg_t
}.

(** An [IRList::iterator] into a block: the position of the entry and the
    entry found there. *)
Abbreviation iterator := (nat * MethodItemEntry)%type.

(** [it->insn]; reading the union under another tag is an error. *)
Definition it_insn (it : iterator) : option insn_ptr :=
  match it.2 with MFLOW_OPCODE insn => Some insn | _ => None end.

(** The entries of a block from [rbegin()] to [rend()], each with the
    forward iterator [std::prev(it.base())] that designates it. *)
Definition rentries (b : Block) : list iterator :=
  reverse (imap (λ i e, (i, e)) (m_entries b)).

(** Modelled from the spec: [get_succ_edge_of_type], "returns the unique
    (resp. all) outgoing edge(s) of a given type from a block"; absent, the
    answer is [nullptr], here [None].  ([ControlFlow.cpp] is not part of the
    sources at hand.) *)
Definition get_succ_edge_of_type (g : ControlFlowGraph) (b : Block)
    (t : EdgeType) : option Edge :=
  List.find (λ e, bool_decide (m_type e = t)) (m_succs b).

(** Modelled from the spec: [get_succ_edges_of_type], all outgoing edges of
    the given type, in the order of [succs()]. *)
Definition get_succ_edges_of_type (g : ControlFlowGraph) (b : Block)
    (t : EdgeType) : list Edge :=
  filter (λ e, m_type e = t) (m_succs b).

End cfg.

Import cfg.

(** ** The collaborators of [LocalDce]

    [Resolver.h], the global [::assumenosideeffects] and the postorder
    traversal [ControlFlowGraph::blocks_post] are outside the sources at
    hand; the pass is verified for every implementation of them. *)
Class Externals : Type := {
  MethodSearch : Type;
  opcode_to_search : IRInstruction → MethodSearch;
  (** [resolve_method(ref, search)]; [nullptr] is [None]. *)
  resolve_method : DexMethodRef → MethodSearch → option DexMethod;
  (** [::assumenosideeffects(meth)]. *)
  assumenosideeffects : DexMethod → bool;
  blocks_post : ControlFlowGraph → list Block
}.

(** ** [LocalDce.cpp] *)

Module LocalDce.

(** [class LocalDce]: the caller-supplied set of pure methods. *)
Record t : Type := mk {
  m_pure_methods : gset DexMethodRef
}.

(** These instructions have observable side effects so must always be
    considered live, regardless of whether their output is consumed by
    another instruction. *)
Definition has_side_effects (opc : IROpcode) : bool :=
  match opc with
  | OPCODE_RETURN_VOID
  | OPCODE_RETURN
  | OPCODE_RETURN_WIDE
  | OPCODE_RETURN_OBJECT
  | OPCODE_MONITOR_ENTER
  | OPCODE_MONITOR_EXIT
  | OPCODE_FILL_ARRAY_DATA
  | OPCODE_THROW
  | OPCODE_GOTO
  | OPCODE_SWITCH
  | OPCODE_IF_EQ
  | OPCODE_IF_NE
  | OPCODE_IF_LT
  | OPCODE_IF_GE
  | OPCODE_IF_GT
  | OPCODE_IF_LE
  | OPCODE_IF_EQZ
  | OPCODE_IF_NEZ
  | OPCODE_IF_LTZ
  | OPCODE_IF_GEZ
  | OPCODE_IF_GTZ
  | OPCODE_IF_LEZ
  | OPCODE_APUT
  | OPCODE_APUT_WIDE
  | OPCODE_APUT_OBJECT
  | OPCODE_APUT_BOOLEAN
  | OPCODE_APUT_BYTE
  | OPCODE_APUT_CHAR
  | OPCODE_APUT_SHORT
  | OPCODE_IPUT
  | OPCODE_IPUT_WIDE
  | OPCODE_IPUT_OBJECT
  | OPCODE_IPUT_BOOLEAN
  | OPCODE_IPUT_BYTE
  | OPCODE_IPUT_CHAR
  | OPCODE_IPUT_SHORT
  | OPCODE_SPUT
  | OPCODE_SPUT_WIDE
  | OPCODE_SPUT_OBJECT
  | OPCODE_SPUT_BOOLEAN
  | OPCODE_SPUT_BYTE
  | OPCODE_SPUT_CHAR
  | OPCODE_SPUT_SHORT
  | OPCODE_INVOKE_VIRTUAL
  | OPCODE_INVOKE_SUPER
  | OPCODE_INVOKE_DIRECT
  | OPCODE_INVOKE_STATIC
  | OPCODE_INVOKE_INTERFACE
  | IOPCODE_LOAD_PARAM
  | IOPCODE_LOAD_PARAM_OBJECT
  | IOPCODE_LOAD_PARAM_WIDE => true
  | _ => false
  end.

(** The position of the return-value slot, [bliveness.size() - 1]; on an
    empty vector the subtraction wraps around in C++ and the access that
    follows is out of range, as is position 0 here. *)
Definition rv_slot (bliveness : bitset) : nat := Bitset.size bliveness - 1.

(** Update the liveness vector given that [inst] is live. *)
Definition update_liveness (inst : IRInstruction) (bliveness : bitset)
    : option bitset :=
  (* The destination register is killed, so it isn't live before this. *)
  bl1 ← (if IRInstr.has_dest inst
         then d ← IRInstr.dest inst; Bitset.reset bliveness d
         else Some bliveness);
  let op := IRInstr.opcode inst in
  (* The destination of an invoke is its return value, which is encoded as
     the max position in the bitvector. *)
  bl2 ← (if is_invoke op || is_filled_new_array op ||
            IRInstr.has_move_result_pseudo inst
         then Bitset.reset bl1 (rv_slot bl1)
         else Some bl1);
  (* Source registers are live. *)
  bl3 ← foldM Bitset.set (m_srcs inst) bl2;
  (* The source of a move-result is the return value of the prior call,
     which is encoded as the max position in the bitvector. *)
  if is_move_result_any op then Bitset.set bl3 (rv_slot bl3) else Some bl3.

Section with_externals.
Context `{Externals} (this : t).

(** [LocalDce::assumenosideeffects]. *)
Definition assumenosideeffects (ref : DexMethodRef) (meth : DexMethod)
    : bool :=
  if assumenosideeffects meth then true
  else bool_decide (ref ∈ m_pure_methods this).

(** An instruction is required (i.e., live) if it has side effects or if its
    destination register is live. *)
Definition is_required (g : ControlFlowGraph) (b : Block)
    (inst : IRInstruction) (bliveness : bitset) : option bool :=
  if has_side_effects (IRInstr.opcode inst) then
    if is_invoke (IRInstr.opcode inst) then
      ref ← IRInstr.get_method inst;
      match resolve_method ref (opcode_to_search inst) with
      | None => Some true
      | Some meth =>
          if negb (assumenosideeffects ref meth) then Some true
          else Bitset.test bliveness (rv_slot bliveness)
      end
    else if is_conditional_branch (IRInstr.opcode inst) then
      (* always_assert(goto_edge != nullptr);
         always_assert(branch_edge != nullptr); *)
      goto_edge ← get_succ_edge_of_type g b EDGE_GOTO;
      branch_edge ← get_succ_edge_of_type g b EDGE_BRANCH;
      Some (bool_decide (m_target goto_edge ≠ m_target branch_edge))
    else if is_switch (IRInstr.opcode inst) then
      goto_edge ← get_succ_edge_of_type g b EDGE_GOTO;
      let branch_edges := get_succ_edges_of_type g b EDGE_BRANCH in
      Some (existsb
              (λ branch_edge,
                 bool_decide (m_target goto_edge ≠ m_target branch_edge))
              branch_edges)
    else Some true
  else if IRInstr.has_dest inst then
    d ← IRInstr.dest inst; Bitset.test bliveness d
  else if is_filled_new_array (IRInstr.opcode inst) ||
          IRInstr.has_move_result_pseudo inst then
    (* These instructions pass their dests via the return-value slot, but
       aren't inherently live like the invoke-* instructions. *)
    Bitset.test bliveness (rv_slot bliveness)
  else Some false.

(** *** [LocalDce::dce] *)

(** [std::unordered_map<cfg::BlockId, boost::dynamic_bitset<>>]. *)
Abbreviation liveness_map := (gmap BlockId bitset).

(** [std::pair<cfg::Block*, IRList::iterator>]. *)
Abbreviation dead_insn := (Block * iterator)%type.

(** The initial map: every block of [blocks] gets [regs + 1] zero bits
    ([emplace] leaves a key that is already there alone). *)
Definition init_liveness (blocks : list Block) (regs : nat) : liveness_map :=
  foldl (λ liveness b,
           match liveness !! m_id b with
           | Some _ => liveness
           | None => <[m_id b := Bitset.make (regs + 1)]> liveness
           end) ∅ blocks.

(** One turn of the loop over [b->succs()].  [bliveness] is a reference into
    the map, so [liveness.at(s->target()->id())] sees the bits written so far
    when the edge is a self-loop: the lookup goes through the map with the
    current [bliveness] stored back. *)
Definition live_out_step (liveness : liveness_map) (b : Block)
    (prev_liveness : bitset) (bliveness : bitset) (s : Edge)
    : option bitset :=
  bl1 ← (if bool_decide (m_target s = m_id b)
         then Bitset.or_assign bliveness prev_liveness
         else Some bliveness);
  succ_liveness ← (<[m_id b := bl1]> liveness) !! m_target s;
  Bitset.or_assign bl1 succ_liveness.

(** Compute live-out for this block from its successors. *)
Definition live_out (liveness : liveness_map) (b : Block)
    (prev_liveness : bitset) : option bitset :=
  foldM (live_out_step liveness b prev_liveness) (m_succs b)
        (Bitset.reset_all prev_liveness).

(** The body of the reverse walk over the entries of [b]. *)
Definition walk_step (g : ControlFlowGraph) (b : Block)
    (st : bitset * list dead_insn) (it : iterator)
    : option (bitset * list dead_insn) :=
  let '(bliveness, dead_instructions) := st in
  match it.2 with
  | MFLOW_OPCODE insn =>
      is_required g b (pointee insn) bliveness ≫= λ required : bool,
      if required then
        bl' ← update_liveness (pointee insn) bliveness;
        Some (bl', dead_instructions)
      else
        (* move-result-pseudo instructions will be automatically removed
           when their primary instruction is deleted. *)
        if negb (is_move_result_pseudo (IRInstr.opcode (pointee insn)))
        then Some (bliveness, dead_instructions ++ [(b, it)])
        else Some (bliveness, dead_instructions)
  | _ => Some st (* it->type != MFLOW_OPCODE: continue *)
  end.

(** Compute live-in for this block by walking its instruction list in
    reverse and applying the liveness rules. *)
Definition walk (g : ControlFlowGraph) (b : Block)
    (st : bitset * list dead_insn) : option (bitset * list dead_insn) :=
  foldM (walk_step g b) (rentries b) st.

(** The state of one sweep: the map, the dead instructions recorded so far
    and the [changed] flag. *)
Abbreviation sweep_state :=
  (liveness_map * list dead_insn * bool)%type.

(** The body of [for (auto& b : blocks)]. *)
Definition block_step (g : ControlFlowGraph) (st : sweep_state) (b : Block)
    : option sweep_state :=
  let '(liveness, dead_instructions, changed) := st in
  prev_liveness ← liveness !! m_id b;
  out ← live_out liveness b prev_liveness;
  '(bliveness, dead') ← walk g b (out, dead_instructions);
  Some (<[m_id b := bliveness]> liveness, dead',
        if bool_decide (bliveness ≠ prev_liveness) then true else changed).

(** One pass through the body of the [do ... while (changed)] loop. *)
Definition sweep (g : ControlFlowGraph) (blocks : list Block)
    (liveness : liveness_map) : option sweep_state :=
  foldM (block_step g) blocks (liveness, [], false).

(** How a run of the fixed-point loop ends. *)
Inductive outcome : Type :=
  | OutOfFuel
  | Aborted
  | Stable (liveness : liveness_map) (dead_instructions : list dead_insn)
           (sweeps : nat).

(** Iterate liveness analysis to a fixed point.  [fuel] bounds the number
    of sweeps the model may run, [n] counts the sweeps already done. *)
Fixpoint fixed_point (fuel : nat) (g : ControlFlowGraph)
    (blocks : list Block) (liveness : liveness_map) (n : nat) : outcome :=
  match fuel with
  | 0 => OutOfFuel
  | S fuel' =>
      match sweep g blocks liveness with
      | None => Aborted
      | Some (liveness', dead_instructions, changed) =>
          if changed then fixed_point fuel' g blocks liveness' (S n)
          else Stable liveness' dead_instructions (S n)
      end
  end.

(** Remove dead instructions: the body of the last loop of [dce].  The
    state is the set [seen] and the iterators handed to
    [Block::remove_insn] so far, in order. *)
Definition remove_step (st : gset N * list dead_insn) (pair : dead_insn)
    : option (gset N * list dead_insn) :=
  let '(seen, removed) := st in
  insn ← it_insn pair.2;
  if bool_decide (addr insn ∈ seen) then Some st (* continue *)
  else Some ({[addr insn]} ∪ seen, removed ++ [pair]).

Definition remove_dead (dead_instructions : list dead_insn)
    : option (list dead_insn) :=
  snd <$> foldM remove_step dead_instructions (∅, []).

(** What a run of [dce] leaves behind: the stable liveness map, the
    recorded dead instructions, the calls of [remove_insn] in order, and the
    number of sweeps. *)
Record dce_result : Type := mk_result {
  final_liveness : liveness_map;
  dead_instructions : list dead_insn;
  removed : list dead_insn;
  sweeps : nat
}.

Inductive dce_outcome : Type :=
  | DceOutOfFuel
  | DceAborted
  | DceDone (r : dce_result).

(** [LocalDce::dce], up to the calls of [remove_insn]. *)
Definition dce (fuel : nat) (g : ControlFlowGraph) : dce_outcome :=
  let blocks := blocks_post g in
  let regs := m_registers_size g in
  match fixed_point fuel g blocks (init_liveness blocks regs) 0 with
  | OutOfFuel => DceOutOfFuel
  | Aborted => DceAborted
  | Stable liveness dead n =>
      match remove_dead dead with
      | None => DceAborted
      | Some calls => DceDone (mk_result liveness dead calls n)
      end
  end.

End with_externals.

End LocalDce.

(** ** The mutation buffer ([CFGMutation])

    [CFGMutation.h] and [CFGMutation.cpp] are not part of the sources at
    hand, which only hold the tests of the buffer; its model follows the
    description of the buffer. *)

Module CFGMutation.

(** Modelled from the spec: the [kind] of a change, "kind ∈ {Before, After,
    Replacing}" ([CFGMutation::Insert] in the tests). *)
Inductive Insert : Type := Before | After | Replacing.

(** Modelled from the spec: the edits outstanding for one anchor.  The
    instructions to insert before and after it, in the order [add_change]
    received them, and the replacement if there is one. *)
Record ChangeSet : Type := mkChangeSet {
  m_insert_before : list insn_ptr;
  m_replace : option (list insn_ptr);
  m_insert_after : list insn_ptr
}.

Definition no_changes : ChangeSet := mkChangeSet [] None [].

(** Modelled from the spec: the pending set, "changes are indexed by
    anchor", an anchor being an existing instruction known by its
    identity. *)
Abbreviation changes := (gmap N ChangeSet).

(** The instructions of a graph, block after block (what
    [cfg::InstructionIterable] walks). *)
Definition instructions_of (es : list MethodItemEntry) : list insn_ptr :=
  omap (λ e, match e with MFLOW_OPCODE i => Some i | _ => None end) es.

Definition instructions (g : ControlFlowGraph) : list insn_ptr :=
  mjoin (map (λ b, instructions_of (m_entries b)) (m_blocks g)).

(** Modelled from the spec: [add_change(kind, anchor, new_instructions)].
    "anchor must currently exist in the CFG and must not already be the
    anchor of a conflicting pending change of a kind that would make ordering
    ambiguous" (a second replacement of the same anchor); "violating this
    fails with a usage-error". *)
Definition add_change (g : ControlFlowGraph) (m : changes) (where_ : Insert)
    (anchor : insn_ptr) (new_instructions : list insn_ptr)
    : option changes :=
  if bool_decide (addr anchor ∈ map addr (instructions g)) then
    let cs := default no_changes (m !! addr anchor) in
    match where_ with
    | Before =>
        Some (<[addr anchor :=
                  mkChangeSet (m_insert_before cs ++ new_instructions)
                              (m_replace cs) (m_insert_after cs)]> m)
    | After =>
        Some (<[addr anchor :=
                  mkChangeSet (m_insert_before cs) (m_replace cs)
                              (m_insert_after cs ++ new_instructions)]> m)
    | Replacing =>
        match m_replace cs with
        | Some _ => None
        | None =>
            Some (<[addr anchor :=
                      mkChangeSet (m_insert_before cs)
                                  (Some new_instructions)
                                  (m_insert_after cs)]> m)
        end
    end
  else None.

(** An entry that is a move-result-pseudo instruction. *)
Definition is_pseudo_entry (e : MethodItemEntry) : bool :=
  match e with
  | MFLOW_OPCODE p => is_move_result_pseudo (IRInstr.opcode (pointee p))
  | _ => false
  end.

(** Modelled from the spec: the instructions that end their block wherever
    they stand, a return and a throw.  In the test [InsertReturn] the code
    behind an inserted [return-void] is gone after the flush. *)
Definition is_return (op : IROpcode) : bool :=
  match op with
  | OPCODE_RETURN_VOID | OPCODE_RETURN | OPCODE_RETURN_WIDE
  | OPCODE_RETURN_OBJECT => true
  | _ => false
  end.

Definition is_throw (op : IROpcode) : bool :=
  match op with OPCODE_THROW => true | _ => false end.

Definition ends_block (i : insn_ptr) : bool :=
  is_return (IRInstr.opcode (pointee i)) ||
  is_throw (IRInstr.opcode (pointee i)).

(** The instructions of [news] up to and including the first one that ends
    the block, and that one if there is one: what is inserted behind it
    would be code behind a return or a throw. *)
Fixpoint stop_at (news : list insn_ptr) : list insn_ptr * option insn_ptr :=
  match news with
  | [] => ([], None)
  | i :: rest =>
      if ends_block i then ([i], Some i)
      else let '(out, c) := stop_at rest in (i :: out, c)
  end.

(** The entries behind an insertion, which are gone when the insertion
    ended the block. *)
Definition unless_cut {A} (c : option insn_ptr) (l : list A) : list A :=
  match c with Some _ => [] | None => l end.

(** Modelled from the spec: the edges of a block whose code was cut behind
    an inserted instruction.  "A block's outgoing edges' types are mutually
    consistent with its last instruction": behind a return the block has no
    successor, behind a throw only its THROW edges. *)
Definition succs_after (c : option insn_ptr) (succs : list Edge)
    : list Edge :=
  match c with
  | None => succs
  | Some x =>
      if is_return (IRInstr.opcode (pointee x)) then []
      else filter (λ e, m_type e = EDGE_THROW) succs
  end.

(** What the walk does behind an anchor: it stops (the block was cut), it
    goes on with the next entry, or it goes on behind the next entry (the
    move-result-pseudo that went with a replaced anchor). *)
Inductive next_step : Type := Stop | Next | BehindPseudo.

(** What happens at the head of the block behind the GOTO edge, where the
    move-result-pseudo of the last instruction of a block stands: the
    move-result-pseudo is dropped, instructions are inserted behind it. *)
Record head_change : Type := mk_head {
  h_drop : bool;
  h_insert : list insn_ptr
}.

(** What the edits of one anchor give. *)
Record placed : Type := mk_placed {
  p_entries : list MethodItemEntry;
  p_next : next_step;
  p_moved : list insn_ptr;
  p_cut : option insn_ptr;
  p_head : option head_change
}.

(** Modelled from the spec: the edits of the anchor [a] materialized, [rest]
    being the entries behind [a] in its block and [across] telling whether
    the block behind the GOTO edge starts with a move-result-pseudo.

    "The throwing instruction [is] immediately followed by a
    move-result-pseudo entry", in the same block or at the head of the next
    ([IRInstruction.h]), and the pair is "logically inseparable [...] in
    every mutation/deletion path": what is inserted after an instruction
    goes behind its move-result-pseudo ([p_moved], [h_insert]), and a
    replaced instruction takes its move-result-pseudo with it
    ([BehindPseudo], [h_drop]).  Behind an inserted return or throw nothing
    remains. *)
Definition apply_change (cs : ChangeSet) (a : insn_ptr)
    (rest : list MethodItemEntry) (across : bool) : placed :=
  let carries := IRInstr.has_move_result_pseudo (pointee a) in
  let next_is_pseudo :=
    match rest with e :: _ => is_pseudo_entry e | [] => false end in
  let at_head :=
    carries && across && match rest with [] => true | _ => false end in
  let '(bf, c1) := stop_at (m_insert_before cs) in
  match c1 with
  | Some x => mk_placed (map MFLOW_OPCODE bf) Stop [] (Some x) None
  | None =>
      match m_replace cs with
      | Some r =>
          let '(ra, c2) := stop_at (r ++ m_insert_after cs) in
          mk_placed (map MFLOW_OPCODE (bf ++ ra))
            (match c2 with
             | Some _ => Stop
             | None => if carries && next_is_pseudo then BehindPseudo
                       else Next
             end)
            [] c2
            (if at_head then Some (mk_head true []) else None)
      | None =>
          if carries && next_is_pseudo then
            mk_placed (map MFLOW_OPCODE (bf ++ [a])) Next
              (m_insert_after cs) None None
          else if at_head then
            mk_placed (map MFLOW_OPCODE (bf ++ [a])) Next [] None
              (Some (mk_head false (m_insert_after cs)))
          else
            let '(af, c3) := stop_at (m_insert_after cs) in
            mk_placed (map MFLOW_OPCODE (bf ++ a :: af))
              (match c3 with Some _ => Stop | None => Next end) [] c3 None
      end
  end.

(** Modelled from the spec: the pair of an instruction and its
    move-result-pseudo is "logically inseparable", so what was to be
    inserted after the instruction is inserted after the move-result-pseudo
    at the head of [rest]: the instructions [moved] join, in front, the
    insertions pending after that entry. *)
Definition move_behind (moved : list insn_ptr) (rest : list MethodItemEntry)
    (m : changes) : changes :=
  match moved, rest with
  | _ :: _, MFLOW_OPCODE p :: _ =>
      let cs := default no_changes (m !! addr p) in
      <[addr p := mkChangeSet (m_insert_before cs) (m_replace cs)
                    (moved ++ m_insert_after cs)]> m
  | _, _ => m
  end.

(** What the walk through a block gives: its entries, the changes still
    pending, the inserted instruction behind which the block was cut, and
    the change at the head of the next block. *)
Record walked : Type := mk_walked {
  w_entries : list MethodItemEntry;
  w_changes : changes;
  w_cut : option insn_ptr;
  w_head : option head_change
}.

Definition walked_cons (es : list MethodItemEntry)
    (h : option head_change) (w : walked) : walked :=
  mk_walked (es ++ w_entries w) (w_changes w) (w_cut w)
            (match h with Some _ => h | None => w_head w end).

(** Modelled from the spec: the walk of [flush] through the entries of one
    block.  "At each instruction position outstanding Before/After/Replacing
    edits for that exact instruction are materialized [...], then the index
    entry is cleared." *)
Fixpoint flush_entries (across : bool) (m : changes)
    (es : list MethodItemEntry) : walked :=
  match es with
  | [] => mk_walked [] m None None
  | MFLOW_OPCODE a :: rest =>
      match m !! addr a with
      | None => walked_cons [MFLOW_OPCODE a] None (flush_entries across m rest)
      | Some cs =>
          let p := apply_change cs a rest across in
          let m1 := move_behind (p_moved p) rest (delete (addr a) m) in
          match p_next p with
          | Stop => mk_walked (p_entries p) m1 (p_cut p) (p_head p)
          | Next =>
              walked_cons (p_entries p) (p_head p)
                (flush_entries across m1 rest)
          | BehindPseudo =>
              walked_cons (p_entries p) (p_head p)
                (match rest with
                 | _ :: rest' => flush_entries across m1 rest'
                 | [] => mk_walked [] m1 None None
                 end)
          end
      end
  | e :: rest => walked_cons [e] None (flush_entries across m rest)
  end.

(** Modelled from the spec: the change [h] at the head of a block, where
    the move-result-pseudo of the last instruction of the block before
    stands ([IRInstruction.h]: "B0: [...] iget-object v1; B1: [...]
    move-result-pseudo-object v0").  It applies when the first entry is a
    move-result-pseudo. *)
Definition change_head (h : head_change) (es : list MethodItemEntry)
    : list MethodItemEntry * option insn_ptr :=
  match es with
  | e :: rest =>
      if is_pseudo_entry e then
        let '(ins, c) := stop_at (h_insert h) in
        ((if h_drop h then [] else [e]) ++ map MFLOW_OPCODE ins ++
         unless_cut c rest, c)
      else (es, None)
  | [] => ([], None)
  end.

Definition change_block_head (h : head_change) (t : BlockId) (b : Block)
    : Block :=
  if bool_decide (m_id b = t) then
    mkBlock (m_id b) (change_head h (m_entries b)).1
      (succs_after (change_head h (m_entries b)).2 (m_succs b))
  else b.

(** The block behind the GOTO edge of [b]. *)
Definition goto_target (g : ControlFlowGraph) (b : Block) : option BlockId :=
  m_target <$> get_succ_edge_of_type g b EDGE_GOTO.

(** The block behind the GOTO edge of [b] starts with a
    move-result-pseudo. *)
Definition pseudo_across (g : ControlFlowGraph) (bs : list Block) (b : Block)
    : bool :=
  match goto_target g b with
  | Some t =>
      existsb (λ u, bool_decide (m_id u = t) &&
                    match m_entries u with
                    | e :: _ => is_pseudo_entry e
                    | [] => false
                    end) bs
  | None => false
  end.

(** Modelled from the spec: "at flush time the CFG is walked once".  The
    blocks are walked in order, [i] being the position of the next one and
    [n] the number of blocks still to walk; what a block changes at the head
    of the block behind its GOTO edge is done before the walk goes on. *)
Fixpoint flush_from (n i : nat) (g : ControlFlowGraph) (bs : list Block)
    (m : changes) : list Block * changes :=
  match n with
  | 0 => (bs, m)
  | S n' =>
      match bs !! i with
      | None => (bs, m)
      | Some b =>
          let w := flush_entries (pseudo_across g bs b) m (m_entries b) in
          let b' := mkBlock (m_id b) (w_entries w)
                      (succs_after (w_cut w) (m_succs b)) in
          let bs1 := <[i := b']> bs in
          let bs2 := match w_head w, goto_target g b with
                     | Some h, Some t => map (change_block_head h t) bs1
                     | _, _ => bs1
                     end in
          flush_from n' (S i) g bs2 (w_changes w)
      end
  end.

(** Modelled from the spec: [flush()], "applies every pending change to the
    CFG in a single pass, then clears the pending set"; a change whose
    anchor was not met "is dropped silently". *)
Definition flush (g : ControlFlowGraph) (m : changes)
    : ControlFlowGraph * changes :=
  (mkCFG (flush_from (length (m_blocks g)) 0 g (m_blocks g) m).1
         (m_registers_size g), ∅).

(** A move-result-pseudo is orphaned when the entry just before it is not
    an instruction that carries a move-result-pseudo.  [prev] tells whether
    the entry just before [es] is such an instruction. *)
Fixpoint no_orphan_from (prev : bool) (es : list MethodItemEntry) : bool :=
  match es with
  | [] => true
  | MFLOW_OPCODE i :: rest =>
      (if is_move_result_pseudo (IRInstr.opcode (pointee i)) then prev
       else true) &&
      no_orphan_from (IRInstr.has_move_result_pseudo (pointee i)) rest
  | _ :: rest => no_orphan_from false rest
  end.

Definition no_orphan (es : list MethodItemEntry) : bool :=
  no_orphan_from false es.

End CFGMutation.

(** ** Sample inputs *)

Module Examples.

(** A small world of methods: method reference 7 does not resolve, every
    other reference resolves to the method of the same number, and method 1
    is on the allow-list of [::assumenosideeffects].  The sample graphs list
    their blocks in postorder. *)
Definition ext : Externals := {|
  MethodSearch := unit;
  opcode_to_search := λ _, tt;
  resolve_method := λ r _, if decide (r = 7%N) then None else Some r;
  assumenosideeffects := λ m, bool_decide (m = 1%N);
  blocks_post := m_blocks
|}.

Definition insn (a : N) (op : IROpcode) (d : reg_t) (u : N)
    (srcs : list reg_t) : insn_ptr :=
  mk_insn_ptr a (mkIRInstruction op d u srcs).

(** A pass whose caller declared method references 2 and 7 pure. *)
Definition pass : LocalDce.t := LocalDce.mk {[2%N; 7%N]}.

(** [return-void], in a method without registers. *)
Definition return_void_block : Block :=
  mkBlock 0 [MFLOW_OPCODE (insn 1 OPCODE_RETURN_VOID 0 0 [])] [].
Definition return_void_graph : ControlFlowGraph :=
  mkCFG [return_void_block] 0.

(** [const v0 0; if-eqz v0 :l; :l return-void]: both edges of the branch
    lead to the block of the return. *)
Definition if_eqz : insn_ptr := insn 2 OPCODE_IF_EQZ 0 0 [0].
Definition same_target_block : Block :=
  mkBlock 0 [MFLOW_OPCODE (insn 1 OPCODE_CONST 0 0 []); MFLOW_OPCODE if_eqz]
          [mkEdge 0 1 EDGE_GOTO; mkEdge 0 1 EDGE_BRANCH].
Definition same_target_graph : ControlFlowGraph :=
  mkCFG [mkBlock 1 [MFLOW_OPCODE (insn 3 OPCODE_RETURN_VOID 0 0 [])] [];
         same_target_block] 1.

(** A block that ends in a switch whose two cases and default lead to
    blocks 1, 2 and 1. *)
Definition switch_block : Block :=
  mkBlock 0 [MFLOW_OPCODE (insn 1 OPCODE_SWITCH 0 0 [0])]
          [mkEdge 0 1 EDGE_GOTO; mkEdge 0 1 EDGE_BRANCH;
           mkEdge 0 2 EDGE_BRANCH].
Definition switch_graph : ControlFlowGraph :=
  mkCFG [mkBlock 2 [MFLOW_OPCODE (insn 3 OPCODE_RETURN_VOID 0 0 [])] [];
         mkBlock 1 [MFLOW_OPCODE (insn 2 OPCODE_RETURN_VOID 0 0 [])] [];
         switch_block] 1.

(** Invokes of the pure method 1, of the caller-declared pure method 2, of
    the unresolvable method 7, and of the ordinary method 3. *)
Definition invoke_static (ref : N) : IRInstruction :=
  mkIRInstruction OPCODE_INVOKE_STATIC 0 ref [0].

(** A loop: block 0 loads [v0] and enters block 1, which adds [v0] to [v1]
    and branches back to itself or leaves for block 2, which returns
    [v1]. *)
Definition loop_graph : ControlFlowGraph :=
  mkCFG [mkBlock 2 [MFLOW_OPCODE (insn 4 OPCODE_RETURN 0 0 [1])] [];
         mkBlock 1 [MFLOW_OPCODE (insn 2 OPCODE_ADD_INT 1 0 [1; 0]);
                    MFLOW_OPCODE (insn 3 OPCODE_IF_EQZ 0 0 [1])]
                 [mkEdge 1 2 EDGE_GOTO; mkEdge 1 1 EDGE_BRANCH];
         mkBlock 0 [MFLOW_OPCODE (insn 1 IOPCODE_LOAD_PARAM 0 0 [])]
                 [mkEdge 0 1 EDGE_GOTO]] 2.

(** A block in which one instruction, [const v0 0] at address 1, is linked
    twice. *)
Definition aliased_graph : ControlFlowGraph :=
  mkCFG [mkBlock 0 [MFLOW_OPCODE (insn 1 OPCODE_CONST 0 0 []);
                    MFLOW_OPCODE (insn 1 OPCODE_CONST 0 0 []);
                    MFLOW_OPCODE (insn 2 OPCODE_RETURN_VOID 0 0 [])] []] 1.

(** The programs of the tests of the mutation buffer:
    [const v0 0; const v3 3; return-void], into which [const v1 1] and
    [const v2 2] are inserted, and
    [const v0 0; instance-of v0; move-result-pseudo v1; return-void], whose
    [instance-of] is replaced by [const v1 1]. *)
Definition const_v0 : insn_ptr := insn 1 OPCODE_CONST 0 0 [].
Definition const_v3 : insn_ptr := insn 2 OPCODE_CONST 3 3 [].
Definition return_void : insn_ptr := insn 3 OPCODE_RETURN_VOID 0 0 [].
Definition const_v1 : insn_ptr := insn 11 OPCODE_CONST 1 1 [].
Definition const_v2 : insn_ptr := insn 12 OPCODE_CONST 2 2 [].
Definition instance_of : insn_ptr := insn 4 OPCODE_INSTANCE_OF 0 100 [0].
Definition move_result_pseudo : insn_ptr :=
  insn 5 IOPCODE_MOVE_RESULT_PSEUDO 1 0 [].

Definition inserts_block : Block :=
  mkBlock 0 [MFLOW_OPCODE const_v0; MFLOW_OPCODE const_v3;
             MFLOW_OPCODE return_void] [].
Definition inserts_graph : ControlFlowGraph := mkCFG [inserts_block] 4.

Definition replace_block : Block :=
  mkBlock 0 [MFLOW_OPCODE const_v0; MFLOW_OPCODE instance_of;
             MFLOW_OPCODE move_result_pseudo; MFLOW_OPCODE return_void] [].
Definition replace_graph : ControlFlowGraph := mkCFG [replace_block] 2.

(** The program of the first five tests,
    [const v0 0; const v2 2; return-void]. *)
Definition const_v2' : insn_ptr := insn 2 OPCODE_CONST 2 2 [].
Definition basic_graph : ControlFlowGraph :=
  mkCFG [mkBlock 0 [MFLOW_OPCODE const_v0; MFLOW_OPCODE const_v2';
                    MFLOW_OPCODE return_void] []] 3.

(** The program of the test [InsertReturn],
    [const v0 0; if-eqz v0 :l1; const v1 1; return-void; :l1; const v2 2;
    return-void], in three blocks. *)
Definition insert_return_graph : ControlFlowGraph :=
  mkCFG [mkBlock 0 [MFLOW_OPCODE const_v0; MFLOW_OPCODE if_eqz]
                 [mkEdge 0 1 EDGE_GOTO; mkEdge 0 2 EDGE_BRANCH];
         mkBlock 1 [MFLOW_OPCODE (insn 6 OPCODE_CONST 1 1 []);
                    MFLOW_OPCODE (insn 7 OPCODE_RETURN_VOID 0 0 [])] [];
         mkBlock 2 [MFLOW_OPCODE (insn 8 OPCODE_CONST 2 2 []);
                    MFLOW_OPCODE (insn 9 OPCODE_RETURN_VOID 0 0 [])] []] 3.

(** [const v0 0; instance-of v0] in a block with a handler, and the
    move-result-pseudo at the head of the block behind its GOTO edge. *)
Definition across_block : Block :=
  mkBlock 0 [MFLOW_OPCODE const_v0; MFLOW_OPCODE instance_of]
          [mkEdge 0 1 EDGE_GOTO; mkEdge 0 2 EDGE_THROW].
Definition across_target : Block :=
  mkBlock 1 [MFLOW_OPCODE move_result_pseudo; MFLOW_OPCODE return_void] [].
Definition across_graph : ControlFlowGraph :=
  mkCFG [across_block; across_target;
         mkBlock 2 [MFLOW_OPCODE (insn 6 OPCODE_RETURN_VOID 0 0 [])] []] 2.

(** The body of a test: the changes are queued in order on a fresh buffer
    and flushed when the buffer goes out of scope. *)
Definition mutate (g : ControlFlowGraph)
    (l : list (CFGMutation.Insert * insn_ptr * list insn_ptr))
    : option ControlFlowGraph :=
  m ← foldM (λ m x, CFGMutation.add_change g m x.1.1 x.1.2 x.2) l ∅;
  Some (CFGMutation.flush g m).1.

End Examples.

(** ** Notions used in the statements *)

(** The instructions whose result travels through the return-value slot:
    the condition under which [update_liveness] clears the slot. *)
Definition rv_class (inst : IRInstruction) : bool :=
  is_invoke (IRInstr.opcode inst) || is_filled_new_array (IRInstr.opcode inst)
  || IRInstr.has_move_result_pseudo inst.

(** A recorded pair denotes an instruction that is no move-result-pseudo. *)
Definition recordable (pair : Block * (nat * MethodItemEntry)) : Prop :=
  ∃ insn, it_insn pair.2 = Some insn ∧
    is_move_result_pseudo (IRInstr.opcode (pointee insn)) = false.

(** The pointer [it->insn] of a recorded pair, as an address. *)
Definition call_addr (pair : Block * (nat * MethodItemEntry)) : option N :=
  addr <$> it_insn pair.2.

(** The invariant of the deletion loop: [seen] holds the pointers handed to
    [remove_insn] so far, each of them once. *)
Definition remove_inv (st : gset N * list (Block * (nat * MethodItemEntry)))
    : Prop :=
  (∀ a, a ∈ st.1 ↔ Some a ∈ map call_addr st.2) ∧
  NoDup (map call_addr st.2).

(** [a ≤ b] on bit vectors: the same size, and every bit of [a] is a bit
    of [b]. *)
Definition bs_le (a b : list bool) : Prop :=
  Forall2 (λ x y : bool, x = true → y = true) a b.

(** [σ ≤ σ']: the same blocks, and each vector only gained bits. *)
Definition liveness_le (σ σ' : gmap nat (list bool)) : Prop :=
  ∀ k, option_Forall2 bs_le (σ !! k) (σ' !! k).

(** The id identifies the block among [blocks]. *)
Definition ids_identify (blocks : list Block) : Prop :=
  ∀ b b', b ∈ blocks → b' ∈ blocks → m_id b = m_id b' → b = b'.

(** Every vector of the map has [n] bits. *)
Definition sized (n : nat) (σ : gmap nat (list bool)) : Prop :=
  ∀ k v, σ !! k = Some v → length v = n.

(** The number of bits set in the vectors of [blocks]. *)
Definition measure (blocks : list Block) (σ : gmap nat (list bool)) : nat :=
  sum_list (map (λ b, Bitset.count (default [] (σ !! m_id b))) blocks).

Section sweep_notions.
Context `{Externals} (this : LocalDce.t).

(** The bits with which [block_step] leaves the block [b] when it starts
    from the map [σ]. *)
Definition block_live_in (g : ControlFlowGraph) (b : Block)
    (σ : gmap nat (list bool)) : option (list bool) :=
  prev ← σ !! m_id b;
  out ← LocalDce.live_out σ b prev;
  fst <$> LocalDce.walk this g b (out, []).

(** Whatever the sweep computes for a block from a map above [σ] is above
    what [σ] holds for the block. *)
Definition prefixpoint (g : ControlFlowGraph) (blocks : list Block)
    (σ : gmap nat (list bool)) : Prop :=
  ∀ b σ' prev out, b ∈ blocks → liveness_le σ σ' →
    σ !! m_id b = Some prev → block_live_in g b σ' = Some out →
    bs_le prev out.

(** The maps that the loop of [dce] goes through. *)
Inductive reachable (g : ControlFlowGraph) (blocks : list Block)
    (regs : nat) : gmap nat (list bool) → Prop :=
  | reach_init : reachable g blocks regs (LocalDce.init_liveness blocks regs)
  | reach_sweep σ σ' dead :
      reachable g blocks regs σ →
      LocalDce.sweep this g blocks σ = Some (σ', dead, true) →
      reachable g blocks regs σ'.

End sweep_notions.

(** No pending change is anchored at an instruction of [es]. *)
Definition untouched (m : gmap N CFGMutation.ChangeSet)
    (es : list MethodItemEntry) : Prop :=
  ∀ a, a ∈ CFGMutation.instructions_of es → m !! addr a = None.

(** The block ends in an instruction that carries a move-result-pseudo. *)
Definition ends_in_primary (b : Block) : bool :=
  match last (m_entries b) with
  | Some (MFLOW_OPCODE q) => IRInstr.has_move_result_pseudo (pointee q)
  | _ => false
  end.

(** The block [t] is behind the GOTO edge of a block that ends in an
    instruction with a move-result-pseudo: a move-result-pseudo at the head
    of [t] belongs to that instruction. *)
Definition entered_behind_primary (g : ControlFlowGraph) (t : Block) : bool :=
  existsb (λ b, ends_in_primary b &&
                bool_decide (CFGMutation.goto_target g b = Some (m_id t)))
          (m_blocks g).

(** No block of the graph holds an orphaned move-result-pseudo. *)
Definition graph_no_orphan (g : ControlFlowGraph) : bool :=
  forallb (λ t, CFGMutation.no_orphan_from (entered_behind_primary g t)
                  (m_entries t))
          (m_blocks g).

(** ** More of [IRInstruction.h]: setters, typed accessors, gatherers *)

Module IRAccess.

(** [set_opcode(op)]. *)
Definition set_opcode (op : IROpcode) (i : IRInstruction) : IRInstruction :=
  mkIRInstruction op (m_dest i) (m_union i) (m_srcs i).

(** [set_dest(reg)]: [always_assert(has_dest())]. *)
Definition set_dest (reg : reg_t) (i : IRInstruction)
    : option IRInstruction :=
  if IRInstr.has_dest i
  then Some (mkIRInstruction (m_opcode i) reg (m_union i) (m_srcs i))
  else None.

(** [set_src(i, reg)]: [m_srcs.at(i) = reg]. *)
Definition set_src (k : nat) (reg : reg_t) (i : IRInstruction)
    : option IRInstruction :=
  if decide (k < length (m_srcs i))
  then Some (mkIRInstruction (m_opcode i) (m_dest i) (m_union i)
               (<[k := reg]> (m_srcs i)))
  else None.

(** [set_srcs_size(uint16_t count)]: [m_srcs.resize(count)].  The
    parameter has 16 bits, so a larger argument reaches the body reduced
    modulo [2 ^ 16]; the registers that [resize] adds are zero. *)
Definition set_srcs_size (count : nat) (i : IRInstruction) : IRInstruction :=
  mkIRInstruction (m_opcode i) (m_dest i) (m_union i)
    (resize (count `mod` 2 ^ 16) 0 (m_srcs i)).

(** The union read as [int64_t m_literal]: the 64-bit word in two's
    complement. *)
Definition to_int64 (w : N) : Z :=
  let z := (Z.of_N w `mod` 2 ^ 64)%Z in
  if (z <? 2 ^ 63)%Z then z else (z - 2 ^ 64)%Z.

(** An [int64_t] written into the union. *)
Definition of_int64 (v : Z) : N := Z.to_N (v `mod` 2 ^ 64)%Z.

(** [get_literal()]: [always_assert(has_literal())]. *)
Definition get_literal (i : IRInstruction) : option Z :=
  if IRInstr.has_literal i then Some (to_int64 (m_union i)) else None.

(** [set_literal(literal)]: [always_assert(has_literal())]. *)
Definition set_literal (literal : Z) (i : IRInstruction)
    : option IRInstruction :=
  if IRInstr.has_literal i
  then Some (mkIRInstruction (m_opcode i) (m_dest i) (of_int64 literal)
               (m_srcs i))
  else None.

(** The accessors of the pointer members: the getter and the setter of a
    member assert the predicate [has] of that member. *)
Definition get_pointer (has : IRInstruction → bool) (i : IRInstruction)
    : option N :=
  if has i then Some (m_union i) else None.

Definition set_pointer (has : IRInstruction → bool) (ptr : N)
    (i : IRInstruction) : option IRInstruction :=
  if has i
  then Some (mkIRInstruction (m_opcode i) (m_dest i) ptr (m_srcs i))
  else None.

Definition get_string := get_pointer IRInstr.has_string.
Definition set_string := set_pointer IRInstr.has_string.
Definition get_type := get_pointer IRInstr.has_type.
Definition set_type := set_pointer IRInstr.has_type.
Definition get_field := get_pointer IRInstr.has_field.
Definition set_field := set_pointer IRInstr.has_field.
Definition set_method := set_pointer IRInstr.has_method.
Definition get_data := get_pointer IRInstr.has_data.
Definition set_data := set_pointer IRInstr.has_data.

(** [gather_strings], [gather_fields], [gather_methods]: [push_back] of the
    member when the instruction has it. *)
Definition gather_strings (lstring : list N) (i : IRInstruction) : list N :=
  if IRInstr.has_string i then lstring ++ [m_union i] else lstring.

Definition gather_fields (lfield : list N) (i : IRInstruction) : list N :=
  if IRInstr.has_field i then lfield ++ [m_union i] else lfield.

Definition gather_methods (lmethod : list N) (i : IRInstruction) : list N :=
  if IRInstr.has_method i then lmethod ++ [m_union i] else lmethod.

End IRAccess.

(** ** Helpers of the resource tests ([ResStringPool], [ResTable]) *)

Module ResTest.

(** [make_big_string(len)]: [always_assert(len > 4)], then
    ["aa" + std::string(len - 4, 'x') + "zz"]. *)
Definition make_big_string (len : nat) : option (list ascii) :=
  if decide (4 < len)
  then Some (["a"; "a"] ++ replicate (len - 4) "x" ++ ["z"; "z"])%char
  else None.

(** The id under which test [AppendNewType] looks up a copied entry:
    [0x7f000000 | (dest_type << 16) | (old_id & 0xFFFF)], for a [uint8_t]
    type and a [uint32_t] id. *)
Definition new_id (dest_type old_id : Z) : Z :=
  Z.lor (Z.lor 0x7f000000 (Z.shiftl dest_type 16)) (Z.land old_id 0xFFFF).

End ResTest.

(** ** Further notions about the sweep *)

(** What the edge [s] of block [b] contributes to the live-out of [b]: the
    vector of its target, which for a self-loop is the vector of the previous
    sweep. *)
Definition successor_live_in (σ : gmap nat (list bool)) (b : Block)
    (prev : list bool) (s : Edge) : option (list bool) :=
  if bool_decide (m_target s = m_id b) then Some prev else σ !! m_target s.

Section removal_notions.
Context `{Externals} (this : LocalDce.t).

(** A recorded pair is sound: it designates an instruction entry of a block
    of [blocks], no move-result-pseudo, that [is_required] rejected for some
    liveness. *)
Definition dead_at (g : ControlFlowGraph) (blocks : list Block)
    (pair : Block * (nat * MethodItemEntry)) : Prop :=
  ∃ insn bl,
    pair.1 ∈ blocks ∧
    m_entries pair.1 !! pair.2.1 = Some (MFLOW_OPCODE insn) ∧
    pair.2.2 = MFLOW_OPCODE insn ∧
    is_move_result_pseudo (IRInstr.opcode (pointee insn)) = false ∧
    LocalDce.is_required this g pair.1 (pointee insn) bl = Some false.

End removal_notions.

(** ** The graphs on which [dce] finishes *)

(** Every register that [inst] names is one of the [regs] registers of the
    method. *)
Definition registers_below (regs : nat) (inst : IRInstruction) : Prop :=
  (IRInstr.has_dest inst = true → m_dest inst < regs) ∧
  ∀ s, s ∈ m_srcs inst → s < regs.

(** The block of a conditional branch has a GOTO and a BRANCH edge, the
    block of a switch has a GOTO edge: the edges [is_required] asserts. *)
Definition edges_present (g : ControlFlowGraph) (b : Block)
    (inst : IRInstruction) : Prop :=
  (is_conditional_branch (IRInstr.opcode inst) = true →
   is_Some (get_succ_edge_of_type g b EDGE_GOTO) ∧
   is_Some (get_succ_edge_of_type g b EDGE_BRANCH)) ∧
  (is_switch (IRInstr.opcode inst) = true →
   is_Some (get_succ_edge_of_type g b EDGE_GOTO)).

(** The invariants of the graph that [dce] relies on: every edge of a block
    of [blocks] leads to a block of [blocks], and every instruction names
    registers of the method and sits in a block with the edges of its
    opcode. *)
Definition well_formed (g : ControlFlowGraph) (blocks : list Block) : Prop :=
  (∀ b s, b ∈ blocks → s ∈ m_succs b → m_target s ∈ map m_id blocks) ∧
  (∀ b insn, b ∈ blocks → MFLOW_OPCODE insn ∈ m_entries b →
     registers_below (m_registers_size g) (pointee insn) ∧
     edges_present g b (pointee insn)).

(** The map has a vector of [n] bits for every block. *)
Definition covers (blocks : list Block) (n : nat)
    (σ : gmap nat (list bool)) : Prop :=
  (∀ k, k ∈ map m_id blocks → is_Some (σ !! k)) ∧ sized n σ.

(** * Theorems *)

#[local] Set Warnings "-clear-no-such-hyp".

(** ** Facts about the opcode tables *)

Lemma Ref_eqb_eq x y : Ref_eqb x y = true ↔ x = y.
Proof. destruct x, y; simpl; split; congruence. Qed.

(** C10. For every instruction at most one of [has_literal], [has_string],
    [has_type], [has_field], [has_method] and [has_data] holds: no two
    distinct positions of [operand_kinds] are both true, and so the number
    of true answers is at most one. *)
Theorem operand_kinds_exclusive (i : IRInstruction) :
  (∀ j k, j ≠ k →
     IRInstr.operand_kinds i !! j = Some true →
     IRInstr.operand_kinds i !! k = Some true → False) ∧
  length (filter (λ b : bool, b = true) (IRInstr.operand_kinds i)) ≤ 1.
Proof.
  unfold IRInstr.operand_kinds, IRInstr.has_literal, IRInstr.has_string,
    IRInstr.has_type, IRInstr.has_field, IRInstr.has_method, IRInstr.has_data.
  generalize (Opcode.ref (m_opcode i)); intros r. split.
  - intros j k Hjk Hj Hk.
    destruct r; simpl in *;
      repeat (destruct j as [|j]; simpl in Hj; try discriminate Hj);
      repeat (destruct k as [|k]; simpl in Hk; try discriminate Hk);
      congruence.
  - destruct r; simpl; lia.
Qed.

(** ** [is_required] *)

Section is_required_facts.
Context `{Externals} (this : LocalDce.t).

Lemma invoke_has_side_effects op :
  is_invoke op = true → LocalDce.has_side_effects op = true.
Proof. by destruct op. Qed.

Lemma invoke_has_method inst :
  is_invoke (IRInstr.opcode inst) = true →
  IRInstr.get_method inst = Some (m_union inst).
Proof.
  unfold IRInstr.get_method, IRInstr.has_method, IRInstr.opcode.
  by destruct (m_opcode inst).
Qed.

Lemma conditional_branch_class op :
  is_conditional_branch op = true →
  LocalDce.has_side_effects op = true ∧ is_invoke op = false.
Proof. by destruct op. Qed.

Lemma switch_class op :
  is_switch op = true →
  LocalDce.has_side_effects op = true ∧ is_invoke op = false ∧
  is_conditional_branch op = false.
Proof. by destruct op. Qed.

(** What [is_required] answers for an invoke, whatever the liveness. *)
Lemma is_required_invoke g b inst bl :
  is_invoke (IRInstr.opcode inst) = true →
  LocalDce.is_required this g b inst bl =
    match resolve_method (m_union inst) (opcode_to_search inst) with
    | None => Some true
    | Some meth =>
        if LocalDce.assumenosideeffects this (m_union inst) meth
        then Bitset.test bl (LocalDce.rv_slot bl)
        else Some true
    end.
Proof.
  intros Hinv. unfold LocalDce.is_required.
  rewrite (invoke_has_side_effects _ Hinv), Hinv, (invoke_has_method _ Hinv).
  simpl. destruct (resolve_method _ _) as [meth|]; [|done].
  by destruct (LocalDce.assumenosideeffects this (m_union inst) meth).
Qed.

(** What [is_required] answers for a conditional branch. *)
Lemma is_required_conditional_branch g b inst bl :
  is_conditional_branch (IRInstr.opcode inst) = true →
  LocalDce.is_required this g b inst bl =
    goto_edge ← get_succ_edge_of_type g b EDGE_GOTO;
    branch_edge ← get_succ_edge_of_type g b EDGE_BRANCH;
    Some (bool_decide (m_target goto_edge ≠ m_target branch_edge)).
Proof.
  intros Hcb. unfold LocalDce.is_required.
  destruct (conditional_branch_class _ Hcb) as [-> ->]. by rewrite Hcb.
Qed.

(** What [is_required] answers for a switch. *)
Lemma is_required_switch g b inst bl :
  is_switch (IRInstr.opcode inst) = true →
  LocalDce.is_required this g b inst bl =
    goto_edge ← get_succ_edge_of_type g b EDGE_GOTO;
    Some (existsb
            (λ branch_edge,
               bool_decide (m_target goto_edge ≠ m_target branch_edge))
            (get_succ_edges_of_type g b EDGE_BRANCH)).
Proof.
  intros Hsw. unfold LocalDce.is_required.
  destruct (switch_class _ Hsw) as (-> & -> & ->). by rewrite Hsw.
Qed.

End is_required_facts.

Section is_required_claims.
Context `{Externals} (this : LocalDce.t).

(** C2. For a switch in a block whose GOTO (default) edge is [goto_edge],
    [is_required] answers, and answers true if and only if some BRANCH
    (case) edge of the block leads to another block than [goto_edge]; with
    no BRANCH edge at all it answers false. *)
Theorem is_required_switch_iff g b inst bl goto_edge :
  is_switch (IRInstr.opcode inst) = true →
  get_succ_edge_of_type g b EDGE_GOTO = Some goto_edge →
  ∃ r, LocalDce.is_required this g b inst bl = Some r ∧
    (r = true ↔
       ∃ branch_edge, branch_edge ∈ m_succs b ∧
         m_type branch_edge = EDGE_BRANCH ∧
         m_target branch_edge ≠ m_target goto_edge) ∧
    (get_succ_edges_of_type g b EDGE_BRANCH = [] → r = false).
Proof.
  intros Hsw Hgoto. rewrite (is_required_switch this g b inst bl Hsw), Hgoto.
  simpl. eexists; split; [reflexivity|]. split.
  - rewrite existsb_exists. unfold get_succ_edges_of_type. split.
    + intros (e & He & Hne). apply list_elem_of_In, list_elem_of_filter in He.
      apply bool_decide_eq_true in Hne. destruct He. eauto.
    + intros (e & He & Hty & Hne). exists e. split.
      * apply list_elem_of_In, list_elem_of_filter. done.
      * apply bool_decide_eq_true. congruence.
  - by intros ->.
Qed.

(** C3. For an invoke whose method resolves to a method that the purity
    oracle accepts (the built-in [::assumenosideeffects], or the reference
    being in the caller-supplied set), [is_required] is the test of the
    return-value slot, the highest position of the liveness vector; for any
    other invoke it answers true. *)
Theorem is_required_invoke_pure g b inst bl :
  is_invoke (IRInstr.opcode inst) = true →
  let ref := m_union inst in
  let pure :=
    ∃ meth, resolve_method ref (opcode_to_search inst) = Some meth ∧
      (assumenosideeffects meth = true ∨
       ref ∈ LocalDce.m_pure_methods this) in
  (pure →
     LocalDce.is_required this g b inst bl =
       Bitset.test bl (Bitset.size bl - 1) ∧
     (LocalDce.is_required this g b inst bl = Some true ↔
        bl !! (length bl - 1) = Some true)) ∧
  (¬ pure → LocalDce.is_required this g b inst bl = Some true).
Proof.
  intros Hinv ref pure. rewrite (is_required_invoke this g b inst bl Hinv).
  unfold LocalDce.assumenosideeffects, LocalDce.rv_slot, Bitset.test,
    Bitset.size. subst ref pure. split.
  - intros (meth & Hres & Hpure). rewrite Hres.
    destruct Hpure as [Hg | Hin].
    + by rewrite Hg.
    + destruct (assumenosideeffects meth); [done|].
      by rewrite bool_decide_eq_true_2.
  - intros Hnot. destruct (resolve_method _ _) as [meth|] eqn:Hres; [|done].
    destruct (assumenosideeffects meth) eqn:Hglobal.
    + destruct Hnot. exists meth. auto.
    + case_bool_decide as Hin; [|done]. destruct Hnot. exists meth. auto.
Qed.

(** C9. An invoke whose method reference does not resolve is required,
    whatever the caller-supplied set of pure methods holds: the set is only
    consulted once the method is resolved. *)
Theorem is_required_invoke_unresolved g b inst bl :
  is_invoke (IRInstr.opcode inst) = true →
  resolve_method (m_union inst) (opcode_to_search inst) = None →
  IRInstr.get_method inst = Some (m_union inst) ∧
  LocalDce.is_required this g b inst bl = Some true.
Proof.
  intros Hinv Hres. split; [by apply invoke_has_method|].
  by rewrite (is_required_invoke this g b inst bl Hinv), Hres.
Qed.

End is_required_claims.

(** The switch of [Examples.switch_block] has a case that leaves for block 2
    while the default leaves for block 1. *)
Lemma is_required_switch_iff_witness :
  ∃ r, LocalDce.is_required (H := Examples.ext) Examples.pass
         Examples.switch_graph Examples.switch_block
         (mkIRInstruction OPCODE_SWITCH 0 0 [0]) [false; false] = Some r ∧
    (r = true ↔
       ∃ branch_edge, branch_edge ∈ m_succs Examples.switch_block ∧
         m_type branch_edge = EDGE_BRANCH ∧
         m_target branch_edge ≠ m_target (mkEdge 0 1 EDGE_GOTO)) ∧
    (get_succ_edges_of_type Examples.switch_graph Examples.switch_block
       EDGE_BRANCH = [] → r = false).
Proof.
  apply (is_required_switch_iff (H := Examples.ext)); reflexivity.
Defined.

(** The invoke of method 2, which the caller declared pure, with a dead and
    with a live return-value slot. *)
Lemma is_required_invoke_pure_witness :
  LocalDce.is_required (H := Examples.ext) Examples.pass
    Examples.return_void_graph Examples.return_void_block
    (Examples.invoke_static 2) [false; false] = Some false ∧
  LocalDce.is_required (H := Examples.ext) Examples.pass
    Examples.return_void_graph Examples.return_void_block
    (Examples.invoke_static 2) [false; true] = Some true ∧
  LocalDce.is_required (H := Examples.ext) Examples.pass
    Examples.return_void_graph Examples.return_void_block
    (Examples.invoke_static 3) [false; false] = Some true.
Proof.
  assert (Hpure : ∃ meth,
    resolve_method (Externals := Examples.ext) 2%N tt = Some meth ∧
    (assumenosideeffects (Externals := Examples.ext) meth = true ∨
     2%N ∈ LocalDce.m_pure_methods Examples.pass)).
  { exists 2%N. split; [reflexivity|]. right. vm_compute. set_solver. }
  assert (Himpure : ¬ ∃ meth,
    resolve_method (Externals := Examples.ext) 3%N tt = Some meth ∧
    (assumenosideeffects (Externals := Examples.ext) meth = true ∨
     3%N ∈ LocalDce.m_pure_methods Examples.pass)).
  { intros (meth & Hres & [Hg | Hin]).
    - vm_compute in Hres. injection Hres as <-. discriminate Hg.
    - revert Hin. vm_compute. set_solver. }
  pose proof (is_required_invoke_pure (H := Examples.ext) Examples.pass
    Examples.return_void_graph Examples.return_void_block) as Hclaim.
  split; [|split].
  - destruct (Hclaim (Examples.invoke_static 2) [false; false] eq_refl)
      as [Hp _].
    destruct (Hp Hpure) as [-> _]. reflexivity.
  - destruct (Hclaim (Examples.invoke_static 2) [false; true] eq_refl)
      as [Hp _].
    destruct (Hp Hpure) as [-> _]. reflexivity.
  - destruct (Hclaim (Examples.invoke_static 3) [false; false] eq_refl)
      as [_ Hn].
    exact (Hn Himpure).
Defined.

(** Method reference 7 is in the caller's set of pure methods and does not
    resolve: the invoke is required although its result is dead. *)
Lemma is_required_invoke_unresolved_witness :
  7%N ∈ LocalDce.m_pure_methods Examples.pass ∧
  IRInstr.get_method (Examples.invoke_static 7) = Some 7%N ∧
  LocalDce.is_required (H := Examples.ext) Examples.pass
    Examples.return_void_graph Examples.return_void_block
    (Examples.invoke_static 7) [false; false] = Some true.
Proof.
  split; [vm_compute; set_solver|].
  apply (is_required_invoke_unresolved (H := Examples.ext)); reflexivity.
Defined.

(** ** Bit vectors and [update_liveness] *)

Lemma set_Some bs pos bs' :
  Bitset.set bs pos = Some bs' ↔ pos < length bs ∧ bs' = <[pos := true]> bs.
Proof. unfold Bitset.set. destruct (decide _); naive_solver. Qed.

Lemma reset_Some bs pos bs' :
  Bitset.reset bs pos = Some bs' ↔
  pos < length bs ∧ bs' = <[pos := false]> bs.
Proof. unfold Bitset.reset. destruct (decide _); naive_solver. Qed.

Lemma foldM_set_lookup srcs : ∀ bs,
  (∀ s, s ∈ srcs → s < length bs) →
  ∃ bs', foldM Bitset.set srcs bs = Some bs' ∧ length bs' = length bs ∧
    ∀ p, bs' !! p = if bool_decide (p ∈ srcs) then
                      (if decide (p < length bs) then Some true else None)
                    else bs !! p.
Proof.
  induction srcs as [|s srcs IH]; intros bs Hin; cbn [foldM mbind option_bind].
  - exists bs. split_and!; [done..|]. intros p. case_bool_decide; set_solver.
  - assert (s < length bs) as Hs by (apply Hin; set_solver).
    assert (Bitset.set bs s = Some (<[s:=true]> bs)) as ->
      by (by apply set_Some).
    cbn [mbind option_bind].
    destruct (IH (<[s:=true]> bs)) as (bs' & -> & Hlen & Hlk).
    { intros s' Hs'. rewrite length_insert. apply Hin. set_solver. }
    rewrite length_insert in Hlen. exists bs'. split_and!; [done..|].
    intros p. rewrite Hlk, length_insert.
    destruct (decide (p = s)) as [->|Hne].
    + rewrite (bool_decide_eq_true_2 (s ∈ s :: srcs)) by set_solver.
      rewrite decide_True by done. case_bool_decide; [done|].
      by rewrite list_lookup_insert_eq.
    + rewrite list_lookup_insert_ne by done.
      repeat case_bool_decide; set_solver.
Qed.

Lemma update_liveness_lookup inst bl :
  0 < length bl →
  (IRInstr.has_dest inst = true → m_dest inst < length bl) →
  (∀ s, s ∈ m_srcs inst → s < length bl) →
  ∃ bl', LocalDce.update_liveness inst bl = Some bl' ∧
    length bl' = length bl ∧
    ∀ p, bl' !! p =
      if is_move_result_any (IRInstr.opcode inst) &&
         bool_decide (p = LocalDce.rv_slot bl) then Some true
      else if bool_decide (p ∈ m_srcs inst) then Some true
      else if rv_class inst && bool_decide (p = LocalDce.rv_slot bl)
           then Some false
      else if IRInstr.has_dest inst && bool_decide (p = m_dest inst)
           then Some false
      else bl !! p.
Proof.
  intros Hlen Hdest Hsrcs. unfold LocalDce.update_liveness.
  fold (rv_class inst).
  set (bl1 := if IRInstr.has_dest inst then <[m_dest inst := false]> bl
              else bl).
  assert ((if IRInstr.has_dest inst
           then IRInstr.dest inst ≫= λ d, Bitset.reset bl d
           else Some bl) = Some bl1) as ->.
  { subst bl1. unfold IRInstr.dest.
    destruct (IRInstr.has_dest inst); [|done]. simpl.
    apply reset_Some. auto. }
  assert (length bl1 = length bl) as Hlen1.
  { subst bl1. destruct (IRInstr.has_dest inst); by rewrite ?length_insert. }
  cbn [mbind option_bind].
  assert (LocalDce.rv_slot bl1 = LocalDce.rv_slot bl) as Hrv1
    by (unfold LocalDce.rv_slot, Bitset.size; congruence).
  assert (LocalDce.rv_slot bl < length bl) as Hrv
    by (unfold LocalDce.rv_slot, Bitset.size; lia).
  set (bl2 := if rv_class inst then <[LocalDce.rv_slot bl := false]> bl1
              else bl1).
  assert ((if rv_class inst then Bitset.reset bl1 (LocalDce.rv_slot bl1)
           else Some bl1) = Some bl2) as ->.
  { subst bl2. destruct (rv_class inst); [|done]. rewrite Hrv1.
    apply reset_Some. split; [lia|done]. }
  assert (length bl2 = length bl) as Hlen2.
  { subst bl2. destruct (rv_class inst); by rewrite ?length_insert. }
  cbn [mbind option_bind].
  destruct (foldM_set_lookup (m_srcs inst) bl2) as (bl3 & -> & Hlen3 & Hlk3).
  { intros s Hs. rewrite Hlen2. auto. }
  cbn [mbind option_bind].
  assert (LocalDce.rv_slot bl3 = LocalDce.rv_slot bl) as Hrv3
    by (unfold LocalDce.rv_slot, Bitset.size; congruence).
  set (bl4 := if is_move_result_any (IRInstr.opcode inst)
              then <[LocalDce.rv_slot bl := true]> bl3 else bl3).
  exists bl4. split_and!.
  - subst bl4. destruct (is_move_result_any _); [|done]. rewrite Hrv3.
    apply set_Some. split; [lia|done].
  - subst bl4. destruct (is_move_result_any _); rewrite ?length_insert; lia.
  - intros p.
    assert (bl3 !! p =
      if bool_decide (p ∈ m_srcs inst) then Some true
      else if rv_class inst && bool_decide (p = LocalDce.rv_slot bl)
           then Some false
      else if IRInstr.has_dest inst && bool_decide (p = m_dest inst)
           then Some false
      else bl !! p) as Hp3.
    { rewrite Hlk3. destruct (bool_decide (p ∈ m_srcs inst)) eqn:Hin.
      - apply bool_decide_eq_true in Hin. rewrite decide_True; [done|].
        rewrite Hlen2. auto.
      - subst bl2 bl1.
        destruct (rv_class inst), (IRInstr.has_dest inst); simpl;
          repeat case_bool_decide; subst;
          rewrite ?list_lookup_insert_eq, ?list_lookup_insert_ne
            by (rewrite ?length_insert; auto; lia);
          rewrite ?list_lookup_insert_eq, ?list_lookup_insert_ne
            by (rewrite ?length_insert; auto; lia); try done. }
    subst bl4. destruct (is_move_result_any _); cbn [andb]; [|done].
    destruct (decide (p = LocalDce.rv_slot bl)) as [->|Hp].
    + rewrite bool_decide_eq_true_2 by done.
      by rewrite list_lookup_insert_eq by lia.
    + rewrite list_lookup_insert_ne, Hp3 by done.
      by rewrite !(bool_decide_eq_false_2 (p = LocalDce.rv_slot bl)) by done.
Qed.

(** ** Loops that may fail *)

Lemma foldM_app {A B} (f : B → A → option B) l1 l2 b :
  foldM f (l1 ++ l2) b = foldM f l1 b ≫= foldM f l2.
Proof.
  revert b. induction l1 as [|x l1 IH]; intros b; simpl; [done|].
  destruct (f b x); simpl; auto.
Qed.

Lemma foldM_cons_Some {A B} (f : B → A → option B) x l b b' :
  foldM f (x :: l) b = Some b' ↔
  ∃ b1, f b x = Some b1 ∧ foldM f l b1 = Some b'.
Proof.
  simpl. destruct (f b x) as [b1|]; simpl.
  - split; [eauto|]. by intros (? & [= <-] & ?).
  - split; [done|]. by intros (? & ? & ?).
Qed.

(** An invariant of the loop body is an invariant of the loop. *)
Lemma foldM_invariant {A B} (f : B → A → option B) (P : B → Prop) l :
  (∀ b x b', x ∈ l → f b x = Some b' → P b → P b') →
  ∀ b b', foldM f l b = Some b' → P b → P b'.
Proof.
  induction l as [|x l IH]; intros Hstep b b' Hrun Hb; simpl in Hrun.
  - by simplify_eq.
  - destruct (f b x) as [b1|] eqn:Hfx; [|done]. simpl in Hrun.
    eapply IH; [|done|].
    + intros b0 y b0' Hy Hf Hb0. eapply Hstep; [|done..]. set_solver.
    + eapply Hstep; [|done..]. set_solver.
Qed.

(** What one turn establishes and no turn destroys holds after the loop. *)
Lemma foldM_established {A B} (f : B → A → option B) (P : B → Prop) l x :
  x ∈ l →
  (∀ b b', f b x = Some b' → P b') →
  (∀ b y b', f b y = Some b' → P b → P b') →
  ∀ b b', foldM f l b = Some b' → P b'.
Proof.
  intros Hx Hest Hkeep. induction l as [|y l IH]; intros b b' Hrun.
  - by apply elem_of_nil in Hx.
  - simpl in Hrun. destruct (f b y) as [b1|] eqn:Hfy; [|done].
    simpl in Hrun. apply elem_of_cons in Hx as [->|Hx].
    + eapply (foldM_invariant f P l); [|done|by eapply Hest].
      intros. by eapply Hkeep.
    + by eapply IH.
Qed.

Section dead.
Context `{Externals} (this : LocalDce.t).

Lemma walk_step_dead g b bl dead it bl' dead' :
  LocalDce.walk_step this g b (bl, dead) it = Some (bl', dead') →
  dead' = dead ∨
  dead' = dead ++ [(b, it)] ∧ recordable (b, it) ∧
    ∃ insn, it.2 = MFLOW_OPCODE insn ∧
      LocalDce.is_required this g b (pointee insn) bl = Some false.
Proof.
  unfold LocalDce.walk_step, recordable, it_insn. intros Hstep.
  destruct it as [k e]. simpl in *.
  destruct e as [insn| | | | | |]; try (left; congruence).
  destruct (LocalDce.is_required this g b (pointee insn) bl)
    as [[]|] eqn:Hreq; simpl in Hstep; [| |done].
  - destruct (LocalDce.update_liveness _ _); simpl in Hstep; [|done].
    left. congruence.
  - destruct (is_move_result_pseudo _) eqn:Hmrp; simpl in Hstep.
    + left. congruence.
    + right. split; [congruence|]. split; eauto.
Qed.

(** The dead list only grows, by recordable pairs of the block at hand. *)
Lemma walk_dead g b its : ∀ bl dead bl' dead',
  foldM (LocalDce.walk_step this g b) its (bl, dead) = Some (bl', dead') →
  ∃ new, dead' = dead ++ new ∧ Forall recordable new.
Proof.
  induction its as [|it its IH]; intros bl dead bl' dead' Hrun.
  - exists []. simpl in Hrun. simplify_eq. by rewrite app_nil_r.
  - apply foldM_cons_Some in Hrun as ([bl1 dead1] & Hstep & Hrun).
    apply IH in Hrun as (new & -> & Hnew).
    apply walk_step_dead in Hstep as [->|(-> & Hrec & _)].
    + by exists new.
    + exists ((b, it) :: new). split; [by rewrite <-app_assoc|].
      by constructor.
Qed.

Lemma block_step_dead g σ dead c b σ' dead' c' :
  LocalDce.block_step this g (σ, dead, c) b = Some (σ', dead', c') →
  ∃ new, dead' = dead ++ new ∧ Forall recordable new.
Proof.
  unfold LocalDce.block_step. intros Hstep.
  destruct (σ !! m_id b) as [prev|]; [|done]. simpl in Hstep.
  destruct (LocalDce.live_out σ b prev) as [out|]; [|done]. simpl in Hstep.
  destruct (LocalDce.walk this g b (out, dead)) as [[bl1 dead1]|] eqn:Hwalk;
    [|done]. simpl in Hstep. simplify_eq.
  by eapply walk_dead.
Qed.

Lemma sweep_blocks_dead g blocks : ∀ σ dead c σ' dead' c',
  foldM (LocalDce.block_step this g) blocks (σ, dead, c) =
    Some (σ', dead', c') →
  ∃ new, dead' = dead ++ new ∧ Forall recordable new.
Proof.
  induction blocks as [|b blocks IH]; intros σ dead c σ' dead' c' Hrun.
  - exists []. simpl in Hrun. simplify_eq. by rewrite app_nil_r.
  - apply foldM_cons_Some in Hrun as ([[σ1 dead1] c1] & Hstep & Hrun).
    apply block_step_dead in Hstep as (new1 & -> & Hnew1).
    apply IH in Hrun as (new2 & -> & Hnew2).
    exists (new1 ++ new2). split; [by rewrite app_assoc|].
    by apply Forall_app.
Qed.

Lemma sweep_dead_recordable g blocks σ σ' dead c :
  LocalDce.sweep this g blocks σ = Some (σ', dead, c) →
  Forall recordable dead.
Proof.
  intros Hrun. apply sweep_blocks_dead in Hrun as (new & -> & Hnew). done.
Qed.


Lemma elem_of_rentries b k e :
  (k, e) ∈ rentries b ↔ m_entries b !! k = Some e.
Proof.
  unfold rentries. rewrite elem_of_reverse, elem_of_lookup_imap. split.
  - intros (i & y & [= -> ->] & Hlk). done.
  - intros Hlk. eauto.
Qed.

(** An instruction that is not required whatever the liveness, and is no
    move-result-pseudo, is recorded by the walk through its block. *)
Lemma walk_records g b k insn st st' :
  m_entries b !! k = Some (MFLOW_OPCODE insn) →
  (∀ bl, LocalDce.is_required this g b (pointee insn) bl = Some false) →
  is_move_result_pseudo (IRInstr.opcode (pointee insn)) = false →
  LocalDce.walk this g b st = Some st' →
  (b, (k, MFLOW_OPCODE insn)) ∈ st'.2.
Proof.
  intros Hlk Hreq Hmrp. unfold LocalDce.walk.
  apply (foldM_established _ (λ st, (b, (k, MFLOW_OPCODE insn)) ∈ st.2) _
           (k, MFLOW_OPCODE insn)).
  - by apply elem_of_rentries.
  - intros [bl dead] st1. unfold LocalDce.walk_step. simpl.
    rewrite Hreq, Hmrp. simpl. intros [= <-]. simpl. set_solver.
  - intros [bl dead] it [bl1 dead1] Hstep Hin. simpl in *.
    apply walk_step_dead in Hstep as [->|(-> & _)]; set_solver.
Qed.

Lemma sweep_records g blocks σ σ' dead c b k insn :
  b ∈ blocks →
  m_entries b !! k = Some (MFLOW_OPCODE insn) →
  (∀ bl, LocalDce.is_required this g b (pointee insn) bl = Some false) →
  is_move_result_pseudo (IRInstr.opcode (pointee insn)) = false →
  LocalDce.sweep this g blocks σ = Some (σ', dead, c) →
  (b, (k, MFLOW_OPCODE insn)) ∈ dead.
Proof.
  intros Hb Hlk Hreq Hmrp Hrun. unfold LocalDce.sweep in Hrun.
  refine (foldM_established (LocalDce.block_step this g)
           (λ st, (b, (k, MFLOW_OPCODE insn)) ∈ snd (fst st)) blocks b Hb
           _ _ _ _ Hrun).
  - intros [[σ1 dead1] c1] [[σ2 dead2] c2]. unfold LocalDce.block_step.
    intros Hstep. simpl.
    destruct (σ1 !! m_id b) as [prev|]; [|done]. simpl in Hstep.
    destruct (LocalDce.live_out σ1 b prev) as [out|]; [|done].
    simpl in Hstep.
    destruct (LocalDce.walk this g b (out, dead1)) as [[bl3 dead3]|]
      eqn:Hwalk; [|done].
    simpl in Hstep. simplify_eq.
    by apply (walk_records _ _ _ _ _ _ Hlk Hreq Hmrp Hwalk).
  - intros [[σ1 dead1] c1] b' [[σ2 dead2] c2] Hstep Hin. simpl in *.
    apply block_step_dead in Hstep as (new & -> & _). set_solver.
Qed.

(** A stable outcome is the outcome of a sweep that changed nothing. *)
Lemma fixed_point_stable g blocks fuel : ∀ σ n σ' dead m,
  LocalDce.fixed_point this fuel g blocks σ n = LocalDce.Stable σ' dead m →
  ∃ σ0, LocalDce.sweep this g blocks σ0 = Some (σ', dead, false).
Proof.
  induction fuel as [|fuel IH]; intros σ n σ' dead m Hrun; simpl in Hrun;
    [done|].
  destruct (LocalDce.sweep this g blocks σ) as [[[σ1 dead1] []]|] eqn:Hsweep;
    [| |done].
  - by eapply IH.
  - exists σ. by simplify_eq.
Qed.

End dead.

(** ** The deletion phase *)

Lemma remove_loop dead : ∀ seen removed,
  remove_inv (seen, removed) →
  Forall (λ pair, is_Some (it_insn pair.2)) dead →
  ∃ seen' new,
    foldM LocalDce.remove_step dead (seen, removed) =
      Some (seen', removed ++ new) ∧
    remove_inv (seen', removed ++ new) ∧
    sublist new dead ∧
    ∀ pair, pair ∈ dead →
      call_addr pair ∈ map call_addr (removed ++ new).
Proof.
  induction dead as [|pair dead IH]; intros seen removed Hinv Hall.
  - exists seen, []. rewrite app_nil_r. split_and!; [done..|set_solver].
  - apply Forall_cons in Hall as [[insn Hinsn] Hall].
    assert (call_addr pair = Some (addr insn)) as Hca
      by (unfold call_addr; by rewrite Hinsn).
    destruct Hinv as [Hseen Hnodup]. simpl in Hseen, Hnodup.
    assert (LocalDce.remove_step (seen, removed) pair =
            Some (if bool_decide (addr insn ∈ seen) then (seen, removed)
                  else ({[addr insn]} ∪ seen, removed ++ [pair]))) as Hstep.
    { unfold LocalDce.remove_step. rewrite Hinsn. simpl.
      by destruct (bool_decide _). }
    cbn [foldM]. rewrite Hstep. cbn [mbind option_bind].
    destruct (bool_decide (addr insn ∈ seen)) eqn:Hdec;
      [apply bool_decide_eq_true in Hdec as Hin
      |apply bool_decide_eq_false in Hdec as Hin].
    + destruct (IH seen removed) as (seen' & new & -> & Hinv' & Hsub & Hall');
        [done..|].
      exists seen', new. split_and!; [done..| |].
      * by apply sublist_cons.
      * intros p [->|Hp]%elem_of_cons; [|by auto].
        rewrite Hca, map_app. apply elem_of_app. left. by apply Hseen.
    + destruct (IH ({[addr insn]} ∪ seen) (removed ++ [pair]))
        as (seen' & new & Hrun & Hinv' & Hsub & Hall'); [|done|].
      { split; simpl.
        - intros a. rewrite map_app, elem_of_app, elem_of_union,
            elem_of_singleton, Hseen. simpl. rewrite Hca. set_solver.
        - rewrite map_app. simpl. rewrite Hca. apply NoDup_app.
          split_and!; [done| |apply NoDup_singleton].
          intros x Hx Hx'. apply list_elem_of_singleton in Hx' as ->.
          by apply Hin, Hseen. }
      rewrite <-app_assoc in Hrun, Hinv', Hall'. simpl in *.
      exists seen', (pair :: new). split_and!; [done..| |].
      * by apply sublist_skip.
      * intros p [->|Hp]%elem_of_cons; [|by auto].
        rewrite Hca, map_app. apply elem_of_app. right. simpl. rewrite Hca.
        set_solver.
Qed.

(** Every recorded instruction is handed to [remove_insn], and no
    instruction is handed over twice. *)
Lemma remove_dead_once dead :
  Forall (λ pair, is_Some (it_insn pair.2)) dead →
  ∃ calls, LocalDce.remove_dead dead = Some calls ∧
    NoDup (map call_addr calls) ∧ sublist calls dead ∧
    ∀ pair, pair ∈ dead → call_addr pair ∈ map call_addr calls.
Proof.
  intros Hall.
  destruct (remove_loop dead ∅ []) as (seen & new & Hrun & Hinv & ?);
    [|done|].
  { split; simpl; [set_solver|constructor]. }
  simpl in *. exists new. unfold LocalDce.remove_dead. rewrite Hrun.
  destruct Hinv. done.
Qed.

(** ** The claims about the sweep *)

Lemma rv_class_not_move_result inst :
  rv_class inst = true → is_move_result_any (IRInstr.opcode inst) = false.
Proof.
  unfold rv_class, IRInstr.has_move_result_pseudo, IRInstr.opcode.
  by destruct (m_opcode inst).
Qed.

(** C5. [update_liveness] on a vector with a return-value slot, for an
    instruction whose registers lie below that slot (as every instruction
    that the sweep finds required and hands over does): afterwards the bit
    of the destination register is clear unless the register is also a
    source, the bit of every source register is set, the return-value slot
    is clear for an invoke, a filled-new-array and an instruction with a
    move-result-pseudo, and set for a move-result(-pseudo); every other bit
    is as before. *)
Theorem update_liveness_effect inst bl :
  0 < length bl →
  (IRInstr.has_dest inst = true → m_dest inst < LocalDce.rv_slot bl) →
  (∀ s, s ∈ m_srcs inst → s < LocalDce.rv_slot bl) →
  ∃ bl', LocalDce.update_liveness inst bl = Some bl' ∧
    length bl' = length bl ∧
    (IRInstr.has_dest inst = true →
       bl' !! m_dest inst =
         Some (bool_decide (m_dest inst ∈ m_srcs inst))) ∧
    (∀ s, s ∈ m_srcs inst → bl' !! s = Some true) ∧
    (is_invoke (IRInstr.opcode inst) ||
     is_filled_new_array (IRInstr.opcode inst) ||
     IRInstr.has_move_result_pseudo inst = true →
       bl' !! LocalDce.rv_slot bl = Some false) ∧
    (is_move_result_any (IRInstr.opcode inst) = true →
       bl' !! LocalDce.rv_slot bl = Some true) ∧
    (∀ p, p ≠ LocalDce.rv_slot bl →
       (IRInstr.has_dest inst = true → p ≠ m_dest inst) →
       p ∉ m_srcs inst → bl' !! p = bl !! p).
Proof.
  intros Hlen Hdest Hsrcs.
  assert (LocalDce.rv_slot bl < length bl) as Hrv
    by (unfold LocalDce.rv_slot, Bitset.size; lia).
  destruct (update_liveness_lookup inst bl) as (bl' & Hrun & Hlen' & Hlk);
    [done| |  |].
  { intros Hd. specialize (Hdest Hd). lia. }
  { intros s Hs. specialize (Hsrcs s Hs). lia. }
  assert (LocalDce.rv_slot bl ∉ m_srcs inst) as Hrvsrc.
  { intros Hin. specialize (Hsrcs _ Hin). lia. }
  exists bl'. split_and!; [done..| | | | |].
  - intros Hd. specialize (Hdest Hd). rewrite Hlk, Hd.
    rewrite (bool_decide_eq_false_2 (m_dest inst = LocalDce.rv_slot bl))
      by lia.
    rewrite (bool_decide_eq_true_2 (m_dest inst = m_dest inst)) by done.
    rewrite andb_false_r. cbn [andb].
    destruct (bool_decide (m_dest inst ∈ m_srcs inst)); [done|].
    by destruct (rv_class inst).
  - intros s Hs. rewrite Hlk, (bool_decide_eq_true_2 _ Hs).
    by destruct (_ && _).
  - intros Hclass. fold (rv_class inst) in Hclass.
    rewrite Hlk, (rv_class_not_move_result _ Hclass), Hclass.
    rewrite (bool_decide_eq_false_2 _ Hrvsrc).
    by rewrite bool_decide_eq_true_2.
  - intros Hmr. rewrite Hlk, Hmr. by rewrite bool_decide_eq_true_2.
  - intros p Hprv Hpd Hps. rewrite Hlk.
    rewrite (bool_decide_eq_false_2 _ Hprv), (bool_decide_eq_false_2 _ Hps).
    rewrite !andb_false_r.
    destruct (IRInstr.has_dest inst); [|done].
    by rewrite bool_decide_eq_false_2 by auto.
Qed.

(** [add-int v0, v0, v1] with only [v2] live: [v0], both destination and
    source, ends up live, and so does [v1]. *)
Lemma update_liveness_effect_witness :
  ∃ bl', LocalDce.update_liveness
           (mkIRInstruction OPCODE_ADD_INT 0 0 [0; 1])
           [false; false; true; false] = Some bl' ∧
    bl' = [true; true; true; false].
Proof.
  destruct (update_liveness_effect
              (mkIRInstruction OPCODE_ADD_INT 0 0 [0; 1])
              [false; false; true; false])
    as (bl' & Hrun & _); [simpl; lia| intros _; vm_compute; lia | |].
  { intros s Hs. vm_compute.
    apply elem_of_cons in Hs as [->|Hs]; [lia|].
    apply list_elem_of_singleton in Hs as ->. lia. }
  exists bl'. split; [done|]. vm_compute in Hrun. congruence.
Defined.

Section sweep_claims.
Context `{Externals} (this : LocalDce.t).

(** C6. In a sweep, every pair recorded as dead denotes an instruction that
    is no move-result-pseudo; and the deletion loop run on the recorded
    list hands each of its instructions to [remove_insn], none of them more
    than once, however often the instruction is recorded. *)
Theorem dead_instructions_removed_once g blocks σ σ' dead changed :
  LocalDce.sweep this g blocks σ = Some (σ', dead, changed) →
  (∀ pair, pair ∈ dead →
     ∃ insn, it_insn pair.2 = Some insn ∧
       is_move_result_pseudo (IRInstr.opcode (pointee insn)) = false) ∧
  ∃ calls, LocalDce.remove_dead dead = Some calls ∧
    NoDup (map call_addr calls) ∧
    sublist calls dead ∧
    ∀ pair, pair ∈ dead → call_addr pair ∈ map call_addr calls.
Proof.
  intros Hsweep. apply sweep_dead_recordable in Hsweep.
  split.
  - intros pair Hin. by apply (proj1 (Forall_forall _ _) Hsweep).
  - apply remove_dead_once. eapply Forall_impl; [done|].
    intros pair (insn & -> & _). eauto.
Qed.

End sweep_claims.

(** The instruction linked twice in [Examples.aliased_graph] is recorded
    twice by the sweep and handed to [remove_insn] once. *)
Lemma dead_instructions_removed_once_witness :
  ∃ σ' dead changed calls,
    LocalDce.sweep (H := Examples.ext) Examples.pass Examples.aliased_graph
      (m_blocks Examples.aliased_graph)
      (LocalDce.init_liveness (m_blocks Examples.aliased_graph) 1) =
      Some (σ', dead, changed) ∧
    map call_addr dead = [Some 1%N; Some 1%N] ∧
    LocalDce.remove_dead dead = Some calls ∧
    map call_addr calls = [Some 1%N] ∧
    NoDup (map call_addr calls).
Proof.
  destruct (LocalDce.sweep (H := Examples.ext) Examples.pass
              Examples.aliased_graph (m_blocks Examples.aliased_graph)
              (LocalDce.init_liveness (m_blocks Examples.aliased_graph) 1))
    as [[[σ' dead] changed]|] eqn:Hsweep;
    [|vm_compute in Hsweep; discriminate Hsweep].
  destruct (dead_instructions_removed_once (H := Examples.ext) Examples.pass
              _ _ _ _ _ _ Hsweep) as (_ & calls & Hrem & Hnd & _ & _).
  exists σ', dead, changed, calls.
  vm_compute in Hsweep. injection Hsweep as <- <- <-.
  split_and!; [reflexivity|reflexivity|exact Hrem| |exact Hnd].
  vm_compute in Hrem. injection Hrem as <-. reflexivity.
Defined.

(** ** The order on bit vectors *)

Lemma bs_le_refl a : bs_le a a.
Proof. apply Forall2_same_length_lookup_2; [done|]. by intros; simplify_eq. Qed.

Lemma bs_le_trans a b c : bs_le a b → bs_le b c → bs_le a c.
Proof.
  unfold bs_le. intros Hab Hbc. revert c Hbc.
  induction Hab; intros c Hbc; inversion Hbc; subst; constructor; auto.
Qed.

Lemma bs_le_length a b : bs_le a b → length a = length b.
Proof. apply Forall2_length. Qed.

Lemma bs_le_lookup a b p :
  bs_le a b → a !! p = Some true → b !! p = Some true.
Proof.
  intros Hle Ha. destruct (Forall2_lookup_l _ _ _ _ _ Hle Ha) as (y & -> & Hy).
  by rewrite Hy.
Qed.

Lemma bs_le_zero n b : length b = n → bs_le (replicate n false) b.
Proof.
  intros <-. apply Forall2_same_length_lookup_2; [by rewrite length_replicate|].
  intros i x y [-> _]%lookup_replicate _. done.
Qed.

Lemma count_le_length a : Bitset.count a ≤ length a.
Proof. unfold Bitset.count. apply length_filter. Qed.

Lemma count_cons x a :
  Bitset.count (x :: a) = (if x then 1 else 0) + Bitset.count a.
Proof. unfold Bitset.count. rewrite filter_cons. by destruct x. Qed.

Lemma bs_le_count a b : bs_le a b → Bitset.count a ≤ Bitset.count b.
Proof.
  induction 1 as [|x y a b Hxy _ IH]; [done|]. rewrite !count_cons.
  destruct x, y; try lia; by specialize (Hxy eq_refl).
Qed.

Lemma bs_le_count_lt a b :
  bs_le a b → a ≠ b → Bitset.count a < Bitset.count b.
Proof.
  induction 1 as [|x y a b Hxy Hab IH]; [done|]. intros Hne.
  rewrite !count_cons. pose proof (bs_le_count _ _ Hab) as Hle.
  destruct x, y; try lia; try (by specialize (Hxy eq_refl));
    assert (a ≠ b) as Hab' by congruence; specialize (IH Hab'); lia.
Qed.

(** Monotony of the operations on bit vectors *)

Lemma or_assign_Some a c x :
  Bitset.or_assign a c = Some x ↔
  length a = length c ∧ x = zip_with orb a c.
Proof. unfold Bitset.or_assign. destruct (decide _); naive_solver. Qed.

Lemma set_mono a b p a' b' :
  bs_le a b → Bitset.set a p = Some a' → Bitset.set b p = Some b' →
  bs_le a' b'.
Proof.
  intros Hle [_ ->]%set_Some [_ ->]%set_Some. by apply Forall2_insert.
Qed.

Lemma reset_mono a b p a' b' :
  bs_le a b → Bitset.reset a p = Some a' → Bitset.reset b p = Some b' →
  bs_le a' b'.
Proof.
  intros Hle [_ ->]%reset_Some [_ ->]%reset_Some. by apply Forall2_insert.
Qed.

Lemma set_extends a b p b' :
  bs_le a b → Bitset.set b p = Some b' → bs_le a b'.
Proof.
  intros Hle [_ ->]%set_Some.
  rewrite <-(list_insert_id' a p (default true (a !! p))).
  - apply Forall2_insert; done.
  - intros [x ->]%lookup_lt_is_Some. done.
Qed.

Lemma reset_extends a b p b' :
  bs_le a b → a !! p = Some false → Bitset.reset b p = Some b' →
  bs_le a b'.
Proof.
  intros Hle Hp [_ ->]%reset_Some.
  rewrite <-(list_insert_id a p false Hp). by apply Forall2_insert.
Qed.

Lemma zip_with_orb_mono a b c d :
  bs_le a b → bs_le c d → bs_le (zip_with orb a c) (zip_with orb b d).
Proof.
  intros Hab. revert c d. induction Hab as [|x y a b Hxy _ IH];
    intros c d Hcd; [constructor|].
  destruct Hcd as [|u v c d Huv Hcd]; simpl; constructor.
  - rewrite !orb_true_iff. intros [Hx|Hu]; auto.
  - by apply IH.
Qed.

Lemma or_assign_mono a b c d x y :
  bs_le a b → bs_le c d →
  Bitset.or_assign a c = Some x → Bitset.or_assign b d = Some y →
  bs_le x y.
Proof.
  intros Hab Hcd [_ ->]%or_assign_Some [_ ->]%or_assign_Some.
  by apply zip_with_orb_mono.
Qed.

Lemma foldM_set_mono srcs : ∀ a b a' b',
  bs_le a b →
  foldM Bitset.set srcs a = Some a' → foldM Bitset.set srcs b = Some b' →
  bs_le a' b'.
Proof.
  induction srcs as [|s srcs IH]; intros a b a' b' Hle Ha Hb.
  - simpl in *. by simplify_eq.
  - apply foldM_cons_Some in Ha as (a1 & Ha1 & Ha).
    apply foldM_cons_Some in Hb as (b1 & Hb1 & Hb).
    eapply IH; [|done..]. by eapply set_mono.
Qed.

Lemma foldM_set_extends srcs : ∀ a b b',
  bs_le a b → foldM Bitset.set srcs b = Some b' → bs_le a b'.
Proof.
  induction srcs as [|s srcs IH]; intros a b b' Hle Hb.
  - simpl in *. by simplify_eq.
  - apply foldM_cons_Some in Hb as (b1 & Hb1 & Hb).
    eapply IH; [|done]. by eapply set_extends.
Qed.

Lemma foldM_set_length srcs : ∀ a a',
  foldM Bitset.set srcs a = Some a' → length a' = length a.
Proof.
  induction srcs as [|s srcs IH]; intros a a' Ha.
  - simpl in *. by simplify_eq.
  - apply foldM_cons_Some in Ha as (a1 & [_ ->]%set_Some & Ha).
    rewrite (IH _ _ Ha). by rewrite length_insert.
Qed.

(** ** Monotony of the transfer function *)

Lemma rv_slot_length a b :
  length a = length b → LocalDce.rv_slot a = LocalDce.rv_slot b.
Proof. unfold LocalDce.rv_slot, Bitset.size. by intros ->. Qed.

Lemma update_liveness_Some inst bl bl' :
  LocalDce.update_liveness inst bl = Some bl' →
  ∃ bl1 bl2 bl3,
    (if IRInstr.has_dest inst then Bitset.reset bl (m_dest inst)
     else Some bl) = Some bl1 ∧
    (if rv_class inst then Bitset.reset bl1 (LocalDce.rv_slot bl1)
     else Some bl1) = Some bl2 ∧
    foldM Bitset.set (m_srcs inst) bl2 = Some bl3 ∧
    (if is_move_result_any (IRInstr.opcode inst)
     then Bitset.set bl3 (LocalDce.rv_slot bl3) else Some bl3) = Some bl'.
Proof.
  unfold LocalDce.update_liveness. fold (rv_class inst).
  intros (bl1 & H1 & Hrest)%bind_Some.
  apply bind_Some in Hrest as (bl2 & H2 & Hrest).
  apply bind_Some in Hrest as (bl3 & H3 & H4).
  exists bl1, bl2, bl3. split_and!; [|done..].
  unfold IRInstr.dest in H1. by destruct (IRInstr.has_dest inst).
Qed.

Lemma if_reset_length (c : bool) bl p bl1 :
  (if c then Bitset.reset bl p else Some bl) = Some bl1 →
  length bl1 = length bl.
Proof.
  destruct c; [|by intros [= ->]].
  intros [_ ->]%reset_Some. by rewrite length_insert.
Qed.

Lemma if_set_length (c : bool) bl p bl1 :
  (if c then Bitset.set bl p else Some bl) = Some bl1 →
  length bl1 = length bl.
Proof.
  destruct c; [|by intros [= ->]].
  intros [_ ->]%set_Some. by rewrite length_insert.
Qed.

Lemma update_liveness_length inst bl bl' :
  LocalDce.update_liveness inst bl = Some bl' → length bl' = length bl.
Proof.
  intros (bl1 & bl2 & bl3 & H1 & H2 & H3 & H4)%update_liveness_Some.
  apply if_reset_length in H1, H2. apply if_set_length in H4.
  apply foldM_set_length in H3. congruence.
Qed.

Lemma update_liveness_mono inst a b a' b' :
  bs_le a b →
  LocalDce.update_liveness inst a = Some a' →
  LocalDce.update_liveness inst b = Some b' →
  bs_le a' b'.
Proof.
  intros Hle (a1 & a2 & a3 & Ha1 & Ha2 & Ha3 & Ha4)%update_liveness_Some
             (b1 & b2 & b3 & Hb1 & Hb2 & Hb3 & Hb4)%update_liveness_Some.
  assert (bs_le a1 b1) as Hle1.
  { destruct (IRInstr.has_dest inst); [by eapply reset_mono|congruence]. }
  assert (bs_le a2 b2) as Hle2.
  { destruct (rv_class inst); [|congruence].
    rewrite (rv_slot_length a1 b1) in Ha2 by by apply bs_le_length.
    by eapply reset_mono. }
  assert (bs_le a3 b3) as Hle3 by by eapply foldM_set_mono.
  destruct (is_move_result_any _); [|congruence].
  rewrite (rv_slot_length a3 b3) in Ha4 by by apply bs_le_length.
  by eapply set_mono.
Qed.

(** When [a] misses the bits that [update_liveness] clears, the update of
    a larger vector is still larger than [a]. *)
Lemma update_liveness_extends inst a b b' :
  bs_le a b →
  (IRInstr.has_dest inst = true → a !! m_dest inst = Some false) →
  (rv_class inst = true → a !! LocalDce.rv_slot a = Some false) →
  LocalDce.update_liveness inst b = Some b' →
  bs_le a b'.
Proof.
  intros Hle Hdest Hrv Hb.
  apply update_liveness_Some in Hb as (b1 & b2 & b3 & Hb1 & Hb2 & Hb3 & Hb4).
  assert (bs_le a b1) as Hle1.
  { destruct (IRInstr.has_dest inst); [|congruence].
    eapply reset_extends; [done| |done]. auto. }
  assert (bs_le a b2) as Hle2.
  { destruct (rv_class inst); [|congruence].
    rewrite <-(rv_slot_length a b1) in Hb2 by by apply bs_le_length.
    eapply reset_extends; [done| |done]. auto. }
  assert (bs_le a b3) as Hle3 by by eapply foldM_set_extends.
  destruct (is_move_result_any _); [|congruence].
  by eapply set_extends.
Qed.

Lemma has_dest_class op :
  Opcode.has_dest op = true →
  is_invoke op = false ∧ is_filled_new_array op = false ∧
  Opcode.has_move_result_pseudo op = false.
Proof. by destruct op. Qed.

Section transfer.
Context `{Externals} (this : LocalDce.t).

(** [is_required] either does not look at the liveness, or tests the
    destination register of an instruction outside [rv_class], or tests the
    return-value slot for an instruction without destination. *)
Lemma is_required_shape g b inst :
  (∃ r, ∀ bl, LocalDce.is_required this g b inst bl = r) ∨
  (IRInstr.has_dest inst = true ∧ rv_class inst = false ∧
   ∀ bl, LocalDce.is_required this g b inst bl = bl !! m_dest inst) ∨
  (IRInstr.has_dest inst = false ∧
   ∀ bl, LocalDce.is_required this g b inst bl = bl !! LocalDce.rv_slot bl).
Proof.
  destruct (is_invoke (IRInstr.opcode inst)) eqn:Hinv.
  { destruct (resolve_method (m_union inst) (opcode_to_search inst))
      as [meth|] eqn:Hres.
    - destruct (LocalDce.assumenosideeffects this (m_union inst) meth)
        eqn:Hpure.
      + right; right. split.
        * unfold IRInstr.has_dest. revert Hinv. unfold IRInstr.opcode.
          by destruct (m_opcode inst).
        * intros bl. rewrite (is_required_invoke this g b inst bl Hinv).
          by rewrite Hres, Hpure.
      + left. exists (Some true). intros bl.
        rewrite (is_required_invoke this g b inst bl Hinv).
        by rewrite Hres, Hpure.
    - left. exists (Some true). intros bl.
      rewrite (is_required_invoke this g b inst bl Hinv). by rewrite Hres. }
  unfold LocalDce.is_required. rewrite Hinv.
  destruct (LocalDce.has_side_effects _).
  { left. eexists. intros bl. reflexivity. }
  destruct (IRInstr.has_dest inst) eqn:Hdest.
  { right; left. split; [done|]. split.
    - unfold rv_class, IRInstr.has_move_result_pseudo, IRInstr.opcode.
      destruct (has_dest_class _ Hdest) as (-> & -> & ->). done.
    - intros bl. unfold IRInstr.dest. by rewrite Hdest. }
  destruct (_ || _).
  - right; right. done.
  - left. eexists. intros bl. reflexivity.
Qed.

Lemma walk_step_Some g b bl dead it bl' dead' :
  LocalDce.walk_step this g b (bl, dead) it = Some (bl', dead') →
  match it.2 with
  | MFLOW_OPCODE insn =>
      (LocalDce.is_required this g b (pointee insn) bl = Some true ∧
       LocalDce.update_liveness (pointee insn) bl = Some bl') ∨
      (LocalDce.is_required this g b (pointee insn) bl = Some false ∧
       bl' = bl)
  | _ => bl' = bl
  end.
Proof.
  unfold LocalDce.walk_step. destruct it as [k e]. simpl.
  destruct e as [insn| | | | | |]; try congruence.
  destruct (LocalDce.is_required this g b (pointee insn) bl) as [[]|];
    simpl; [| |done].
  - destruct (LocalDce.update_liveness _ _); simpl; [|done].
    left. split; congruence.
  - destruct (negb _); right; split; congruence.
Qed.

Lemma walk_step_mono g b a b0 da db it a' b' da' db' :
  bs_le a b0 →
  LocalDce.walk_step this g b (a, da) it = Some (a', da') →
  LocalDce.walk_step this g b (b0, db) it = Some (b', db') →
  bs_le a' b'.
Proof.
  intros Hle Ha%walk_step_Some Hb%walk_step_Some.
  destruct (it.2) as [insn| | | | | |]; try congruence.
  destruct Ha as [[Hra Hua]|[Hra ->]], Hb as [[Hrb Hub]|[Hrb ->]]; [| | |done].
  - by eapply update_liveness_mono.
  - (* required below, not required above: impossible *)
    exfalso.
    destruct (is_required_shape g b (pointee insn))
      as [[r Hr]|[(_ & _ & Hr)|(_ & Hr)]]; rewrite !Hr in *.
    + congruence.
    + apply (bs_le_lookup _ _ _ Hle) in Hra. congruence.
    + rewrite (rv_slot_length a b0) in Hra by by apply bs_le_length.
      apply (bs_le_lookup _ _ _ Hle) in Hra. congruence.
  - (* not required below, required above *)
    destruct (is_required_shape g b (pointee insn))
      as [[r Hr]|[(Hd & Hc & Hr)|(Hd & Hr)]]; rewrite !Hr in *.
    + congruence.
    + eapply update_liveness_extends; [done| | |done]; [done|congruence].
    + eapply update_liveness_extends; [done| | |done]; [congruence|done].
Qed.

Lemma walk_mono g b its : ∀ a b0 da db a' b' da' db',
  bs_le a b0 →
  foldM (LocalDce.walk_step this g b) its (a, da) = Some (a', da') →
  foldM (LocalDce.walk_step this g b) its (b0, db) = Some (b', db') →
  bs_le a' b'.
Proof.
  induction its as [|it its IH]; intros a b0 da db a' b' da' db' Hle Ha Hb.
  - simpl in *. by simplify_eq.
  - apply foldM_cons_Some in Ha as ([a1 da1] & Ha1 & Ha).
    apply foldM_cons_Some in Hb as ([b1 db1] & Hb1 & Hb).
    eapply IH; [|done..]. by eapply walk_step_mono.
Qed.

Lemma walk_length g b its : ∀ a da a' da',
  foldM (LocalDce.walk_step this g b) its (a, da) = Some (a', da') →
  length a' = length a.
Proof.
  induction its as [|it its IH]; intros a da a' da' Ha.
  - simpl in *. by simplify_eq.
  - apply foldM_cons_Some in Ha as ([a1 da1] & Ha1 & Ha).
    rewrite (IH _ _ _ _ Ha). apply walk_step_Some in Ha1.
    destruct (it.2); try congruence.
    destruct Ha1 as [[_ Hu]|[_ ->]]; [|done].
    by apply update_liveness_length in Hu.
Qed.

End transfer.

(** ** The liveness map across a sweep *)

Lemma liveness_le_refl σ : liveness_le σ σ.
Proof.
  intros k. destruct (σ !! k); constructor. apply bs_le_refl.
Qed.

Lemma liveness_le_trans σ1 σ2 σ3 :
  liveness_le σ1 σ2 → liveness_le σ2 σ3 → liveness_le σ1 σ3.
Proof.
  intros H12 H23 k. specialize (H12 k). specialize (H23 k).
  destruct H12; inversion H23; subst; constructor.
  by eapply bs_le_trans.
Qed.

Lemma liveness_le_lookup σ σ' k a b :
  liveness_le σ σ' → σ !! k = Some a → σ' !! k = Some b → bs_le a b.
Proof.
  intros Hle Ha Hb. specialize (Hle k). rewrite Ha, Hb in Hle.
  by inversion Hle.
Qed.

Lemma liveness_le_insert σ σ' k a b :
  liveness_le σ σ' → bs_le a b → liveness_le (<[k:=a]> σ) (<[k:=b]> σ').
Proof.
  intros Hle Hab k'. destruct (decide (k = k')) as [->|Hne].
  - rewrite !lookup_insert_eq. by constructor.
  - rewrite !lookup_insert_ne by done. apply Hle.
Qed.

Lemma liveness_le_update σ k prev new :
  σ !! k = Some prev → bs_le prev new → liveness_le σ (<[k:=new]> σ).
Proof.
  intros Hk Hle. rewrite <-(insert_id σ k prev Hk) at 1.
  apply liveness_le_insert; [apply liveness_le_refl|done].
Qed.

Section live_out.
Context `{Externals} (this : LocalDce.t).

Lemma live_out_step_Some σ b prev bl s bl' :
  LocalDce.live_out_step σ b prev bl s = Some bl' →
  ∃ bl1 succ,
    (if bool_decide (m_target s = m_id b) then Bitset.or_assign bl prev
     else Some bl) = Some bl1 ∧
    (<[m_id b := bl1]> σ) !! m_target s = Some succ ∧
    Bitset.or_assign bl1 succ = Some bl'.
Proof.
  unfold LocalDce.live_out_step.
  intros (bl1 & H1 & (succ & H2 & H3)%bind_Some)%bind_Some. eauto.
Qed.

Lemma live_out_step_mono σ σ' b prev prev' bl bl' s out out' :
  liveness_le σ σ' → bs_le prev prev' → bs_le bl bl' →
  LocalDce.live_out_step σ b prev bl s = Some out →
  LocalDce.live_out_step σ' b prev' bl' s = Some out' →
  bs_le out out'.
Proof.
  intros Hσ Hprev Hbl (a1 & sa & Ha1 & Hsa & Ha)%live_out_step_Some
                     (b1 & sb & Hb1 & Hsb & Hb)%live_out_step_Some.
  assert (bs_le a1 b1) as Hle1.
  { destruct (bool_decide _); [|congruence].
    exact (or_assign_mono _ _ _ _ _ _ Hbl Hprev Ha1 Hb1). }
  refine (or_assign_mono _ _ _ _ _ _ Hle1 _ Ha Hb).
  eapply liveness_le_lookup; [|done..]. by apply liveness_le_insert.
Qed.

Lemma live_out_step_length σ b prev bl s out :
  LocalDce.live_out_step σ b prev bl s = Some out → length out = length bl.
Proof.
  intros (a1 & sa & Ha1 & Hsa & [Hl2 ->]%or_assign_Some)%live_out_step_Some.
  assert (length a1 = length bl) as <-.
  { destruct (bool_decide _); [|congruence].
    apply or_assign_Some in Ha1 as [Hl ->]. rewrite length_zip_with. lia. }
  rewrite length_zip_with. lia.
Qed.

Lemma live_out_mono σ σ' b prev prev' out out' :
  liveness_le σ σ' → bs_le prev prev' →
  LocalDce.live_out σ b prev = Some out →
  LocalDce.live_out σ' b prev' = Some out' →
  bs_le out out'.
Proof.
  intros Hσ Hprev. unfold LocalDce.live_out.
  assert (bs_le (Bitset.reset_all prev) (Bitset.reset_all prev')) as Hle0.
  { unfold Bitset.reset_all. rewrite (bs_le_length _ _ Hprev).
    apply bs_le_refl. }
  revert Hle0. generalize (Bitset.reset_all prev) (Bitset.reset_all prev').
  induction (m_succs b) as [|s succs IH]; intros a a' Hle Ha Ha'.
  - simpl in *. by simplify_eq.
  - apply foldM_cons_Some in Ha as (a1 & Ha1 & Ha).
    apply foldM_cons_Some in Ha' as (a1' & Ha1' & Ha').
    refine (IH _ _ _ Ha Ha').
    exact (live_out_step_mono _ _ _ _ _ _ _ _ _ _ Hσ Hprev Hle Ha1 Ha1').
Qed.

Lemma live_out_length σ b prev out :
  LocalDce.live_out σ b prev = Some out → length out = length prev.
Proof.
  unfold LocalDce.live_out.
  assert (length (Bitset.reset_all prev) = length prev) as <-
    by apply length_replicate.
  generalize (Bitset.reset_all prev).
  induction (m_succs b) as [|s succs IH]; intros a Ha.
  - simpl in *. by simplify_eq.
  - apply foldM_cons_Some in Ha as (a1 & Ha1 & Ha).
    rewrite (IH _ Ha). by eapply live_out_step_length.
Qed.

End live_out.

(** ** The invariant of the fixed-point loop *)

Section invariant.
Context `{Externals} (this : LocalDce.t).

Lemma walk_bits_independent g b its : ∀ a d a' d' e,
  foldM (LocalDce.walk_step this g b) its (a, d) = Some (a', d') →
  ∃ e', foldM (LocalDce.walk_step this g b) its (a, e) = Some (a', e').
Proof.
  induction its as [|it its IH]; intros a d a' d' e Hrun.
  - simpl in *. simplify_eq. eauto.
  - apply foldM_cons_Some in Hrun as ([a1 d1] & Hstep & Hrun).
    assert (∃ e1, LocalDce.walk_step this g b (a, e) it = Some (a1, e1))
      as [e1 Hstep'].
    { revert Hstep. unfold LocalDce.walk_step. destruct (it.2); eauto.
      - destruct (LocalDce.is_required _ _ _ _ _) as [[]|]; simpl; [| |done].
        + destruct (LocalDce.update_liveness _ _); simpl; [|done].
          intros [= -> _]. eauto.
        + destruct (negb _); intros [= -> _]; eauto.
      - intros [= -> _]. eauto.
      - intros [= -> _]. eauto.
      - intros [= -> _]. eauto.
      - intros [= -> _]. eauto.
      - intros [= -> _]. eauto.
      - intros [= -> _]. eauto. }
    destruct (IH _ _ _ _ e1 Hrun) as [e' Hrun'].
    exists e'. apply foldM_cons_Some. eauto.
Qed.

Lemma block_step_Some g σ d c b σ' d' c' :
  LocalDce.block_step this g (σ, d, c) b = Some (σ', d', c') →
  ∃ prev new, σ !! m_id b = Some prev ∧
    block_live_in this g b σ = Some new ∧
    σ' = <[m_id b := new]> σ ∧
    c' = (if bool_decide (new ≠ prev) then true else c).
Proof.
  unfold LocalDce.block_step, block_live_in.
  destruct (σ !! m_id b) as [prev|]; [|done]. simpl.
  destruct (LocalDce.live_out σ b prev) as [out|]; [|done]. simpl.
  destruct (LocalDce.walk this g b (out, d)) as [[new d1]|] eqn:Hwalk;
    [|done]. simpl. intros [= <- <- <-].
  destruct (walk_bits_independent _ _ _ _ _ _ _ [] Hwalk) as [e' He'].
  exists prev, new. unfold LocalDce.walk. rewrite He'. done.
Qed.

Lemma block_live_in_mono g b σ σ' out out' :
  liveness_le σ σ' →
  block_live_in this g b σ = Some out →
  block_live_in this g b σ' = Some out' →
  bs_le out out'.
Proof.
  unfold block_live_in.
  intros Hle (prev & Hprev & (o & Ho & Hw)%bind_Some)%bind_Some
             (prev' & Hprev' & (o' & Ho' & Hw')%bind_Some)%bind_Some.
  apply fmap_Some in Hw as ([x d] & Hw & ->).
  apply fmap_Some in Hw' as ([x' d'] & Hw' & ->). simpl.
  pose proof (liveness_le_lookup _ _ _ _ _ Hle Hprev Hprev') as Hp.
  pose proof (live_out_mono _ _ _ _ _ _ _ Hle Hp Ho Ho') as Hout.
  exact (walk_mono this _ _ _ _ _ _ _ _ _ _ _ Hout Hw Hw').
Qed.

Lemma block_live_in_length g b σ prev out :
  σ !! m_id b = Some prev → block_live_in this g b σ = Some out →
  length out = length prev.
Proof.
  unfold block_live_in. intros ->. simpl.
  intros (o & Ho & Hw)%bind_Some.
  apply fmap_Some in Hw as ([x d] & Hw & ->). simpl.
  apply walk_length in Hw. apply live_out_length in Ho. congruence.
Qed.

Lemma count_lookup_mono σ σ' k :
  liveness_le σ σ' →
  Bitset.count (default [] (σ !! k)) ≤ Bitset.count (default [] (σ' !! k)).
Proof.
  intros Hle. specialize (Hle k).
  destruct (σ !! k), (σ' !! k); inversion Hle; subst; simpl; [|done].
  by apply bs_le_count.
Qed.

Lemma measure_mono blocks σ σ' :
  liveness_le σ σ' → measure blocks σ ≤ measure blocks σ'.
Proof.
  intros Hle. unfold measure.
  induction blocks as [|b blocks IH]; simpl; [done|].
  pose proof (count_lookup_mono _ _ (m_id b) Hle). lia.
Qed.

Lemma measure_strict blocks σ σ' b prev new :
  liveness_le σ σ' → b ∈ blocks →
  σ !! m_id b = Some prev → σ' !! m_id b = Some new → prev ≠ new →
  measure blocks σ < measure blocks σ'.
Proof.
  intros Hle Hb Hprev Hnew Hne. unfold measure.
  induction blocks as [|b' blocks IH]; [by apply elem_of_nil in Hb|].
  simpl. apply elem_of_cons in Hb as [<-|Hb].
  - rewrite Hprev, Hnew. simpl.
    pose proof (measure_mono blocks _ _ Hle) as Hrest. unfold measure in Hrest.
    pose proof (liveness_le_lookup _ _ _ _ _ Hle Hprev Hnew) as Hpn.
    apply bs_le_count_lt in Hpn; [|done]. lia.
  - specialize (IH Hb). pose proof (count_lookup_mono _ _ (m_id b') Hle). lia.
Qed.

Lemma measure_bound blocks n σ :
  sized n σ → measure blocks σ ≤ length blocks * n.
Proof.
  intros Hsized. unfold measure.
  induction blocks as [|b blocks IH]; simpl; [done|].
  destruct (σ !! m_id b) as [v|] eqn:Hv; simpl.
  - pose proof (count_le_length v). rewrite (Hsized _ _ Hv) in *. lia.
  - pose proof (count_le_length []) as Hnil. simpl in Hnil. lia.
Qed.

Lemma block_step_invariant g blocks n σ d c b σ' d' c' :
  ids_identify blocks → b ∈ blocks →
  sized n σ → prefixpoint this g blocks σ →
  LocalDce.block_step this g (σ, d, c) b = Some (σ', d', c') →
  liveness_le σ σ' ∧ sized n σ' ∧ prefixpoint this g blocks σ' ∧
  (c' = true → c = true ∨ measure blocks σ < measure blocks σ').
Proof.
  intros Hids Hb Hsized Hpre Hstep.
  apply block_step_Some in Hstep as (prev & new & Hprev & Hnew & -> & ->).
  assert (bs_le prev new) as Hgrow.
  { eapply Hpre; [done|apply liveness_le_refl|done..]. }
  assert (liveness_le σ (<[m_id b:=new]> σ)) as Hle
    by by eapply liveness_le_update.
  split_and!; [done| | |].
  - intros k v. destruct (decide (m_id b = k)) as [<-|Hne].
    + rewrite lookup_insert_eq. intros [= <-].
      rewrite (block_live_in_length _ _ _ _ _ Hprev Hnew). by eapply Hsized.
    + rewrite lookup_insert_ne by done. apply Hsized.
  - intros b' σ'' prev' out Hb' Hle' Hprev' Hout.
    destruct (decide (m_id b = m_id b')) as [Heq|Hne].
    + assert (b = b') as <- by by apply Hids.
      rewrite lookup_insert_eq in Hprev'. simplify_eq.
      eapply block_live_in_mono; [|done..].
      by eapply liveness_le_trans.
    + rewrite lookup_insert_ne in Hprev' by done.
      eapply Hpre; [done| |done..]. by eapply liveness_le_trans.
  - case_bool_decide as Hne; [|by left]. intros _. right.
    refine (measure_strict _ _ _ _ prev new Hle Hb Hprev _ _);
      [by rewrite lookup_insert_eq|congruence].
Qed.

Lemma sweep_blocks_invariant g blocks n bs : ∀ σ d c σ' d' c',
  ids_identify blocks → bs ⊆ blocks →
  sized n σ → prefixpoint this g blocks σ →
  foldM (LocalDce.block_step this g) bs (σ, d, c) = Some (σ', d', c') →
  liveness_le σ σ' ∧ sized n σ' ∧ prefixpoint this g blocks σ' ∧
  (c' = true → c = true ∨ measure blocks σ < measure blocks σ').
Proof.
  induction bs as [|b bs IH];
    intros σ d c σ' d' c' Hids Hsub Hsized Hpre Hrun.
  - simpl in Hrun. simplify_eq. split_and!; auto using liveness_le_refl.
  - apply foldM_cons_Some in Hrun as ([[σ1 d1] c1] & Hstep & Hrun).
    eapply block_step_invariant in Hstep as (Hle1 & Hsized1 & Hpre1 & Hc1);
      [|done| |done..]; [|set_solver].
    eapply IH in Hrun as (Hle2 & Hsized2 & Hpre2 & Hc2);
      [|done| |done..]; [|set_solver].
    split_and!; [by eapply liveness_le_trans|done..|].
    intros Hc'. pose proof (measure_mono blocks _ _ Hle1).
    pose proof (measure_mono blocks _ _ Hle2).
    destruct (Hc2 Hc') as [Hc|Hlt]; [|right; lia].
    destruct (Hc1 Hc) as [?|Hlt]; [by left|right; lia].
Qed.

Lemma sweep_invariant g blocks n σ σ' dead changed :
  ids_identify blocks → sized n σ → prefixpoint this g blocks σ →
  LocalDce.sweep this g blocks σ = Some (σ', dead, changed) →
  liveness_le σ σ' ∧ sized n σ' ∧ prefixpoint this g blocks σ' ∧
  (changed = true → measure blocks σ < measure blocks σ').
Proof.
  intros Hids Hsized Hpre Hrun.
  eapply sweep_blocks_invariant in Hrun as (? & ? & ? & Hc); [|done..].
  split_and!; [done..|]. intros Hch. by destruct (Hc Hch).
Qed.

End invariant.

(** ** Termination of the fixed-point loop *)

Section loop.
Context `{Externals} (this : LocalDce.t).

Lemma init_liveness_zero blocks regs k v :
  LocalDce.init_liveness blocks regs !! k = Some v →
  v = replicate (regs + 1) false.
Proof.
  unfold LocalDce.init_liveness.
  assert (∀ k v, (∅ : gmap nat (list bool)) !! k = Some v →
            v = replicate (regs + 1) false) as Hinit
    by (intros ??; by rewrite lookup_empty).
  revert Hinit k v. generalize (∅ : gmap nat (list bool)).
  induction blocks as [|b blocks IH]; intros σ Hσ k v; simpl; [by apply Hσ|].
  apply IH. intros k' v'. destruct (σ !! m_id b) eqn:Hb; [by apply Hσ|].
  destruct (decide (m_id b = k')) as [<-|Hne].
  - rewrite lookup_insert_eq. by intros [= <-].
  - rewrite lookup_insert_ne by done. apply Hσ.
Qed.

Lemma init_liveness_sized blocks regs :
  sized (regs + 1) (LocalDce.init_liveness blocks regs).
Proof.
  intros k v ->%init_liveness_zero. by rewrite length_replicate.
Qed.

Lemma init_liveness_prefixpoint g blocks regs :
  prefixpoint this g blocks (LocalDce.init_liveness blocks regs).
Proof.
  intros b σ' prev out Hb Hle Hprev Hout.
  pose proof (init_liveness_zero _ _ _ _ Hprev) as ->.
  apply bs_le_zero.
  unfold block_live_in in Hout.
  destruct (σ' !! m_id b) as [prev'|] eqn:Hprev'; [|done].
  pose proof (liveness_le_lookup _ _ _ _ _ Hle Hprev Hprev') as Hlen.
  apply bs_le_length in Hlen. rewrite length_replicate in Hlen.
  rewrite Hlen. eapply block_live_in_length; [done|].
  unfold block_live_in. by rewrite Hprev'.
Qed.

Lemma reachable_invariant g blocks regs σ :
  ids_identify blocks → reachable this g blocks regs σ →
  sized (regs + 1) σ ∧ prefixpoint this g blocks σ.
Proof.
  intros Hids. induction 1 as [|σ σ' dead _ [Hsized Hpre] Hsweep].
  - split; [apply init_liveness_sized|apply init_liveness_prefixpoint].
  - eapply sweep_invariant in Hsweep as (_ & ? & ? & _); done.
Qed.

(** With enough fuel the loop does not run out of it, and a stable outcome
    comes after at most as many further sweeps as there are bits left to
    gain, plus one. *)
Lemma fixed_point_bounded g blocks n fuel : ∀ σ k,
  ids_identify blocks → sized n σ → prefixpoint this g blocks σ →
  (length blocks * n - measure blocks σ < fuel →
   LocalDce.fixed_point this fuel g blocks σ k ≠ LocalDce.OutOfFuel) ∧
  (∀ σ' dead m,
     LocalDce.fixed_point this fuel g blocks σ k =
       LocalDce.Stable σ' dead m →
     m ≤ k + (length blocks * n - measure blocks σ) + 1).
Proof.
  induction fuel as [|fuel IH]; intros σ k Hids Hsized Hpre.
  - split; [lia|done].
  - simpl.
    destruct (LocalDce.sweep this g blocks σ) as [[[σ1 dead1] changed]|]
      eqn:Hsweep; [|done].
    pose proof (sweep_invariant this _ _ _ _ _ _ _ Hids Hsized Hpre Hsweep)
      as (Hle & Hsized1 & Hpre1 & Hch).
    pose proof (measure_bound blocks n σ1 Hsized1) as Hbound.
    destruct changed.
    + specialize (Hch eq_refl).
      destruct (IH σ1 (S k) Hids Hsized1 Hpre1) as [Hfuel Hstable].
      split.
      * intros Hlt. apply Hfuel. lia.
      * intros σ' dead m Hrun. specialize (Hstable _ _ _ Hrun). lia.
    + split; [done|]. intros σ' dead m [= _ _ <-]. lia.
Qed.

End loop.

Lemma NoDup_ids_identify blocks :
  NoDup (map m_id blocks) → ids_identify blocks.
Proof.
  intros Hnd b b' Hb Hb' Heq.
  apply list_elem_of_lookup in Hb as [i Hi].
  apply list_elem_of_lookup in Hb' as [j Hj].
  assert (i = j) as ->; [|congruence].
  apply (NoDup_lookup (map m_id blocks) i j (m_id b) Hnd).
  - by rewrite list_lookup_fmap, Hi.
  - rewrite list_lookup_fmap, Hj. simpl. by rewrite Heq.
Qed.

Section termination_claim.
Context `{Externals} (this : LocalDce.t).

(** C4, amended. On a graph whose blocks are identified by their ids, each
    sweep of the loop leaves every block with a vector of [regs + 1] bits
    that holds all the bits it held before; the loop does not run out of
    fuel once it is given [blocks * (regs + 1) + 1] sweeps, and no run makes
    more sweeps than that. *)
Theorem dce_terminates g :
  ids_identify (blocks_post g) →
  (∀ σ σ' dead changed,
     reachable this g (blocks_post g) (m_registers_size g) σ →
     LocalDce.sweep this g (blocks_post g) σ = Some (σ', dead, changed) →
     liveness_le σ σ' ∧ sized (m_registers_size g + 1) σ') ∧
  (∀ fuel,
     length (blocks_post g) * (m_registers_size g + 1) + 1 ≤ fuel →
     LocalDce.dce this fuel g ≠ LocalDce.DceOutOfFuel) ∧
  (∀ fuel r,
     LocalDce.dce this fuel g = LocalDce.DceDone r →
     LocalDce.sweeps r ≤
       length (blocks_post g) * (m_registers_size g + 1) + 1).
Proof.
  intros Hids. split_and!.
  - intros σ σ' dead changed Hreach Hsweep.
    destruct (reachable_invariant this _ _ _ _ Hids Hreach) as [Hsized Hpre].
    by destruct (sweep_invariant this _ _ _ _ _ _ _ Hids Hsized Hpre Hsweep)
      as (? & ? & _).
  - intros fuel Hfuel. unfold LocalDce.dce.
    destruct (fixed_point_bounded this g (blocks_post g)
                (m_registers_size g + 1) fuel
                (LocalDce.init_liveness (blocks_post g) (m_registers_size g))
                0 Hids (init_liveness_sized _ _)
                (init_liveness_prefixpoint this _ _ _)) as [Hrun _].
    destruct (LocalDce.fixed_point _ _ _ _ _ _) as [| |σ dead n].
    + destruct Hrun; [lia|done].
    + done.
    + by destruct (LocalDce.remove_dead dead).
  - intros fuel r. unfold LocalDce.dce.
    destruct (fixed_point_bounded this g (blocks_post g)
                (m_registers_size g + 1) fuel
                (LocalDce.init_liveness (blocks_post g) (m_registers_size g))
                0 Hids (init_liveness_sized _ _)
                (init_liveness_prefixpoint this _ _ _)) as [_ Hstable].
    destruct (LocalDce.fixed_point _ _ _ _ _ _) as [| |σ dead n]; [done..|].
    specialize (Hstable _ _ _ eq_refl).
    destruct (LocalDce.remove_dead dead); [|done].
    intros [= <-]. simpl. lia.
Qed.

End termination_claim.

(** The loop of [Examples.loop_graph], three blocks and two registers, is
    stable within the ten sweeps that the bound allows. *)
Lemma dce_terminates_witness :
  ids_identify (m_blocks Examples.loop_graph) ∧
  ∃ r, LocalDce.dce (H := Examples.ext) Examples.pass 10 Examples.loop_graph =
         LocalDce.DceDone r ∧
       LocalDce.sweeps r ≤ 10.
Proof.
  assert (ids_identify (m_blocks Examples.loop_graph)) as Hids.
  { apply NoDup_ids_identify. vm_compute. repeat constructor; set_solver. }
  split; [done|].
  destruct (dce_terminates (H := Examples.ext) Examples.pass
              Examples.loop_graph Hids) as (_ & Hfuel & Hbound).
  destruct (LocalDce.dce (H := Examples.ext) Examples.pass 10
              Examples.loop_graph) as [| |r] eqn:Hdce.
  - destruct (Hfuel 10); [vm_compute; lia|done].
  - vm_compute in Hdce. discriminate Hdce.
  - exists r. split; [done|]. exact (Hbound 10 r Hdce).
Defined.

(** C4 as stated fails: a method that is a single [return-void] has one
    block and no register, and its analysis takes one sweep, more than
    [1 * 0]. *)
Lemma sweeps_exceed_blocks_times_registers :
  ∃ r, LocalDce.dce (H := Examples.ext) Examples.pass 1
         Examples.return_void_graph = LocalDce.DceDone r ∧
    ¬ LocalDce.sweeps r ≤
        length (blocks_post (Externals := Examples.ext)
                  Examples.return_void_graph) *
        m_registers_size Examples.return_void_graph.
Proof.
  eexists. split; [vm_compute; reflexivity|]. vm_compute. lia.
Qed.

(** ** The mutation buffer *)

Lemma instructions_of_cons_opcode a es :
  CFGMutation.instructions_of (MFLOW_OPCODE a :: es) =
  a :: CFGMutation.instructions_of es.
Proof. done. Qed.

Lemma instructions_of_app es1 es2 :
  CFGMutation.instructions_of (es1 ++ es2) =
  CFGMutation.instructions_of es1 ++ CFGMutation.instructions_of es2.
Proof. apply omap_app. Qed.

Lemma untouched_cons m e es :
  untouched m (e :: es) →
  (∀ a, e = MFLOW_OPCODE a → m !! addr a = None) ∧ untouched m es.
Proof.
  intros Hun. split.
  - intros a ->. apply Hun. rewrite instructions_of_cons_opcode. set_solver.
  - intros a Ha. apply Hun. unfold CFGMutation.instructions_of in *.
    simpl. destruct e; set_solver.
Qed.

Lemma untouched_app m es1 es2 :
  untouched m (es1 ++ es2) → untouched m es1 ∧ untouched m es2.
Proof.
  intros Hun. split; intros a Ha; apply Hun;
    rewrite instructions_of_app; set_solver.
Qed.

Lemma untouched_empty es : untouched ∅ es.
Proof. intros a _. apply lookup_empty. Qed.

Lemma block_eta b : mkBlock (m_id b) (m_entries b) (m_succs b) = b.
Proof. by destruct b. Qed.

(** The anchor is an instruction of the graph. *)
Lemma anchor_in_graph g bs1 b bs2 pre A post :
  m_blocks g = bs1 ++ b :: bs2 →
  m_entries b = pre ++ MFLOW_OPCODE A :: post →
  addr A ∈ map addr (CFGMutation.instructions g).
Proof.
  intros Hg Hb. unfold CFGMutation.instructions.
  apply list_elem_of_fmap. exists A. split; [done|].
  rewrite Hg, map_app, join_app. simpl. rewrite Hb, instructions_of_app.
  rewrite instructions_of_cons_opcode. set_solver.
Qed.

Lemma add_change_first g A where_ news :
  addr A ∈ map addr (CFGMutation.instructions g) →
  CFGMutation.add_change g ∅ where_ A news =
    Some {[addr A :=
             match where_ with
             | CFGMutation.Before => CFGMutation.mkChangeSet news None []
             | CFGMutation.After => CFGMutation.mkChangeSet [] None news
             | CFGMutation.Replacing =>
                 CFGMutation.mkChangeSet [] (Some news) []
             end]}.
Proof.
  intros Hin. unfold CFGMutation.add_change.
  rewrite bool_decide_eq_true_2 by done. rewrite lookup_empty. simpl.
  destruct where_; by rewrite insert_empty.
Qed.

Lemma add_change_insert_again g A cs where_ news :
  addr A ∈ map addr (CFGMutation.instructions g) →
  where_ ≠ CFGMutation.Replacing →
  CFGMutation.add_change g {[addr A := cs]} where_ A news =
    Some {[addr A :=
             match where_ with
             | CFGMutation.Before =>
                 CFGMutation.mkChangeSet
                   (CFGMutation.m_insert_before cs ++ news)
                   (CFGMutation.m_replace cs) (CFGMutation.m_insert_after cs)
             | _ =>
                 CFGMutation.mkChangeSet (CFGMutation.m_insert_before cs)
                   (CFGMutation.m_replace cs)
                   (CFGMutation.m_insert_after cs ++ news)
             end]}.
Proof.
  intros Hin Hwhere. unfold CFGMutation.add_change.
  rewrite bool_decide_eq_true_2 by done. rewrite lookup_singleton_eq. simpl.
  destruct where_; [| |done];
    by rewrite <-insert_empty, insert_insert_eq, insert_empty.
Qed.

Lemma no_orphan_from_weaken p es :
  CFGMutation.no_orphan_from false es = true →
  CFGMutation.no_orphan_from p es = true.
Proof.
  destruct es as [|[i| | | | | |] es]; simpl; try done.
  destruct (is_move_result_pseudo _); [done|]. by destruct p.
Qed.

Lemma no_orphan_from_app p es1 es2 :
  CFGMutation.no_orphan_from p es1 = true →
  CFGMutation.no_orphan_from false es2 = true →
  CFGMutation.no_orphan_from p (es1 ++ es2) = true.
Proof.
  revert p. induction es1 as [|e es1 IH]; intros p H1 H2.
  - by apply no_orphan_from_weaken.
  - simpl in *. destruct e as [i| | | | | |]; auto.
    apply andb_true_iff in H1 as [-> H1]. simpl. auto.
Qed.

Lemma no_orphan_from_prefix p es1 es2 :
  CFGMutation.no_orphan_from p (es1 ++ es2) = true →
  CFGMutation.no_orphan_from p es1 = true.
Proof.
  revert p. induction es1 as [|e es1 IH]; intros p H; [done|].
  simpl in *. destruct e as [i| | | | | |]; eauto.
  apply andb_true_iff in H as [-> H]. simpl. eauto.
Qed.

Lemma pseudo_has_no_pseudo op :
  is_move_result_pseudo op = true → Opcode.has_move_result_pseudo op = false.
Proof. by destruct op. Qed.

(** Behind an instruction and its move-result-pseudo, nothing is orphaned
    if nothing was in the whole. *)
Lemma no_orphan_from_behind_pair p pre A P post :
  CFGMutation.is_pseudo_entry (MFLOW_OPCODE P) = true →
  CFGMutation.no_orphan_from p
    (pre ++ MFLOW_OPCODE A :: MFLOW_OPCODE P :: post) = true →
  CFGMutation.no_orphan_from false post = true.
Proof.
  intros HP. revert p. induction pre as [|e pre IH]; intros p H.
  - simpl in H. apply andb_true_iff in H as [_ H].
    apply andb_true_iff in H as [_ H].
    unfold IRInstr.has_move_result_pseudo in H.
    unfold CFGMutation.is_pseudo_entry, IRInstr.opcode in HP.
    by rewrite (pseudo_has_no_pseudo _ HP) in H.
  - simpl in H. destruct e as [i| | | | | |]; eauto.
    apply andb_true_iff in H as [_ H]. eauto.
Qed.

Section buffer.
Import CFGMutation.

(** *** The walk of [flush] *)

Lemma stop_at_none news :
  Forall (λ i, ends_block i = false) news → stop_at news = (news, None).
Proof.
  induction 1 as [|i news Hi _ IH]; [done|]. simpl. by rewrite Hi, IH.
Qed.

Lemma walked_cons_nil w : walked_cons [] None w = w.
Proof. by destruct w. Qed.

Lemma walked_cons_app es1 es2 h w :
  walked_cons (es1 ++ es2) h w =
  walked_cons es1 None (walked_cons es2 h w).
Proof. unfold walked_cons. simpl. by rewrite app_assoc. Qed.

(** The walk leaves entries without pending change as they are. *)
Lemma flush_entries_app across m pre rest :
  untouched m pre →
  flush_entries across m (pre ++ rest) =
    walked_cons pre None (flush_entries across m rest).
Proof.
  induction pre as [|e pre IH]; intros Hun.
  - simpl. by rewrite walked_cons_nil.
  - apply untouched_cons in Hun as [He Hun]. specialize (IH Hun).
    rewrite <-app_comm_cons.
    destruct e as [a| | | | | |]; cbn [flush_entries];
      rewrite ?(He _ eq_refl), IH; done.
Qed.

Lemma flush_entries_untouched across m es :
  untouched m es →
  flush_entries across m es = mk_walked es m None None.
Proof.
  intros Hun. rewrite <-(app_nil_r es) at 1.
  rewrite flush_entries_app by done. simpl. unfold walked_cons. simpl.
  by rewrite app_nil_r.
Qed.

(** The walk over blocks without pending change changes nothing. *)
Lemma flush_from_untouched g m n : ∀ i bs,
  (∀ j u, i ≤ j → bs !! j = Some u → untouched m (m_entries u)) →
  flush_from n i g bs m = (bs, m).
Proof.
  induction n as [|n IH]; intros i bs Hun; [done|]. simpl.
  destruct (bs !! i) as [b|] eqn:Hb; [|done].
  rewrite (flush_entries_untouched _ _ _ (Hun i b (le_n _) Hb)). simpl.
  rewrite block_eta, list_insert_id by done.
  apply IH. intros j u Hj. apply Hun. lia.
Qed.

(** A flush with nothing pending leaves the graph as it is. *)
Lemma flush_nothing g : flush g ∅ = (g, ∅).
Proof.
  unfold flush. rewrite flush_from_untouched.
  - by destruct g.
  - intros j u _ _. apply untouched_empty.
Qed.

(** The walk passes the blocks without pending change. *)
Lemma flush_from_skip g m bs k : ∀ n i,
  (∀ j u, i ≤ j < i + k → bs !! j = Some u → untouched m (m_entries u)) →
  i + k ≤ length bs →
  flush_from (k + n) i g bs m = flush_from n (i + k) g bs m.
Proof.
  induction k as [|k IH]; intros n i Hun Hlen.
  - by rewrite Nat.add_0_r.
  - simpl. destruct (lookup_lt_is_Some_2 bs i) as [b Hb]; [lia|].
    rewrite Hb.
    rewrite (flush_entries_untouched _ _ _ (Hun i b ltac:(lia) Hb)). simpl.
    rewrite block_eta, list_insert_id by done.
    rewrite IH; [f_equal; lia| |lia].
    intros j u Hj. apply Hun. lia.
Qed.

(** The walk over a graph in which the first block with a pending change
    is [b], behind [bs1]. *)
Lemma flush_at g bs1 b bs2 m :
  m_blocks g = bs1 ++ b :: bs2 →
  untouched m (mjoin (map m_entries bs1)) →
  m_blocks (flush g m).1 =
    let w := flush_entries (pseudo_across g (m_blocks g) b) m
               (m_entries b) in
    let b' := mkBlock (m_id b) (w_entries w)
                (succs_after (w_cut w) (m_succs b)) in
    let bs' := match w_head w, goto_target g b with
               | Some h, Some t =>
                   map (change_block_head h t) (bs1 ++ b' :: bs2)
               | _, _ => bs1 ++ b' :: bs2
               end in
    (flush_from (length bs2) (S (length bs1)) g bs' (w_changes w)).1.
Proof.
  intros Hg Hun. unfold flush. cbn [fst m_blocks]. rewrite Hg.
  rewrite length_app. cbn [length].
  replace (length bs1 + S (length bs2)) with (length bs1 + S (length bs2) + 0)
    by lia.
  rewrite <-(Nat.add_assoc (length bs1)).
  rewrite (flush_from_skip g m (bs1 ++ b :: bs2) (length bs1)
             (S (length bs2) + 0) 0).
  - cbn [Nat.add flush_from].
    rewrite (list_lookup_middle bs1 bs2 b (length bs1) eq_refl).
    rewrite Nat.add_0_r.
    assert (<[length bs1 := mkBlock (m_id b)
               (w_entries (flush_entries
                  (pseudo_across g (bs1 ++ b :: bs2) b) m (m_entries b)))
               (succs_after (w_cut (flush_entries
                  (pseudo_across g (bs1 ++ b :: bs2) b) m (m_entries b)))
                  (m_succs b))]> (bs1 ++ b :: bs2) =
            bs1 ++ mkBlock (m_id b)
               (w_entries (flush_entries
                  (pseudo_across g (bs1 ++ b :: bs2) b) m (m_entries b)))
               (succs_after (w_cut (flush_entries
                  (pseudo_across g (bs1 ++ b :: bs2) b) m (m_entries b)))
                  (m_succs b)) :: bs2) as ->.
    { rewrite insert_app_r_alt by lia. by rewrite Nat.sub_diag. }
    done.
  - intros j u [_ Hj] Hu. rewrite lookup_app_l in Hu by (simpl in Hj; lia).
    intros a Ha. apply Hun.
    apply list_elem_of_lookup_2 in Hu.
    unfold instructions_of in *.
    apply list_elem_of_omap in Ha as (e & He & Hae).
    apply list_elem_of_omap. exists e. split; [|done].
    apply list_elem_of_join. exists (m_entries u). split; [done|].
    by apply list_elem_of_fmap_2.
  - rewrite length_app. simpl. lia.
Qed.

Lemma walked_cons_untouched across es h rest :
  walked_cons es h (flush_entries across ∅ rest) =
  mk_walked (es ++ rest) ∅ None h.
Proof.
  rewrite flush_entries_untouched by apply untouched_empty.
  unfold walked_cons. simpl. by destruct h.
Qed.

(** The walk through the block of the only anchor with pending changes,
    which it meets behind [pre]. *)
Lemma flush_entries_anchor across pre A post cs :
  addr A ∉ map addr (instructions_of pre) →
  flush_entries across {[addr A := cs]} (pre ++ MFLOW_OPCODE A :: post) =
    walked_cons pre None
      (let p := apply_change cs A post across in
       let m1 := move_behind (p_moved p) post ∅ in
       match p_next p with
       | Stop => mk_walked (p_entries p) m1 (p_cut p) (p_head p)
       | Next =>
           walked_cons (p_entries p) (p_head p)
             (flush_entries across m1 post)
       | BehindPseudo =>
           walked_cons (p_entries p) (p_head p)
             (match post with
              | _ :: rest' => flush_entries across m1 rest'
              | [] => mk_walked [] m1 None None
              end)
       end).
Proof.
  intros Hpre. rewrite flush_entries_app.
  - cbn [flush_entries]. rewrite lookup_singleton_eq.
    by rewrite delete_singleton_eq.
  - intros a Ha. apply lookup_singleton_ne. intros Heq. apply Hpre.
    rewrite Heq. by apply list_elem_of_fmap_2.
Qed.

Lemma not_in_app_pre (a : N) (l1 l2 : list MethodItemEntry) :
  a ∉ map addr (instructions_of (l1 ++ l2)) →
  (a ∉ map addr (instructions_of l1)) ∧
  (a ∉ map addr (instructions_of l2)).
Proof.
  rewrite instructions_of_app, map_app. set_solver.
Qed.

Lemma untouched_single A cs es :
  addr A ∉ map addr (instructions_of es) →
  untouched {[addr A := cs]} es.
Proof.
  intros Hes a Ha. apply lookup_singleton_ne. intros Heq. apply Hes.
  rewrite Heq. by apply list_elem_of_fmap_2.
Qed.

(** The flush of the changes of one anchor, when the walk through its
    block leaves no change pending. *)
Lemma flush_one g bs1 b bs2 pre A post cs es c h :
  m_blocks g = bs1 ++ b :: bs2 →
  m_entries b = pre ++ MFLOW_OPCODE A :: post →
  addr A ∉ map addr
    (instructions_of (mjoin (map m_entries bs1) ++ pre)) →
  flush_entries (pseudo_across g (m_blocks g) b) {[addr A := cs]}
    (m_entries b) = mk_walked es ∅ c h →
  m_blocks (flush g {[addr A := cs]}).1 =
    match h, goto_target g b with
    | Some h, Some t =>
        map (change_block_head h t)
          (bs1 ++ mkBlock (m_id b) es (succs_after c (m_succs b)) :: bs2)
    | _, _ => bs1 ++ mkBlock (m_id b) es (succs_after c (m_succs b)) :: bs2
    end.
Proof.
  intros Hg Hb Hfirst Hwalk. apply not_in_app_pre in Hfirst as [Hbs1 Hpre].
  rewrite (flush_at g bs1 b bs2 _ Hg) by by apply untouched_single.
  cbv zeta. rewrite Hwalk. cbn [w_entries w_cut w_head w_changes].
  rewrite flush_from_untouched; [done|].
  intros j u _ _. apply untouched_empty.
Qed.

Lemma change_head_nop es :
  change_head (mk_head false []) es = (es, None).
Proof.
  unfold change_head. destruct es as [|e rest]; [done|].
  by destruct (is_pseudo_entry e).
Qed.

Lemma change_block_head_nop t b :
  change_block_head (mk_head false []) t b = b.
Proof.
  unfold change_block_head. case_bool_decide; [|done].
  rewrite change_head_nop. simpl. by destruct b.
Qed.

Lemma map_change_block_head_nop t bs :
  map (change_block_head (mk_head false []) t) bs = bs.
Proof.
  induction bs as [|b bs IH]; [done|]. simpl.
  by rewrite change_block_head_nop, IH.
Qed.

(** With distinct ids the change at the head of the block [t] touches
    the block at one position. *)
Lemma map_change_block_head h (bs : list Block) j t :
  NoDup (map m_id bs) → bs !! j = Some t →
  map (change_block_head h (m_id t)) bs =
  <[j := change_block_head h (m_id t) t]> bs.
Proof.
  intros Hnd Hj. apply list_eq. intros k.
  rewrite list_lookup_fmap.
  destruct (decide (k = j)) as [->|Hne].
  - rewrite list_lookup_insert_eq by by eapply lookup_lt_Some.
    by rewrite Hj.
  - rewrite list_lookup_insert_ne by done.
    destruct (bs !! k) as [u|] eqn:Hk; [|done]. simpl. f_equal.
    unfold change_block_head. rewrite bool_decide_eq_false_2; [done|].
    intros Heq. apply Hne.
    apply (NoDup_lookup (map m_id bs) k j (m_id t) Hnd).
    + by rewrite list_lookup_fmap, Hk, <-Heq.
    + by rewrite list_lookup_fmap, Hj.
Qed.

Lemma pseudo_across_intro g (bs : list Block) b e j t P rest :
  get_succ_edge_of_type g b EDGE_GOTO = Some e →
  bs !! j = Some t → m_id t = m_target e →
  m_entries t = MFLOW_OPCODE P :: rest →
  is_move_result_pseudo (IRInstr.opcode (pointee P)) = true →
  pseudo_across g bs b = true.
Proof.
  intros He Hj Hid Ht HP. unfold pseudo_across, goto_target.
  rewrite He. simpl. apply existsb_exists. exists t. split.
  - apply list_elem_of_In. by eapply list_elem_of_lookup_2.
  - rewrite bool_decide_eq_true_2 by done. rewrite Ht. simpl. done.
Qed.

Lemma pseudo_carries_none P :
  is_move_result_pseudo (IRInstr.opcode (pointee P)) = true →
  IRInstr.has_move_result_pseudo (pointee P) = false.
Proof. apply pseudo_has_no_pseudo. Qed.

Section order.
Variables (g : ControlFlowGraph) (bs1 : list Block) (b : Block)
  (bs2 : list Block) (pre : list MethodItemEntry) (A : insn_ptr)
  (post : list MethodItemEntry) (X Y : insn_ptr).
Hypothesis Hg : m_blocks g = bs1 ++ b :: bs2.
Hypothesis Hb : m_entries b = pre ++ MFLOW_OPCODE A :: post.
Hypothesis Hfirst : addr A ∉ map addr
  (instructions_of (mjoin (map m_entries bs1) ++ pre)).
Hypothesis HX : ends_block X = false.
Hypothesis HY : ends_block Y = false.

Lemma stop_at_XY : stop_at [X; Y] = ([X; Y], None).
Proof using HX HY. apply stop_at_none. by repeat constructor. Qed.

Lemma flush_after_plain :
  IRInstr.has_move_result_pseudo (pointee A) = false →
  m_blocks (flush g {[addr A := mkChangeSet [] None [X; Y]]}).1
  = bs1 ++
    mkBlock (m_id b)
      (pre ++ MFLOW_OPCODE A :: MFLOW_OPCODE X :: MFLOW_OPCODE Y :: post)
      (m_succs b) :: bs2.
Proof using Hg Hb Hfirst HX HY.
  intros HA.
  rewrite (flush_one g bs1 b bs2 pre A post _
             (pre ++ MFLOW_OPCODE A :: MFLOW_OPCODE X :: MFLOW_OPCODE Y
                :: post) None None Hg Hb Hfirst); [done|].
  rewrite Hb. rewrite flush_entries_anchor
    by by apply not_in_app_pre in Hfirst as [_ ?].
  unfold apply_change. cbn [m_insert_before
    m_replace m_insert_after].
  rewrite HA, stop_at_XY. cbn [andb stop_at]. cbv zeta.
  cbn [p_next p_moved p_entries p_head move_behind].
  rewrite walked_cons_untouched. unfold walked_cons. simpl. done.
Qed.

Lemma flush_after_pseudo P behind :
  IRInstr.has_move_result_pseudo (pointee A) = true →
  post = MFLOW_OPCODE P :: behind →
  is_move_result_pseudo (IRInstr.opcode (pointee P)) = true →
  m_blocks (flush g {[addr A := mkChangeSet [] None [X; Y]]}).1
  = bs1 ++
    mkBlock (m_id b)
      (pre ++ MFLOW_OPCODE A :: MFLOW_OPCODE P :: MFLOW_OPCODE X ::
         MFLOW_OPCODE Y :: behind)
      (m_succs b) :: bs2.
Proof using Hg Hb Hfirst HX HY.
  intros HA -> HP.
  rewrite (flush_one g bs1 b bs2 pre A (MFLOW_OPCODE P :: behind) _
             (pre ++ MFLOW_OPCODE A :: MFLOW_OPCODE P :: MFLOW_OPCODE X ::
                MFLOW_OPCODE Y :: behind) None None Hg Hb Hfirst); [done|].
  rewrite Hb. rewrite flush_entries_anchor
    by by apply not_in_app_pre in Hfirst as [_ ?].
  unfold apply_change. cbn [m_insert_before
    m_replace m_insert_after].
  rewrite HA. cbn [andb is_pseudo_entry stop_at].
  rewrite HP. cbv zeta.
  cbn [p_next p_moved p_entries p_head move_behind].
  rewrite lookup_empty. cbn [default no_changes
    m_insert_before m_replace
    m_insert_after].
  cbn [flush_entries]. rewrite lookup_insert_eq.
  unfold apply_change. cbn [m_insert_before
    m_replace m_insert_after].
  rewrite (pseudo_carries_none P HP), app_nil_r, stop_at_XY.
  cbn [andb stop_at]. cbv zeta.
  cbn [p_next p_moved p_entries p_head move_behind].
  rewrite delete_insert_eq, delete_empty.
  rewrite walked_cons_untouched. unfold walked_cons. simpl. done.
Qed.

Lemma flush_after_across e j t P rest :
  IRInstr.has_move_result_pseudo (pointee A) = true →
  post = [] →
  get_succ_edge_of_type g b EDGE_GOTO = Some e →
  NoDup (map m_id (m_blocks g)) →
  m_blocks g !! j = Some t → m_id t = m_target e →
  m_entries t = MFLOW_OPCODE P :: rest →
  is_move_result_pseudo (IRInstr.opcode (pointee P)) = true →
  m_blocks (flush g {[addr A := mkChangeSet [] None [X; Y]]}).1
  = <[j := mkBlock (m_id t)
             (MFLOW_OPCODE P :: MFLOW_OPCODE X :: MFLOW_OPCODE Y :: rest)
             (m_succs t)]> (m_blocks g).
Proof using Hg Hb Hfirst HX HY.
  intros HA -> He Hnd Hj Hid Ht HP.
  pose proof (pseudo_across_intro g _ b e j t P rest He Hj Hid Ht HP) as Hac.
  rewrite (flush_one g bs1 b bs2 pre A [] _
             (pre ++ [MFLOW_OPCODE A]) None
             (Some (mk_head false [X; Y])) Hg Hb Hfirst).
  - unfold goto_target. rewrite He. cbn [fmap option_fmap option_map].
    cbn [succs_after]. rewrite <-Hb, block_eta, <-Hg, <-Hid.
    rewrite (map_change_block_head _ _ j t Hnd Hj). f_equal.
    unfold change_block_head. rewrite bool_decide_eq_true_2 by done.
    unfold change_head. rewrite Ht. cbn [is_pseudo_entry].
    rewrite HP. cbn [h_insert h_drop]. rewrite stop_at_XY. done.
  - rewrite Hb. rewrite flush_entries_anchor
      by by apply not_in_app_pre in Hfirst as [_ ?].
    unfold apply_change. cbn [m_insert_before
      m_replace m_insert_after stop_at].
    rewrite HA, Hac. cbn [andb]. cbv zeta.
    cbn [p_next p_moved p_entries p_head move_behind].
    rewrite walked_cons_untouched. unfold walked_cons. simpl. done.
Qed.

Lemma flush_before :
  m_blocks (flush g {[addr A := mkChangeSet [X; Y] None []]}).1
  = bs1 ++
    mkBlock (m_id b)
      (pre ++ MFLOW_OPCODE X :: MFLOW_OPCODE Y :: MFLOW_OPCODE A :: post)
      (m_succs b) :: bs2.
Proof using Hg Hb Hfirst HX HY.
  assert (∃ h,
    flush_entries (pseudo_across g (m_blocks g) b)
      {[addr A := mkChangeSet [X; Y] None []]} (m_entries b) =
    mk_walked
      (pre ++ MFLOW_OPCODE X :: MFLOW_OPCODE Y :: MFLOW_OPCODE A :: post)
      ∅ None h ∧ (h = None ∨ h = Some (mk_head false []))) as (h & Hw & Hh).
  { rewrite Hb. rewrite flush_entries_anchor
      by by apply not_in_app_pre in Hfirst as [_ ?].
    unfold apply_change. cbn [m_insert_before
      m_replace m_insert_after].
    rewrite stop_at_XY. cbv zeta.
    destruct (IRInstr.has_move_result_pseudo (pointee A) &&
              match post with
              | e :: _ => is_pseudo_entry e
              | [] => false
              end) eqn:Hown.
    - cbn [p_next p_moved p_entries p_head move_behind].
      try (assert (move_behind [] post ∅ = ∅) as -> by by destruct post).
      rewrite walked_cons_untouched. eexists. split; [|by left].
      unfold walked_cons. simpl. done.
    - destruct (IRInstr.has_move_result_pseudo (pointee A) &&
                pseudo_across g (m_blocks g) b &&
                match post with [] => true | _ => false end) eqn:Hhead.
      + cbn [p_next p_moved p_entries p_head move_behind].
        try (assert (move_behind [] post ∅ = ∅) as -> by by destruct post).
        rewrite walked_cons_untouched. eexists. split; [|by right].
        unfold walked_cons. simpl. done.
      + cbn [stop_at]. cbv zeta.
        cbn [p_next p_moved p_entries p_head move_behind].
        try (assert (move_behind [] post ∅ = ∅) as -> by by destruct post).
        rewrite walked_cons_untouched. eexists. split; [|by left].
        unfold walked_cons. simpl. done. }
  rewrite (flush_one g bs1 b bs2 pre A post _ _ _ _ Hg Hb Hfirst Hw).
  cbn [succs_after].
  destruct Hh as [->| ->]; [done|].
  destruct (goto_target g b); [|done].
  apply map_change_block_head_nop.
Qed.

End order.

Section replace.
Variables (g : ControlFlowGraph) (bs1 : list Block) (b : Block)
  (bs2 : list Block) (pre : list MethodItemEntry) (A : insn_ptr)
  (post : list MethodItemEntry) (news : list insn_ptr).
Hypothesis Hg : m_blocks g = bs1 ++ b :: bs2.
Hypothesis Hb : m_entries b = pre ++ MFLOW_OPCODE A :: post.
Hypothesis Hfirst : addr A ∉ map addr
  (instructions_of (mjoin (map m_entries bs1) ++ pre)).
Hypothesis HA : IRInstr.has_move_result_pseudo (pointee A) = true.
Hypothesis Hnews : Forall (λ i, ends_block i = false) news.

Lemma flush_replace_pseudo P behind :
  post = MFLOW_OPCODE P :: behind →
  is_move_result_pseudo (IRInstr.opcode (pointee P)) = true →
  m_blocks
    (flush g {[addr A := mkChangeSet [] (Some news) []]}).1 =
  bs1 ++
  mkBlock (m_id b) (pre ++ map MFLOW_OPCODE news ++ behind) (m_succs b)
    :: bs2.
Proof using Hg Hb Hfirst HA Hnews.
  intros -> HP.
  rewrite (flush_one g bs1 b bs2 pre A (MFLOW_OPCODE P :: behind) _
             (pre ++ map MFLOW_OPCODE news ++ behind) None None
             Hg Hb Hfirst); [done|].
  rewrite Hb. rewrite flush_entries_anchor
    by by apply not_in_app_pre in Hfirst as [_ ?].
  unfold apply_change. cbn [m_insert_before
    m_replace m_insert_after].
  rewrite HA, app_nil_r, (stop_at_none news Hnews).
  cbn [andb is_pseudo_entry stop_at]. rewrite HP.
  rewrite andb_false_r. cbv zeta.
  cbn [p_next p_moved p_entries p_head move_behind app].
  rewrite walked_cons_untouched. unfold walked_cons. simpl. done.
Qed.

Lemma flush_replace_across e j t P rest :
  post = [] →
  get_succ_edge_of_type g b EDGE_GOTO = Some e →
  NoDup (map m_id (m_blocks g)) →
  m_blocks g !! j = Some t → j ≠ length bs1 → m_id t = m_target e →
  m_entries t = MFLOW_OPCODE P :: rest →
  is_move_result_pseudo (IRInstr.opcode (pointee P)) = true →
  m_blocks
    (flush g {[addr A := mkChangeSet [] (Some news) []]}).1 =
  <[j := mkBlock (m_id t) rest (m_succs t)]>
    (bs1 ++ mkBlock (m_id b) (pre ++ map MFLOW_OPCODE news) (m_succs b)
       :: bs2).
Proof using Hg Hb Hfirst HA Hnews.
  intros -> He Hnd Hj Hne Hid Ht HP.
  pose proof (pseudo_across_intro g _ b e j t P rest He Hj Hid Ht HP) as Hac.
  rewrite (flush_one g bs1 b bs2 pre A [] _
             (pre ++ map MFLOW_OPCODE news) None
             (Some (mk_head true [])) Hg Hb Hfirst).
  - unfold goto_target. rewrite He. cbn [fmap option_fmap option_map].
    cbn [succs_after]. rewrite <-Hid.
    set (b' := mkBlock (m_id b) (pre ++ map MFLOW_OPCODE news) (m_succs b)).
    assert ((bs1 ++ b' :: bs2) !! j = Some t) as Hj'.
    { rewrite Hg in Hj. destruct (decide (j < length bs1)) as [Hlt|Hge].
      - rewrite lookup_app_l in Hj by done. by rewrite lookup_app_l.
      - rewrite lookup_app_r in Hj by lia. rewrite lookup_app_r by lia.
        destruct (j - length bs1) as [|k] eqn:Hk; [lia|]. done. }
    assert (NoDup (map m_id (bs1 ++ b' :: bs2))) as Hnd'.
    { rewrite Hg in Hnd. rewrite map_app in *. done. }
    rewrite (map_change_block_head _ _ j t Hnd' Hj').
    f_equal. unfold change_block_head.
    rewrite bool_decide_eq_true_2 by done.
    unfold change_head. rewrite Ht. cbn [is_pseudo_entry].
    rewrite HP. done.
  - rewrite Hb. rewrite flush_entries_anchor
      by by apply not_in_app_pre in Hfirst as [_ ?].
    unfold apply_change. cbn [m_insert_before
      m_replace m_insert_after].
    rewrite HA, Hac, app_nil_r, (stop_at_none news Hnews).
    cbn [andb stop_at]. cbv zeta.
    cbn [p_next p_moved p_entries p_head move_behind app].
    rewrite walked_cons_untouched. unfold walked_cons. simpl.
    by rewrite app_nil_r.
Qed.

End replace.

(** *** Orphaned move-result-pseudos *)

Lemma goto_target_graph g g' v : goto_target g v = goto_target g' v.
Proof. reflexivity. Qed.

Lemma entered_behind_primary_true g t :
  entered_behind_primary g t = true ↔
  ∃ k v, m_blocks g !! k = Some v ∧ ends_in_primary v = true ∧
    goto_target g v = Some (m_id t).
Proof.
  unfold entered_behind_primary. rewrite existsb_exists. split.
  - intros (v & Hv & Hf). apply list_elem_of_In in Hv.
    apply list_elem_of_lookup in Hv as [k Hk].
    apply andb_true_iff in Hf as [H1 H2%bool_decide_eq_true]. eauto.
  - intros (k & v & Hk & H1 & H2). exists v. split.
    + apply list_elem_of_In. by eapply list_elem_of_lookup_2.
    + rewrite H1. by rewrite bool_decide_eq_true_2.
Qed.

Lemma graph_no_orphan_true g :
  graph_no_orphan g = true ↔
  ∀ k t, m_blocks g !! k = Some t →
    no_orphan_from (entered_behind_primary g t) (m_entries t)
      = true.
Proof.
  unfold graph_no_orphan. rewrite forallb_forall. split.
  - intros Hall k t Hk. apply Hall, list_elem_of_In.
    by eapply list_elem_of_lookup_2.
  - intros Hall t Ht. apply list_elem_of_In in Ht.
    apply list_elem_of_lookup in Ht as [k Hk]. by eapply Hall.
Qed.

Lemma no_orphan_from_mono p q es :
  (p = true → q = true) →
  no_orphan_from p es = true →
  no_orphan_from q es = true.
Proof.
  intros Hpq. destruct es as [|[i| | | | | |] es]; simpl; try done.
  destruct (is_move_result_pseudo _); [|done].
  intros [Hp ?]%andb_true_iff. by rewrite Hpq.
Qed.

Lemma no_orphan_from_behind_pseudo p P rest :
  is_move_result_pseudo (IRInstr.opcode (pointee P)) = true →
  no_orphan_from p (MFLOW_OPCODE P :: rest) = true →
  no_orphan_from false rest = true.
Proof.
  intros HP. simpl. intros [_ H]%andb_true_iff.
  unfold IRInstr.has_move_result_pseudo, IRInstr.opcode in *.
  by rewrite (pseudo_has_no_pseudo _ HP) in H.
Qed.

Lemma ends_in_primary_entries u u' :
  last (m_entries u) = last (m_entries u') →
  ends_in_primary u = ends_in_primary u'.
Proof. unfold ends_in_primary. by intros ->. Qed.

Section replace_orphan.
Variables (g : ControlFlowGraph) (bs1 : list Block) (b : Block)
  (bs2 : list Block) (pre : list MethodItemEntry) (A : insn_ptr)
  (news : list insn_ptr).
Hypothesis Hg : m_blocks g = bs1 ++ b :: bs2.
Hypothesis Hfree : graph_no_orphan g = true.
Hypothesis Hnews :
  no_orphan (map MFLOW_OPCODE news) = true.

Lemma lookup_block_b : m_blocks g !! length bs1 = Some b.
Proof using Hg. rewrite Hg. by apply list_lookup_middle. Qed.

Lemma no_orphan_replace_pseudo P behind regs :
  m_entries b = pre ++ MFLOW_OPCODE A :: MFLOW_OPCODE P :: behind →
  is_move_result_pseudo (IRInstr.opcode (pointee P)) = true →
  graph_no_orphan
    (mkCFG (bs1 ++
            mkBlock (m_id b) (pre ++ map MFLOW_OPCODE news ++ behind)
              (m_succs b) :: bs2) regs) = true.
Proof using Hg Hfree Hnews.
  intros Hb HP.
  set (b' := mkBlock (m_id b) (pre ++ map MFLOW_OPCODE news ++ behind)
               (m_succs b)).
  set (g' := mkCFG (bs1 ++ b' :: bs2) regs).
  assert (bs1 ++ b' :: bs2 = <[length bs1 := b']> (m_blocks g)) as Hbs'.
  { rewrite Hg, insert_app_r_alt by lia. by rewrite Nat.sub_diag. }
  assert (ends_in_primary b = true → ends_in_primary b' = true) as Hends.
  { unfold ends_in_primary. cbn [m_entries b']. rewrite Hb.
    rewrite (app_assoc pre), !last_app.
    replace (MFLOW_OPCODE A :: MFLOW_OPCODE P :: behind)
      with ([MFLOW_OPCODE A; MFLOW_OPCODE P] ++ behind) by done.
    rewrite last_app. destruct (last behind); [done|]. simpl.
    unfold IRInstr.has_move_result_pseudo, IRInstr.opcode in *.
    by rewrite (pseudo_has_no_pseudo _ HP). }
  assert (∀ u u', m_id u = m_id u' →
            entered_behind_primary g u = true →
            entered_behind_primary g' u' = true) as Hmono.
  { intros u u' Hid (k & v & Hk & H1 & H2)%entered_behind_primary_true.
    apply entered_behind_primary_true.
    destruct (decide (k = length bs1)) as [->|Hne].
    - rewrite lookup_block_b in Hk. injection Hk as <-.
      exists (length bs1), b'. cbn [m_blocks g']. rewrite Hbs'.
      rewrite list_lookup_insert_eq
        by (rewrite Hg, length_app; simpl; lia).
      split; [done|]. split; [by apply Hends|]. by rewrite <-Hid.
    - exists k, v. cbn [m_blocks g']. rewrite Hbs'.
      rewrite list_lookup_insert_ne by done. by rewrite <-Hid. }
  apply graph_no_orphan_true. intros k u' Hk. cbn [m_blocks g'] in Hk.
  rewrite Hbs' in Hk.
  pose proof (proj1 (graph_no_orphan_true g) Hfree) as Hall.
  destruct (decide (k = length bs1)) as [->|Hne].
  - rewrite list_lookup_insert_eq in Hk
      by (rewrite Hg, length_app; simpl; lia).
    injection Hk as <-.
    specialize (Hall _ _ lookup_block_b). rewrite Hb in Hall.
    cbn [m_entries b'].
    apply no_orphan_from_app.
    + apply (no_orphan_from_mono (entered_behind_primary g b)).
      * by apply Hmono.
      * by eapply no_orphan_from_prefix.
    + apply no_orphan_from_app; [done|].
      by eapply no_orphan_from_behind_pair.
  - rewrite list_lookup_insert_ne in Hk by done.
    apply (no_orphan_from_mono (entered_behind_primary g u')).
    + by apply Hmono.
    + by eapply Hall.
Qed.

Lemma no_orphan_replace_across e j t P rest regs :
  m_entries b = pre ++ [MFLOW_OPCODE A] →
  get_succ_edge_of_type g b EDGE_GOTO = Some e →
  NoDup (map m_id (m_blocks g)) →
  m_blocks g !! j = Some t → j ≠ length bs1 → m_id t = m_target e →
  m_entries t = MFLOW_OPCODE P :: rest →
  is_move_result_pseudo (IRInstr.opcode (pointee P)) = true →
  graph_no_orphan
    (mkCFG (<[j := mkBlock (m_id t) rest (m_succs t)]>
              (bs1 ++
               mkBlock (m_id b) (pre ++ map MFLOW_OPCODE news) (m_succs b)
                 :: bs2)) regs) = true.
Proof using Hg Hfree Hnews.
  intros Hb He Hnd Hj Hne Hid Ht HP.
  set (b' := mkBlock (m_id b) (pre ++ map MFLOW_OPCODE news) (m_succs b)).
  set (t' := mkBlock (m_id t) rest (m_succs t)).
  set (g' := mkCFG (<[j := t']> (bs1 ++ b' :: bs2)) regs).
  assert (bs1 ++ b' :: bs2 = <[length bs1 := b']> (m_blocks g)) as Hbs'.
  { rewrite Hg, insert_app_r_alt by lia. by rewrite Nat.sub_diag. }
  assert (length bs1 < length (m_blocks g)) as Hlen
    by (rewrite Hg, length_app; simpl; lia).
  pose proof (lookup_lt_Some _ _ _ Hj) as Hjlen.
  assert (∀ k u, m_blocks g !! k = Some u → m_id u = m_id t → k = j)
    as Honly.
  { intros k u Hk Heq.
    apply (NoDup_lookup (map m_id (m_blocks g)) k j (m_id t) Hnd).
    - by rewrite list_lookup_fmap, Hk, <-Heq.
    - by rewrite list_lookup_fmap, Hj. }
  assert (ends_in_primary t = true → ends_in_primary t' = true) as Hends.
  { unfold ends_in_primary. cbn [m_entries t']. rewrite Ht.
    replace (MFLOW_OPCODE P :: rest) with ([MFLOW_OPCODE P] ++ rest) by done.
    rewrite last_app. destruct (last rest); [done|]. simpl.
    unfold IRInstr.has_move_result_pseudo, IRInstr.opcode in *.
    by rewrite (pseudo_has_no_pseudo _ HP). }
  assert (∀ u u', m_id u = m_id u' → m_id u ≠ m_id t →
            entered_behind_primary g u = true →
            entered_behind_primary g' u' = true) as Hmono.
  { intros u u' Hid' Hnt (k & v & Hk & H1 & H2)%entered_behind_primary_true.
    apply entered_behind_primary_true.
    destruct (decide (k = length bs1)) as [->|Hnek].
    { rewrite lookup_block_b in Hk. injection Hk as <-.
      unfold goto_target in H2. rewrite He in H2. simpl in H2.
      injection H2 as H2. congruence. }
    destruct (decide (k = j)) as [->|Hnej].
    - rewrite Hj in Hk. injection Hk as <-.
      exists j, t'. cbn [m_blocks g'].
      rewrite list_lookup_insert_eq
        by (rewrite Hbs', length_insert; lia).
      split; [done|]. split; [by apply Hends|]. by rewrite <-Hid'.
    - exists k, v. cbn [m_blocks g']. rewrite Hbs'.
      rewrite !list_lookup_insert_ne by done. by rewrite <-Hid'. }
  apply graph_no_orphan_true. intros k u' Hk. cbn [m_blocks g'] in Hk.
  pose proof (proj1 (graph_no_orphan_true g) Hfree) as Hall.
  destruct (decide (k = j)) as [->|Hnej].
  - rewrite list_lookup_insert_eq in Hk
      by (rewrite Hbs', length_insert; lia).
    injection Hk as <-. cbn [m_entries t'].
    specialize (Hall _ _ Hj). rewrite Ht in Hall.
    apply (no_orphan_from_mono false); [done|].
    by eapply no_orphan_from_behind_pseudo.
  - rewrite list_lookup_insert_ne in Hk by done. rewrite Hbs' in Hk.
    destruct (decide (k = length bs1)) as [->|Hnek].
    + rewrite list_lookup_insert_eq in Hk by done. injection Hk as <-.
      specialize (Hall _ _ lookup_block_b). rewrite Hb in Hall.
      cbn [m_entries b']. apply no_orphan_from_app; [|done].
      apply (no_orphan_from_mono (entered_behind_primary g b)).
      * apply Hmono; [done|]. intros Heq.
        apply Hne. symmetry. by eapply Honly; [apply lookup_block_b|].
      * by eapply no_orphan_from_prefix.
    + rewrite list_lookup_insert_ne in Hk by done.
      apply (no_orphan_from_mono (entered_behind_primary g u')).
      * apply Hmono; [done|]. intros Heq. apply Hnej. by eapply Honly.
      * by eapply Hall.
Qed.

End replace_orphan.

(** *** The claims about the buffer *)

Lemma flush_graph g m :
  (flush g m).1 = mkCFG (m_blocks (flush g m).1) (m_registers_size g).
Proof. done. Qed.



End buffer.

(** The blocks of [Examples.across_graph] have distinct ids. *)
Lemma across_graph_ids : NoDup (map m_id (m_blocks Examples.across_graph)).
Proof. vm_compute. repeat constructor; set_solver. Qed.



(** *** The tests of the buffer *)

(** The tests [InsertBefore], [InsertAfter] and [Replacing]. *)
Lemma test_single_change :
  map m_entries <$>
    (m_blocks <$>
     Examples.mutate Examples.basic_graph
       [(CFGMutation.Before, Examples.const_v2', [Examples.const_v1])]) =
  Some [map MFLOW_OPCODE
          [Examples.const_v0; Examples.const_v1; Examples.const_v2';
           Examples.return_void]] ∧
  map m_entries <$>
    (m_blocks <$>
     Examples.mutate Examples.basic_graph
       [(CFGMutation.After, Examples.const_v0, [Examples.const_v1])]) =
  Some [map MFLOW_OPCODE
          [Examples.const_v0; Examples.const_v1; Examples.const_v2';
           Examples.return_void]] ∧
  map m_entries <$>
    (m_blocks <$>
     Examples.mutate Examples.basic_graph
       [(CFGMutation.Replacing, Examples.const_v2', [Examples.const_v1])]) =
  Some [map MFLOW_OPCODE
          [Examples.const_v0; Examples.const_v1; Examples.return_void]].
Proof. vm_compute. done. Qed.

(** The tests [AdjacentChanges] and [Flush]: two insertions queued on one
    buffer, and the same two with a flush between them. *)
Lemma test_AdjacentChanges_Flush :
  map m_entries <$>
    (m_blocks <$>
     Examples.mutate Examples.basic_graph
       [(CFGMutation.After, Examples.const_v0, [Examples.const_v1]);
        (CFGMutation.After, Examples.const_v2',
         [Examples.insn 13 OPCODE_CONST 3 3 []])]) =
  Some [map MFLOW_OPCODE
          [Examples.const_v0; Examples.const_v1; Examples.const_v2';
           Examples.insn 13 OPCODE_CONST 3 3 []; Examples.return_void]] ∧
  map m_entries <$>
    (m_blocks <$>
     (Examples.mutate Examples.basic_graph
        [(CFGMutation.After, Examples.const_v0, [Examples.const_v1])] ≫=
      λ g, Examples.mutate g
             [(CFGMutation.After, Examples.const_v2',
               [Examples.insn 13 OPCODE_CONST 3 3 []])])) =
  Some [map MFLOW_OPCODE
          [Examples.const_v0; Examples.const_v1; Examples.const_v2';
           Examples.insn 13 OPCODE_CONST 3 3 []; Examples.return_void]].
Proof. vm_compute. done. Qed.

(** The test [InsertReturn]: [const v1 1] goes before [const v2 2], and
    behind the [return-void] inserted before [const v1 1] nothing remains of
    its block. *)
Lemma test_InsertReturn :
  map m_entries <$>
    (m_blocks <$>
     Examples.mutate Examples.insert_return_graph
       [(CFGMutation.Before, Examples.insn 8 OPCODE_CONST 2 2 [],
         [Examples.const_v1]);
        (CFGMutation.Before, Examples.insn 6 OPCODE_CONST 1 1 [],
         [Examples.insn 13 OPCODE_RETURN_VOID 0 0 []])]) =
  Some [map MFLOW_OPCODE [Examples.const_v0; Examples.if_eqz];
        map MFLOW_OPCODE [Examples.insn 13 OPCODE_RETURN_VOID 0 0 []];
        map MFLOW_OPCODE
          [Examples.const_v1; Examples.insn 8 OPCODE_CONST 2 2 [];
           Examples.insn 9 OPCODE_RETURN_VOID 0 0 []]].
Proof. vm_compute. reflexivity. Qed.

(** The test [InsertMayThrow]: an [instance-of] and its move-result-pseudo
    inserted after [const v0 0], [const v3 3] replaced by [const v2 2],
    [const v1 1] inserted before [return-void]. *)
Lemma test_InsertMayThrow :
  map m_entries <$>
    (m_blocks <$>
     Examples.mutate Examples.inserts_graph
       [(CFGMutation.After, Examples.const_v0,
         [Examples.instance_of; Examples.move_result_pseudo]);
        (CFGMutation.Replacing, Examples.const_v3, [Examples.const_v2]);
        (CFGMutation.Before, Examples.return_void, [Examples.const_v1])]) =
  Some [map MFLOW_OPCODE
          [Examples.const_v0; Examples.instance_of;
           Examples.move_result_pseudo; Examples.const_v2;
           Examples.const_v1; Examples.return_void]].
Proof. vm_compute. reflexivity. Qed.

(** The test [MultipleChanges]: an insertion after, an insertion before
    the next instruction and a replacement, queued in that order. *)
Lemma test_MultipleChanges :
  map m_entries <$>
    (m_blocks <$>
     Examples.mutate Examples.inserts_graph
       [(CFGMutation.After, Examples.const_v0, [Examples.const_v2]);
        (CFGMutation.Before, Examples.const_v3,
         [Examples.insn 13 OPCODE_CONST 3 3 []]);
        (CFGMutation.Replacing, Examples.const_v0, [Examples.const_v1])]) =
  Some [map MFLOW_OPCODE
          [Examples.const_v1; Examples.const_v2;
           Examples.insn 13 OPCODE_CONST 3 3 []; Examples.const_v3;
           Examples.return_void]].
Proof. vm_compute. reflexivity. Qed.

(** The test [InsertBeforeInstanceOf]. *)
Lemma test_InsertBeforeInstanceOf :
  map m_entries <$>
    (m_blocks <$>
     Examples.mutate Examples.replace_graph
       [(CFGMutation.Before, Examples.instance_of, [Examples.const_v1])]) =
  Some [map MFLOW_OPCODE
          [Examples.const_v0; Examples.const_v1; Examples.instance_of;
           Examples.move_result_pseudo; Examples.return_void]].
Proof. vm_compute. reflexivity. Qed.

(** * Further properties of the code *)

(** ** Further properties of the sweep *)

(** A loop fails as soon as its body fails at one element, whatever state
    reaches that element. *)
Lemma foldM_fails {A B} (f : B → A → option B) (P : B → Prop) l x :
  x ∈ l →
  (∀ b, P b → f b x = None) →
  (∀ b y b', f b y = Some b' → P b → P b') →
  ∀ b, P b → foldM f l b = None.
Proof.
  intros Hx Hfail Hkeep. induction l as [|y l IH]; intros b Hb.
  - by apply elem_of_nil in Hx.
  - simpl. apply elem_of_cons in Hx as [->|Hx].
    + by rewrite Hfail.
    + destruct (f b y) as [b1|] eqn:Hfy; [|done]. simpl. apply IH; [done|].
      by eapply Hkeep.
Qed.

Section sweep_extras.
Context `{Externals} (this : LocalDce.t).

(** *** Domain and sizes *)

Lemma block_step_domain g σ d c b σ' d' c' :
  LocalDce.block_step this g (σ, d, c) b = Some (σ', d', c') →
  is_Some (σ !! m_id b) ∧
  ∀ k, (k ≠ m_id b → σ' !! k = σ !! k) ∧
       option_Forall2 (λ v v' : list bool, length v' = length v)
         (σ !! k) (σ' !! k).
Proof.
  intros (prev & new & Hprev & Hnew & -> & _)%block_step_Some.
  split; [eauto|]. intros k. destruct (decide (k = m_id b)) as [->|Hne].
  - split; [done|]. rewrite lookup_insert_eq, Hprev. constructor.
    by eapply block_live_in_length.
  - rewrite lookup_insert_ne by done. split; [done|].
    destruct (σ !! k); by constructor.
Qed.


Lemma sweep_blocks_shape g bs : ∀ σ d c σ' d' c',
  foldM (LocalDce.block_step this g) bs (σ, d, c) = Some (σ', d', c') →
  (∀ b, b ∈ bs → is_Some (σ !! m_id b)) ∧
  (∀ k, option_Forall2 (λ v v' : list bool, length v' = length v)
          (σ !! k) (σ' !! k)) ∧
  (∀ k, k ∉ map m_id bs → σ' !! k = σ !! k).
Proof.
  induction bs as [|b bs IH]; intros σ d c σ' d' c' Hrun.
  - simpl in Hrun. simplify_eq. split_and!; [set_solver| |done].
    intros k. destruct (σ' !! k); by constructor.
  - apply foldM_cons_Some in Hrun as ([[σ1 d1] c1] & Hstep & Hrun).
    apply block_step_domain in Hstep as [Hb Hstep].
    apply IH in Hrun as (Hdom & Hshape & Hout).
    split_and!.
    + intros b' [->|Hb']%elem_of_cons; [done|].
      destruct (Hdom b' Hb') as [v Hv].
      destruct (Hstep (m_id b')) as [_ Hk]. rewrite Hv in Hk.
      inversion Hk. eauto.
    + intros k. destruct (Hstep k) as [_ H1]. specialize (Hshape k).
      destruct H1 as [v v1 Hl1|]; inversion Hshape; subst; constructor.
      congruence.
    + intros k Hk. rewrite Hout by set_solver.
      apply Hstep. set_solver.
Qed.

(** X1. A sweep that succeeds found a vector for every block it visited,
    and it leaves the map with the same keys and with vectors of the same
    sizes; the vectors of blocks it did not visit are untouched. *)
Theorem sweep_keeps_shape g blocks σ σ' dead changed :
  LocalDce.sweep this g blocks σ = Some (σ', dead, changed) →
  (∀ b, b ∈ blocks → is_Some (σ !! m_id b)) ∧
  (∀ k, is_Some (σ' !! k) ↔ is_Some (σ !! k)) ∧
  (∀ k v v', σ !! k = Some v → σ' !! k = Some v' → length v' = length v) ∧
  (∀ k, k ∉ map m_id blocks → σ' !! k = σ !! k).
Proof.
  intros (Hdom & Hshape & Hout)%sweep_blocks_shape.
  split_and!; [done| | |done].
  - intros k. specialize (Hshape k).
    destruct Hshape; split; intros [? ?]; eauto; done.
  - intros k v v' Hv Hv'. specialize (Hshape k). rewrite Hv, Hv' in Hshape.
    by inversion Hshape.
Qed.

(** *** The stable map is a fixed point *)

Lemma block_step_unchanged g σ d c b σ' d' :
  LocalDce.block_step this g (σ, d, c) b = Some (σ', d', false) →
  σ' = σ ∧ c = false.
Proof.
  intros (prev & new & Hprev & Hnew & -> & Hc)%block_step_Some.
  case_bool_decide as Hne; [done|]. split; [|done].
  subst new. by apply insert_id.
Qed.

Lemma sweep_blocks_unchanged g bs : ∀ σ d c σ' d',
  foldM (LocalDce.block_step this g) bs (σ, d, c) = Some (σ', d', false) →
  σ' = σ ∧ c = false.
Proof.
  induction bs as [|b bs IH]; intros σ d c σ' d' Hrun.
  - simpl in Hrun. by simplify_eq.
  - apply foldM_cons_Some in Hrun as ([[σ1 d1] c1] & Hstep & Hrun).
    apply IH in Hrun as [-> ->].
    by apply block_step_unchanged in Hstep.
Qed.

(** X2. The map with which the loop stops is a fixed point of the sweep:
    one more sweep from it succeeds, changes nothing and records the same
    dead instructions. *)
Theorem stable_is_fixed_point fuel g blocks σ n σ' dead m :
  LocalDce.fixed_point this fuel g blocks σ n = LocalDce.Stable σ' dead m →
  LocalDce.sweep this g blocks σ' = Some (σ', dead, false) ∧
  ∀ fuel', LocalDce.fixed_point this (S fuel') g blocks σ' m =
             LocalDce.Stable σ' dead (S m).
Proof.
  intros (σ0 & Hsweep)%fixed_point_stable.
  assert (σ' = σ0) as ->.
  { unfold LocalDce.sweep in Hsweep.
    by apply sweep_blocks_unchanged in Hsweep as [-> _]. }
  split; [done|]. intros fuel'. simpl. by rewrite Hsweep.
Qed.


(** *** What is removed *)

Lemma walk_dead_at g blocks b st st' :
  b ∈ blocks →
  LocalDce.walk this g b st = Some st' →
  Forall (dead_at this g blocks) st.2 →
  Forall (dead_at this g blocks) st'.2.
Proof.
  intros Hb. unfold LocalDce.walk.
  apply (foldM_invariant (LocalDce.walk_step this g b)
           (λ st, Forall (dead_at this g blocks) st.2)).
  intros [bl d] [k e] [bl' d'] Hit Hstep Hd. cbn [snd] in *.
  apply elem_of_rentries in Hit.
  apply walk_step_dead in Hstep
    as [->|(-> & (insn' & Hin' & Hmrp) & (insn & Hinsn & Hreq))]; [done|].
  cbn [fst snd] in *. subst e.
  unfold it_insn in Hin'. cbn [snd] in Hin'. injection Hin' as <-.
  apply Forall_app. split; [done|]. apply Forall_singleton.
  exists insn, bl. cbn [fst snd]. done.
Qed.


Lemma sweep_dead_at g blocks σ σ' dead changed :
  LocalDce.sweep this g blocks σ = Some (σ', dead, changed) →
  Forall (dead_at this g blocks) dead.
Proof.
  intros Hrun. unfold LocalDce.sweep in Hrun.
  refine (foldM_invariant (LocalDce.block_step this g)
            (λ st, Forall (dead_at this g blocks) (snd (fst st)))
            blocks _ _ _ Hrun _); [|by constructor].
  intros [[σ1 d1] c1] b [[σ2 d2] c2] Hb Hstep Hd. cbn [fst snd] in *.
  unfold LocalDce.block_step in Hstep.
  destruct (σ1 !! m_id b) as [prev|]; [|done]. simpl in Hstep.
  destruct (LocalDce.live_out σ1 b prev) as [out|]; [|done].
  simpl in Hstep.
  destruct (LocalDce.walk this g b (out, d1)) as [[bl3 d3]|] eqn:Hwalk;
    [|done].
  simpl in Hstep. simplify_eq.
  exact (walk_dead_at g blocks b _ _ Hb Hwalk Hd).
Qed.

(** An instruction whose opcode has side effects is rejected by
    [is_required] only as a resolved pure invoke, as a branch with one
    target, or as a switch whose cases all lead to the default target. *)
Lemma not_required_side_effects g b inst bl :
  LocalDce.has_side_effects (IRInstr.opcode inst) = true →
  LocalDce.is_required this g b inst bl = Some false →
  (is_invoke (IRInstr.opcode inst) = true ∧
   ∃ meth, resolve_method (m_union inst) (opcode_to_search inst) = Some meth ∧
     LocalDce.assumenosideeffects this (m_union inst) meth = true) ∨
  (is_conditional_branch (IRInstr.opcode inst) = true ∧
   ∃ goto_edge branch_edge,
     get_succ_edge_of_type g b EDGE_GOTO = Some goto_edge ∧
     get_succ_edge_of_type g b EDGE_BRANCH = Some branch_edge ∧
     m_target goto_edge = m_target branch_edge) ∨
  (is_switch (IRInstr.opcode inst) = true ∧
   ∃ goto_edge,
     get_succ_edge_of_type g b EDGE_GOTO = Some goto_edge ∧
     ∀ branch_edge, branch_edge ∈ get_succ_edges_of_type g b EDGE_BRANCH →
       m_target branch_edge = m_target goto_edge).
Proof.
  intros Hse Hreq.
  destruct (is_invoke (IRInstr.opcode inst)) eqn:Hinv.
  { left. split; [done|].
    rewrite (is_required_invoke this g b inst bl Hinv) in Hreq.
    destruct (resolve_method _ _) as [meth|]; [|done].
    exists meth. split; [done|].
    by destruct (LocalDce.assumenosideeffects this (m_union inst) meth). }
  destruct (is_conditional_branch (IRInstr.opcode inst)) eqn:Hcb.
  { right; left. split; [done|].
    rewrite (is_required_conditional_branch this g b inst bl Hcb) in Hreq.
    destruct (get_succ_edge_of_type g b EDGE_GOTO) as [ge|]; [|done].
    destruct (get_succ_edge_of_type g b EDGE_BRANCH) as [be|]; [|done].
    simpl in Hreq. exists ge, be. split_and!; [done..|].
    injection Hreq as Hreq. apply bool_decide_eq_false in Hreq.
    by apply dec_stable. }
  destruct (is_switch (IRInstr.opcode inst)) eqn:Hsw.
  { right; right. split; [done|].
    rewrite (is_required_switch this g b inst bl Hsw) in Hreq.
    destruct (get_succ_edge_of_type g b EDGE_GOTO) as [ge|]; [|done].
    simpl in Hreq. exists ge. split; [done|].
    injection Hreq as Hreq. intros be Hbe.
    destruct (decide (m_target be = m_target ge)) as [|Hne]; [done|].
    assert (existsb
              (λ branch_edge,
                 bool_decide (m_target ge ≠ m_target branch_edge))
              (get_succ_edges_of_type g b EDGE_BRANCH) = true) as Hex;
      [|congruence].
    apply existsb_exists. exists be. split; [by apply list_elem_of_In|].
    apply bool_decide_eq_true. congruence. }
  unfold LocalDce.is_required in Hreq.
  by rewrite Hse, Hinv, Hcb, Hsw in Hreq.
Qed.

(** X3. What [dce] hands to [remove_insn].  Every pair designates an
    instruction entry at the recorded position of a block of [blocks_post],
    no move-result-pseudo, and one of the recorded dead instructions; if its
    opcode has side effects, it is an invoke of a resolved method accepted as
    pure, a conditional branch whose two edges have one target, or a switch
    whose case edges all lead to the default target.  A return, throw,
    monitor, goto, store, fill-array-data or load-param is never removed. *)
Theorem dce_removes_only_dead fuel g r pair :
  LocalDce.dce this fuel g = LocalDce.DceDone r →
  pair ∈ LocalDce.removed r →
  pair ∈ LocalDce.dead_instructions r ∧
  ∃ insn,
    pair.1 ∈ blocks_post g ∧
    m_entries pair.1 !! pair.2.1 = Some (MFLOW_OPCODE insn) ∧
    pair.2.2 = MFLOW_OPCODE insn ∧
    is_move_result_pseudo (IRInstr.opcode (pointee insn)) = false ∧
    (LocalDce.has_side_effects (IRInstr.opcode (pointee insn)) = true →
     (is_invoke (IRInstr.opcode (pointee insn)) = true ∧
      ∃ meth,
        resolve_method (m_union (pointee insn))
          (opcode_to_search (pointee insn)) = Some meth ∧
        LocalDce.assumenosideeffects this (m_union (pointee insn)) meth =
          true) ∨
     (is_conditional_branch (IRInstr.opcode (pointee insn)) = true ∧
      ∃ goto_edge branch_edge,
        get_succ_edge_of_type g pair.1 EDGE_GOTO = Some goto_edge ∧
        get_succ_edge_of_type g pair.1 EDGE_BRANCH = Some branch_edge ∧
        m_target goto_edge = m_target branch_edge) ∨
     (is_switch (IRInstr.opcode (pointee insn)) = true ∧
      ∃ goto_edge,
        get_succ_edge_of_type g pair.1 EDGE_GOTO = Some goto_edge ∧
        ∀ branch_edge,
          branch_edge ∈ get_succ_edges_of_type g pair.1 EDGE_BRANCH →
          m_target branch_edge = m_target goto_edge)).
Proof.
  intros Hdce Hpair. unfold LocalDce.dce in Hdce.
  destruct (LocalDce.fixed_point _ _ _ _ _ _) as [| |σ dead n] eqn:Hfix;
    [done..|].
  destruct (LocalDce.remove_dead dead) as [calls|] eqn:Hrem; [|done].
  simplify_eq. cbn [LocalDce.removed LocalDce.dead_instructions] in *.
  apply fixed_point_stable in Hfix as (σ0 & Hsweep).
  pose proof (sweep_dead_at _ _ _ _ _ _ Hsweep) as Hdead.
  destruct (remove_dead_once dead) as (calls' & Hrem' & _ & Hsub & _).
  { eapply Forall_impl; [by eapply sweep_dead_recordable|].
    intros p (insn' & -> & _). eauto. }
  rewrite Hrem in Hrem'. simplify_eq.
  pose proof (elem_of_sublist _ _ _ Hpair Hsub) as Hin.
  split; [done|].
  destruct (proj1 (Forall_forall _ _) Hdead _ Hin)
    as (insn & bl & Hb & Hlk & Hit & Hmrp & Hreq).
  exists insn. split_and!; [done..|].
  intros Hse. by eapply not_required_side_effects.
Qed.

End sweep_extras.

(** *** The deletion loop on distinct pointers *)

Lemma remove_loop_distinct dead : ∀ seen removed,
  Forall (λ pair, ∃ a, call_addr pair = Some a ∧ a ∉ seen) dead →
  NoDup (map call_addr dead) →
  ∃ seen', foldM LocalDce.remove_step dead (seen, removed) =
             Some (seen', removed ++ dead).
Proof.
  induction dead as [|pair dead IH]; intros seen removed Hall Hnd.
  - exists seen. by rewrite app_nil_r.
  - apply Forall_cons in Hall as [(a & Ha & Hseen) Hall].
    apply NoDup_cons in Hnd as [Hpair Hnd]. simpl in Hpair.
    unfold call_addr in Ha.
    destruct (it_insn pair.2) as [insn|] eqn:Hinsn; [|done].
    injection Ha as <-.
    assert (LocalDce.remove_step (seen, removed) pair =
            Some ({[addr insn]} ∪ seen, removed ++ [pair])) as Hstep.
    { unfold LocalDce.remove_step. rewrite Hinsn. simpl.
      by rewrite bool_decide_eq_false_2. }
    cbn [foldM]. rewrite Hstep. cbn [mbind option_bind].
    destruct (IH ({[addr insn]} ∪ seen) (removed ++ [pair])) as [seen' Hrun];
      [|done|].
    + apply Forall_forall. intros p Hp.
      destruct (proj1 (Forall_forall _ _) Hall p Hp) as (a & Ha & Hna).
      exists a. split; [done|]. apply not_elem_of_union. split; [|done].
      intros ->%elem_of_singleton. apply Hpair.
      assert (call_addr pair = Some (addr insn)) as ->
        by (unfold call_addr; by rewrite Hinsn).
      rewrite <-Ha. by apply list_elem_of_fmap_2.
    + exists seen'. by rewrite Hrun, <-app_assoc.
Qed.

(** X4. When no instruction pointer is recorded twice, the deletion loop
    hands every recorded pair to [remove_insn], in the order of
    recording. *)
Theorem remove_dead_distinct dead :
  Forall (λ pair, is_Some (it_insn pair.2)) dead →
  NoDup (map call_addr dead) →
  LocalDce.remove_dead dead = Some dead.
Proof.
  intros Hall Hnd. unfold LocalDce.remove_dead.
  destruct (remove_loop_distinct dead ∅ []) as [seen' ->]; [|done..].
  eapply Forall_impl; [done|]. intros pair [insn Hinsn].
  exists (addr insn). unfold call_addr. rewrite Hinsn. set_solver.
Qed.

Section more_sweep_extras.
Context `{Externals} (this : LocalDce.t).

Lemma fixed_point_counts g blocks fuel : ∀ σ k σ' dead m,
  LocalDce.fixed_point this fuel g blocks σ k = LocalDce.Stable σ' dead m →
  k < m.
Proof.
  induction fuel as [|fuel IH]; intros σ k σ' dead m Hrun; simpl in Hrun;
    [done|].
  destruct (LocalDce.sweep this g blocks σ) as [[[σ1 dead1] []]|];
    [| |done].
  - apply IH in Hrun. lia.
  - injection Hrun as _ _ <-. lia.
Qed.

(** X5. The body of the do-while loop runs before its condition is tested:
    a finished run of [dce] made at least one sweep; and on a graph without
    blocks that one sweep is all, nothing is recorded or removed. *)
Theorem dce_sweeps_at_least_once g :
  (∀ fuel r, LocalDce.dce this fuel g = LocalDce.DceDone r →
     1 ≤ LocalDce.sweeps r) ∧
  (blocks_post g = [] →
   ∀ fuel, LocalDce.dce this (S fuel) g =
             LocalDce.DceDone (LocalDce.mk_result ∅ [] [] 1)).
Proof.
  split.
  - intros fuel r. unfold LocalDce.dce.
    destruct (LocalDce.fixed_point _ _ _ _ _ _) as [| |σ dead n] eqn:Hfix;
      [done..|].
    apply fixed_point_counts in Hfix.
    destruct (LocalDce.remove_dead dead); [|done].
    intros [= <-]. simpl. lia.
  - intros Hnil fuel. unfold LocalDce.dce. rewrite Hnil. reflexivity.
Qed.

End more_sweep_extras.

Lemma init_liveness_from regs blocks : ∀ (σ : gmap nat (list bool)) k,
  foldl (λ liveness b,
           match liveness !! m_id b with
           | Some _ => liveness
           | None => <[m_id b := Bitset.make (regs + 1)]> liveness
           end) σ blocks !! k =
  match σ !! k with
  | Some v => Some v
  | None => if bool_decide (k ∈ map m_id blocks)
            then Some (replicate (regs + 1) false) else None
  end.
Proof.
  induction blocks as [|b blocks IH]; intros σ k; simpl.
  - by destruct (σ !! k).
  - rewrite IH. destruct (σ !! m_id b) as [v|] eqn:Hb.
    + destruct (σ !! k) as [w|] eqn:Hk; [done|].
      assert (k ≠ m_id b) by congruence.
      repeat case_bool_decide; set_solver.
    + destruct (decide (k = m_id b)) as [->|Hne].
      * rewrite lookup_insert_eq, Hb.
        by rewrite (bool_decide_eq_true_2 (_ ∈ _ :: _)) by set_solver.
      * rewrite lookup_insert_ne by done.
        destruct (σ !! k); [done|]. repeat case_bool_decide; set_solver.
Qed.

(** X6. The initial map holds, for exactly the ids of the given blocks, a
    vector of [regs + 1] zero bits. *)
Theorem init_liveness_lookup blocks regs k :
  LocalDce.init_liveness blocks regs !! k =
    if bool_decide (k ∈ map m_id blocks)
    then Some (replicate (regs + 1) false) else None.
Proof.
  unfold LocalDce.init_liveness. rewrite init_liveness_from.
  by rewrite lookup_empty.
Qed.

(** *** Live-out *)

Lemma zip_with_orb_diag (a : list bool) : zip_with orb a a = a.
Proof. induction a as [|x a IH]; simpl; [done|]. by rewrite IH, orb_diag. Qed.

Lemma lookup_zip_with_orb (a c : list bool) p :
  length a = length c →
  zip_with orb a c !! p = Some true ↔
  a !! p = Some true ∨ c !! p = Some true.
Proof.
  intros Hlen. rewrite lookup_zip_with.
  destruct (a !! p) as [x|] eqn:Ha; simpl.
  - destruct (c !! p) as [y|] eqn:Hc; simpl.
    + destruct x, y; simpl; naive_solver.
    + apply lookup_ge_None in Hc. apply lookup_lt_Some in Ha. lia.
  - split; [done|]. intros [?|Hc]; [done|].
    apply lookup_ge_None in Ha. apply lookup_lt_Some in Hc. lia.
Qed.

(** One turn of the loop over the successors adds to [bliveness] what the
    edge contributes. *)
Lemma live_out_step_contribution σ b prev bl s :
  LocalDce.live_out_step σ b prev bl s =
  successor_live_in σ b prev s ≫= Bitset.or_assign bl.
Proof.
  unfold LocalDce.live_out_step, successor_live_in.
  case_bool_decide as Hself.
  - cbn [mbind option_bind].
    destruct (Bitset.or_assign bl prev) as [bl1|] eqn:Hor; [|done].
    cbn [mbind option_bind]. rewrite Hself, lookup_insert_eq.
    cbn [mbind option_bind]. unfold Bitset.or_assign.
    rewrite decide_True by done. by rewrite zip_with_orb_diag.
  - cbn [mbind option_bind]. by rewrite lookup_insert_ne by done.
Qed.

Lemma live_out_fold σ b prev succs : ∀ a out,
  foldM (LocalDce.live_out_step σ b prev) succs a = Some out →
  length out = length a ∧
  ∀ p, out !! p = Some true ↔
       a !! p = Some true ∨
       ∃ s v, s ∈ succs ∧ successor_live_in σ b prev s = Some v ∧
              v !! p = Some true.
Proof.
  induction succs as [|s succs IH]; intros a out Hrun.
  - simpl in Hrun. simplify_eq. split; [done|]. intros p. split; [auto|].
    intros [?|(s & v & Hs & _)]; [done|]. by apply elem_of_nil in Hs.
  - apply foldM_cons_Some in Hrun as (a1 & Hstep & Hrun).
    rewrite live_out_step_contribution in Hstep.
    apply bind_Some in Hstep as (v & Hv & [Hlen ->]%or_assign_Some).
    apply IH in Hrun as [Hlen' Hout]. split.
    + rewrite Hlen', length_zip_with. lia.
    + intros p. rewrite Hout, lookup_zip_with_orb by done. split.
      * intros [[?|?]|(s' & v' & Hs' & Hv' & Hp)]; [by left| |].
        -- right. exists s, v. split_and!; [left|done..].
        -- right. exists s', v'. split_and!; [by right|done..].
      * intros [?|(s' & v' & [->|Hs']%elem_of_cons & Hv' & Hp)].
        -- by left; left.
        -- left; right. congruence.
        -- right. eauto.
Qed.

(** X7. The live-out of a block is the union of what its edges contribute:
    a bit is live-out exactly when it is set in the vector of the target of
    some edge, where a self-loop contributes the vector the block had in the
    previous sweep.  The result has the size of that previous vector. *)
Theorem live_out_is_union σ b prev out :
  LocalDce.live_out σ b prev = Some out →
  length out = length prev ∧
  ∀ p, out !! p = Some true ↔
       ∃ s v, s ∈ m_succs b ∧
         ((m_target s = m_id b ∧ v = prev) ∨
          (m_target s ≠ m_id b ∧ σ !! m_target s = Some v)) ∧
         v !! p = Some true.
Proof.
  unfold LocalDce.live_out. intros [Hlen Hout]%live_out_fold.
  split; [rewrite Hlen; apply length_replicate|].
  intros p. rewrite Hout. split.
  - intros [Hzero|(s & v & Hs & Hv & Hp)].
    + unfold Bitset.reset_all in Hzero.
      by apply lookup_replicate in Hzero as [? _].
    + exists s, v. split_and!; [done| |done].
      unfold successor_live_in in Hv. case_bool_decide; [left|right];
        split; congruence.
  - intros (s & v & Hs & Hv & Hp). right. exists s, v.
    split_and!; [done| |done]. unfold successor_live_in.
    destruct Hv as [[Heq ->]|[Hne Hv]].
    + by rewrite bool_decide_eq_true_2.
    + by rewrite bool_decide_eq_false_2.
Qed.

Lemma live_out_bad_edge σ b prev s :
  s ∈ m_succs b →
  m_target s ≠ m_id b →
  (σ !! m_target s = None ∨
   ∃ v, σ !! m_target s = Some v ∧ length v ≠ length prev) →
  LocalDce.live_out σ b prev = None.
Proof.
  intros Hs Hne Hbad. unfold LocalDce.live_out.
  apply (foldM_fails _ (λ bl : list bool, length bl = length prev) _ s Hs).
  - intros bl Hlen. rewrite live_out_step_contribution.
    unfold successor_live_in. rewrite bool_decide_eq_false_2 by done.
    destruct Hbad as [->|(v & -> & Hv)]; [done|].
    cbn [mbind option_bind]. unfold Bitset.or_assign.
    rewrite decide_False; [done|congruence].
  - intros bl s' bl' Hstep Hlen.
    apply live_out_step_length in Hstep. congruence.
  - apply length_replicate.
Qed.

(** X8. [liveness.at] on an edge: when an edge of the block leaves for
    another block that has no vector in the map, or one of another size than
    the block's own, the computation of the live-out fails. *)
Theorem live_out_fails_without_vector σ b prev s :
  s ∈ m_succs b →
  m_target s ≠ m_id b →
  (σ !! m_target s = None ∨
   ∃ v, σ !! m_target s = Some v ∧ length v ≠ length prev) →
  LocalDce.live_out σ b prev = None.
Proof. apply live_out_bad_edge. Qed.

Section abort.
Context `{Externals} (this : LocalDce.t).

(** X9. [dce] needs the blocks it is given to be closed under successors:
    if an edge of one of the blocks of [blocks_post] leaves for a block that
    is not among them, the first sweep fails on the missing vector and the
    run aborts. *)
Theorem dce_aborts_on_open_edge fuel g b s :
  b ∈ blocks_post g →
  s ∈ m_succs b →
  m_target s ∉ map m_id (blocks_post g) →
  LocalDce.dce this (S fuel) g = LocalDce.DceAborted.
Proof.
  intros Hb Hs Hopen.
  assert (m_target s ≠ m_id b) as Hne.
  { intros Heq. apply Hopen. rewrite Heq. by apply list_elem_of_fmap_2. }
  unfold LocalDce.dce. cbn [LocalDce.fixed_point].
  set (σ0 := LocalDce.init_liveness (blocks_post g) (m_registers_size g)).
  assert (σ0 !! m_target s = None) as Hnone.
  { subst σ0. apply eq_None_not_Some. intros [v Hv].
    pose proof (init_liveness_zero _ _ _ _ Hv) as ->.
    revert Hv. unfold LocalDce.init_liveness.
    rewrite init_liveness_from, lookup_empty.
    by rewrite bool_decide_eq_false_2. }
  assert (LocalDce.sweep this g (blocks_post g) σ0 = None) as ->; [|done].
  unfold LocalDce.sweep.
  apply (foldM_fails (LocalDce.block_step this g)
           (λ st, st.1.1 !! m_target s = None) _ b Hb).
  - intros [[σ d] c] Hσ. cbn [fst] in Hσ. unfold LocalDce.block_step.
    destruct (σ !! m_id b) as [prev|]; [|done]. cbn [mbind option_bind].
    rewrite (live_out_bad_edge σ b prev s); auto.
  - intros [[σ d] c] b' [[σ' d'] c'] Hstep Hσ. cbn [fst] in *.
    apply block_step_domain in Hstep as [_ Hstep].
    destruct (Hstep (m_target s)) as [_ Hshape]. rewrite Hσ in Hshape.
    by inversion Hshape.
  - done.
Qed.

End abort.

(** *** Bounds of [update_liveness] *)

Lemma foldM_set_Some srcs : ∀ bs,
  is_Some (foldM Bitset.set srcs bs) ↔ ∀ s, s ∈ srcs → s < length bs.
Proof.
  induction srcs as [|s srcs IH]; intros bs.
  - simpl. split; [intros _ s Hs; by apply elem_of_nil in Hs|eauto].
  - split.
    + intros [bs' Hrun].
      apply foldM_cons_Some in Hrun as (bs1 & [Hs ->]%set_Some & Hrun).
      intros s' [->|Hs']%elem_of_cons; [done|].
      assert (is_Some (foldM Bitset.set srcs (<[s:=true]> bs))) as Hsome
        by eauto.
      pose proof (proj1 (IH _) Hsome) as Hall.
      rewrite length_insert in Hall. auto.
    + intros Hall. destruct (foldM_set_lookup (s :: srcs) bs Hall)
        as (bs' & -> & _). eauto.
Qed.

(** X10. [update_liveness] fails exactly on a position outside the vector:
    it succeeds if and only if the destination register (when the
    instruction has one) and every source register are positions of the
    vector, and the vector is not empty when the return-value slot is
    written.  It never changes the size of the vector. *)
Theorem update_liveness_in_range inst bl :
  (is_Some (LocalDce.update_liveness inst bl) ↔
     (IRInstr.has_dest inst = true → m_dest inst < length bl) ∧
     (∀ s, s ∈ m_srcs inst → s < length bl) ∧
     (rv_class inst || is_move_result_any (IRInstr.opcode inst) = true →
      0 < length bl)) ∧
  (∀ bl', LocalDce.update_liveness inst bl = Some bl' →
     length bl' = length bl).
Proof.
  split; [|apply update_liveness_length]. split.
  - intros [bl' Hrun].
    pose proof (update_liveness_Some _ _ _ Hrun)
      as (bl1 & bl2 & bl3 & H1 & H2 & H3 & H4).
    pose proof (if_reset_length _ _ _ _ H1) as Hl1.
    pose proof (if_reset_length _ _ _ _ H2) as Hl2.
    pose proof (foldM_set_length _ _ _ H3) as Hl3.
    split_and!.
    + intros Hd. rewrite Hd in H1. by apply reset_Some in H1 as [? _].
    + assert (is_Some (foldM Bitset.set (m_srcs inst) bl2)) as Hsome by eauto.
      pose proof (proj1 (foldM_set_Some _ _) Hsome) as Hall. intros s Hs.
      specialize (Hall s Hs). lia.
    + intros [Hc|Hm]%orb_true_iff.
      * rewrite Hc in H2. apply reset_Some in H2 as [? _]. lia.
      * rewrite Hm in H4. apply set_Some in H4 as [? _]. lia.
  - intros (Hdest & Hsrcs & Hrv). unfold LocalDce.update_liveness.
    fold (rv_class inst). unfold IRInstr.dest.
    set (bl1 := if IRInstr.has_dest inst then <[m_dest inst := false]> bl
                else bl).
    assert ((if IRInstr.has_dest inst
             then (if IRInstr.has_dest inst then Some (m_dest inst)
                   else None) ≫= λ d, Bitset.reset bl d
             else Some bl) = Some bl1) as ->.
    { subst bl1. destruct (IRInstr.has_dest inst); [|done]. simpl.
      apply reset_Some. auto. }
    assert (length bl1 = length bl) as Hl1.
    { subst bl1. destruct (IRInstr.has_dest inst);
        by rewrite ?length_insert. }
    cbn [mbind option_bind].
    assert (∃ bl2, (if rv_class inst
                    then Bitset.reset bl1 (LocalDce.rv_slot bl1)
                    else Some bl1) = Some bl2 ∧ length bl2 = length bl)
      as (bl2 & -> & Hl2).
    { destruct (rv_class inst); [|eauto]. eexists. split.
      - apply reset_Some. split; [|done].
        unfold LocalDce.rv_slot, Bitset.size. specialize (Hrv eq_refl). lia.
      - by rewrite length_insert. }
    cbn [mbind option_bind].
    destruct (foldM_set_lookup (m_srcs inst) bl2)
      as (bl3 & -> & Hl3 & _).
    { intros s Hs. rewrite Hl2. auto. }
    cbn [mbind option_bind].
    destruct (is_move_result_any _) eqn:Hm; [|eauto].
    eexists. apply set_Some. split; [|done].
    unfold LocalDce.rv_slot, Bitset.size.
    rewrite orb_true_r in Hrv. specialize (Hrv eq_refl). lia.
Qed.

(** *** Monotony of the walk through a block *)

Section monotone.
Context `{Externals} (this : LocalDce.t).

Lemma is_required_mono g b inst a b0 r :
  bs_le a b0 →
  LocalDce.is_required this g b inst a = Some true →
  LocalDce.is_required this g b inst b0 = Some r →
  r = true.
Proof.
  intros Hle Ha Hb.
  destruct (is_required_shape this g b inst)
    as [[r' Hr]|[(_ & _ & Hr)|(_ & Hr)]]; rewrite !Hr in *.
  - congruence.
  - apply (bs_le_lookup _ _ _ Hle) in Ha. congruence.
  - rewrite (rv_slot_length a b0) in Ha by by apply bs_le_length.
    apply (bs_le_lookup _ _ _ Hle) in Ha. congruence.
Qed.

Lemma walk_step_fewer_dead g b a b0 da db it a' b' da' db' :
  bs_le a b0 → db ⊆ da →
  LocalDce.walk_step this g b (a, da) it = Some (a', da') →
  LocalDce.walk_step this g b (b0, db) it = Some (b', db') →
  db' ⊆ da'.
Proof.
  intros Hle Hsub Ha Hb.
  pose proof (walk_step_Some this _ _ _ _ _ _ _ Ha) as Hsa.
  pose proof (walk_step_dead this _ _ _ _ _ _ _ Ha) as Hda.
  pose proof (walk_step_dead this _ _ _ _ _ _ _ Hb) as Hdb.
  destruct Hdb as [->|(-> & _ & (insn & Hit & Hrb))].
  { destruct Hda as [->|(-> & _)]; set_solver. }
  (* recorded above: then not required below, and recorded below *)
  rewrite Hit in Hsa.
  destruct Hsa as [[Hra _]|[Hra _]].
  { pose proof (is_required_mono _ _ _ _ _ _ Hle Hra Hrb). done. }
  assert (da' = da ++ [(b, it)]) as ->; [|set_solver].
  revert Ha Hb. unfold LocalDce.walk_step. rewrite Hit, Hra, Hrb.
  cbn [mbind option_bind].
  destruct (negb _); intros Ha Hb.
  - by injection Ha as _ <-.
  - injection Hb as _ Hdb.
    apply (f_equal length) in Hdb. rewrite length_app in Hdb.
    simpl in Hdb. lia.
Qed.

Lemma walk_fold_monotone g b its : ∀ a b0 da db a' b' da' db',
  bs_le a b0 → db ⊆ da →
  foldM (LocalDce.walk_step this g b) its (a, da) = Some (a', da') →
  foldM (LocalDce.walk_step this g b) its (b0, db) = Some (b', db') →
  bs_le a' b' ∧ db' ⊆ da'.
Proof.
  induction its as [|it its IH]; intros a b0 da db a' b' da' db' Hle Hsub Ha Hb.
  - simpl in *. by simplify_eq.
  - apply foldM_cons_Some in Ha as ([a1 da1] & Ha1 & Ha).
    apply foldM_cons_Some in Hb as ([b1 db1] & Hb1 & Hb).
    refine (IH _ _ _ _ _ _ _ _ _ _ Ha Hb).
    + exact (walk_step_mono this _ _ _ _ _ _ _ _ _ _ _ Hle Ha1 Hb1).
    + exact (walk_step_fewer_dead _ _ _ _ _ _ _ _ _ _ _ Hle Hsub Ha1 Hb1).
Qed.

(** X11. The walk through a block is monotone in the live-out it starts
    from: from a larger live-out it ends with a larger live-in, and every
    instruction it records as dead is also recorded from the smaller
    live-out. *)
Theorem walk_monotone g b a b0 a' b' da db :
  bs_le a b0 →
  LocalDce.walk this g b (a, []) = Some (a', da) →
  LocalDce.walk this g b (b0, []) = Some (b', db) →
  bs_le a' b' ∧ db ⊆ da.
Proof.
  intros Hle Ha Hb.
  exact (walk_fold_monotone g b _ _ _ _ _ _ _ _ _ Hle (reflexivity _) Ha Hb).
Qed.

End monotone.

(** *** The dataflow equations *)

Section equations.
Context `{Externals} (this : LocalDce.t).

Lemma sweep_blocks_equations g bs : ∀ σ d σ' d',
  foldM (LocalDce.block_step this g) bs (σ, d, false) = Some (σ', d', false) →
  ∀ b, b ∈ bs →
    is_Some (σ !! m_id b) ∧ block_live_in this g b σ = σ !! m_id b.
Proof.
  induction bs as [|b0 bs IH]; intros σ d σ' d' Hrun b Hb.
  - by apply elem_of_nil in Hb.
  - apply foldM_cons_Some in Hrun as ([[σ1 d1] c1] & Hstep & Hrun).
    pose proof (sweep_blocks_unchanged this g bs _ _ _ _ _ Hrun) as [-> ->].
    pose proof (block_step_unchanged this g _ _ _ _ _ _ Hstep) as [-> _].
    apply elem_of_cons in Hb as [->|Hb]; [|by eapply IH].
    apply block_step_Some in Hstep as (prev & new & Hprev & Hnew & _ & Hc).
    rewrite Hprev, Hnew. split; [by eexists|].
    case_bool_decide as Hne; [done|]. f_equal.
    by destruct (decide (new = prev)).
Qed.

(** X12. The liveness with which [dce] ends solves the dataflow equations:
    every block of [blocks_post] has a vector, and the vector is what the
    reverse walk through the block makes of the block's live-out under that
    same map. *)
Theorem dce_liveness_solves_equations fuel g r b :
  LocalDce.dce this fuel g = LocalDce.DceDone r →
  b ∈ blocks_post g →
  ∃ prev out dead,
    LocalDce.final_liveness r !! m_id b = Some prev ∧
    LocalDce.live_out (LocalDce.final_liveness r) b prev = Some out ∧
    LocalDce.walk this g b (out, []) = Some (prev, dead).
Proof.
  unfold LocalDce.dce. intros Hdce Hb.
  destruct (LocalDce.fixed_point _ _ _ _ _ _) as [| |σ' dead n] eqn:Hfix;
    [done..|].
  destruct (LocalDce.remove_dead dead); [|done].
  injection Hdce as <-. cbn [LocalDce.final_liveness].
  apply fixed_point_stable in Hfix as (σ0 & Hsweep).
  unfold LocalDce.sweep in Hsweep.
  pose proof (sweep_blocks_unchanged this g _ _ _ _ _ _ Hsweep) as [-> _].
  destruct (sweep_blocks_equations g _ _ _ _ _ Hsweep b Hb)
    as [[prev Hprev] Heq].
  rewrite Hprev in Heq. unfold block_live_in in Heq. rewrite Hprev in Heq.
  cbn [mbind option_bind] in Heq.
  destruct (LocalDce.live_out σ0 b prev) as [out|] eqn:Hout; [|done].
  cbn [mbind option_bind] in Heq.
  destruct (LocalDce.walk this g b (out, [])) as [[new dd]|] eqn:Hwalk;
    [|done].
  cbn in Heq. injection Heq as ->. by exists prev, out, dd.
Qed.

End equations.

(** ** Setters and typed accessors of [IRInstruction] *)

(** X13. [set_src] succeeds exactly on an index below [srcs_size]; the
    source it wrote is read back by [src], every other source and the
    opcode, destination and operand stay as they were. *)
Theorem set_src_then_src k reg i :
  (is_Some (IRAccess.set_src k reg i) ↔ k < IRInstr.srcs_size i) ∧
  (IRInstr.src i k = None ↔ IRInstr.srcs_size i ≤ k) ∧
  ∀ i', IRAccess.set_src k reg i = Some i' →
    IRInstr.src i' k = Some reg ∧
    (∀ j, j ≠ k → IRInstr.src i' j = IRInstr.src i j) ∧
    IRInstr.srcs_size i' = IRInstr.srcs_size i ∧
    m_opcode i' = m_opcode i ∧ m_dest i' = m_dest i ∧
    m_union i' = m_union i.
Proof.
  unfold IRAccess.set_src, IRInstr.src, IRInstr.srcs_size. split_and!.
  - destruct (decide _); split; intros Hs; eauto; try lia;
      by destruct Hs.
  - apply lookup_ge_None.
  - intros i' Hset. destruct (decide _) as [Hk|]; [|done].
    injection Hset as <-. simpl. split_and!; try done.
    + by apply list_lookup_insert_eq.
    + intros j Hj. by apply list_lookup_insert_ne.
    + apply length_insert.
Qed.

(** X14. [set_srcs_size] takes its count as a [uint16_t]: [srcs_size]
    becomes the count reduced modulo [2 ^ 16], which is the count itself
    below [2 ^ 16] and 0 for [2 ^ 16].  The sources below the old and the new
    size are kept, the added ones are register 0, and resizing to the
    current size changes nothing as long as that size fits in 16 bits. *)
Theorem set_srcs_size_resizes count i :
  IRInstr.srcs_size (IRAccess.set_srcs_size count i) = count `mod` 2 ^ 16 ∧
  (count < 2 ^ 16 →
   IRInstr.srcs_size (IRAccess.set_srcs_size count i) = count) ∧
  IRInstr.srcs_size (IRAccess.set_srcs_size (2 ^ 16) i) = 0 ∧
  (∀ k, IRInstr.src (IRAccess.set_srcs_size count i) k =
        if decide (k < count `mod` 2 ^ 16)
        then Some (default 0 (IRInstr.src i k)) else None) ∧
  (IRInstr.srcs_size i < 2 ^ 16 →
   IRAccess.set_srcs_size (IRInstr.srcs_size i) i = i).
Proof.
  unfold IRAccess.set_srcs_size, IRInstr.src, IRInstr.srcs_size.
  cbn [m_srcs]. split_and!.
  - apply length_resize.
  - intros Hc. rewrite length_resize. by apply Nat.mod_small.
  - rewrite length_resize. apply Nat.Div0.mod_same.
  - intros k. generalize (count `mod` 2 ^ 16). intros n.
    destruct (decide (k < n)) as [Hk|Hk].
    + destruct (decide (k < length (m_srcs i))) as [Hl|Hl].
      * rewrite lookup_resize by done.
        by destruct (lookup_lt_is_Some_2 _ _ Hl) as [x ->].
      * rewrite lookup_resize_new by lia.
        by rewrite (proj2 (lookup_ge_None _ _)) by lia.
    + apply lookup_resize_old. lia.
  - intros Hs. rewrite Nat.mod_small by done. rewrite resize_all.
    by destruct i.
Qed.

(** X15. [set_dest] and [dest] assert the same predicate, [has_dest]: both
    succeed exactly on an opcode with a destination.  [dest] reads back the
    register [set_dest] wrote, and nothing else of the instruction changed.
    [set_opcode] asserts nothing and keeps the stored register, which [dest]
    reads under the new opcode if that has a destination. *)
Theorem set_dest_then_dest reg i :
  (is_Some (IRAccess.set_dest reg i) ↔ IRInstr.has_dest i = true) ∧
  (is_Some (IRInstr.dest i) ↔ IRInstr.has_dest i = true) ∧
  (∀ i', IRAccess.set_dest reg i = Some i' →
     IRInstr.dest i' = Some reg ∧ m_opcode i' = m_opcode i ∧
     m_union i' = m_union i ∧ m_srcs i' = m_srcs i) ∧
  ∀ op, IRInstr.dest (IRAccess.set_opcode op i) =
        if Opcode.has_dest op then Some (m_dest i) else None.
Proof.
  unfold IRAccess.set_dest, IRInstr.dest, IRInstr.has_dest.
  split_and!.
  - destruct (Opcode.has_dest _); split; intros Hs; eauto; try done;
      by destruct Hs.
  - destruct (Opcode.has_dest _); split; intros Hs; eauto; try done;
      by destruct Hs.
  - intros i' Hset. destruct (Opcode.has_dest (m_opcode i)) eqn:Hd; [|done].
    injection Hset as <-. simpl. by rewrite Hd.
  - done.
Qed.

(** Reading an [int64_t] back from the union gives the value written. *)
Lemma to_int64_of_int64 v :
  (- 2 ^ 63 ≤ v < 2 ^ 63)%Z →
  IRAccess.to_int64 (IRAccess.of_int64 v) = v.
Proof.
  intros Hv. unfold IRAccess.to_int64, IRAccess.of_int64.
  rewrite Z2N.id by (apply Z.mod_pos_bound; lia).
  rewrite Z.mod_mod by lia.
  destruct (decide (0 ≤ v)%Z) as [Hpos|Hneg].
  - rewrite Z.mod_small by lia.
    destruct (Z.ltb_spec v (2 ^ 63)); lia.
  - assert (v `mod` 2 ^ 64 = v + 2 ^ 64)%Z as ->.
    { symmetry. apply (Z.mod_unique_pos _ _ (-1)); lia. }
    destruct (Z.ltb_spec (v + 2 ^ 64) (2 ^ 63)); lia.
Qed.

Lemma to_int64_range w :
  (- 2 ^ 63 ≤ IRAccess.to_int64 w < 2 ^ 63)%Z.
Proof.
  unfold IRAccess.to_int64.
  pose proof (Z.mod_pos_bound (Z.of_N w) (2 ^ 64)).
  cbv zeta. destruct (Z.ltb_spec (Z.of_N w `mod` 2 ^ 64) (2 ^ 63)); lia.
Qed.

(** X16. The literal.  Without a literal operand [set_literal] and
    [get_literal] both fail.  With one, [get_literal] answers a value in the
    range of [int64_t], [set_literal] succeeds and changes neither opcode,
    destination nor sources, and [get_literal] reads back the value written:
    the value itself when it is an [int64_t], and in any case a value
    congruent to it modulo [2 ^ 64]. *)
Theorem set_literal_then_get_literal v i :
  (IRInstr.has_literal i = false →
   IRAccess.set_literal v i = None ∧ IRAccess.get_literal i = None) ∧
  (IRInstr.has_literal i = true →
   (∃ w, IRAccess.get_literal i = Some w ∧ (- 2 ^ 63 ≤ w < 2 ^ 63)%Z) ∧
   ∃ i', IRAccess.set_literal v i = Some i' ∧
     m_opcode i' = m_opcode i ∧ m_dest i' = m_dest i ∧
     m_srcs i' = m_srcs i ∧
     ((- 2 ^ 63 ≤ v < 2 ^ 63)%Z → IRAccess.get_literal i' = Some v) ∧
     ∃ w, IRAccess.get_literal i' = Some w ∧
          (w `mod` 2 ^ 64 = v `mod` 2 ^ 64)%Z).
Proof.
  unfold IRAccess.set_literal, IRAccess.get_literal, IRInstr.has_literal.
  split; intros Hl; rewrite Hl; [done|]. split.
  { eexists; split; [done|]. apply to_int64_range. }
  eexists; split; [done|]. simpl. rewrite Hl. split_and!; try done.
  - intros Hv. by rewrite to_int64_of_int64.
  - eexists; split; [done|].
    unfold IRAccess.to_int64, IRAccess.of_int64.
    rewrite Z2N.id by (apply Z.mod_pos_bound; lia).
    rewrite Z.mod_mod by lia. cbv zeta.
    destruct (Z.ltb_spec (v `mod` 2 ^ 64) (2 ^ 63)).
    + by rewrite Z.mod_mod by lia.
    + rewrite <-(Z.mod_add _ 1) by lia.
      replace (v `mod` 2 ^ 64 - 2 ^ 64 + 1 * 2 ^ 64)%Z
        with (v `mod` 2 ^ 64)%Z by lia.
      by rewrite Z.mod_mod by lia.
Qed.

(** X17. The operand is one word read under six names, of which the
    opcode allows one.  Once [set_method] has succeeded, [get_method] reads
    the reference back, the getters of the other five kinds fail, the setters
    of the other pointer kinds fail on the same instruction, and of the
    gatherers only [gather_methods] collects the reference. *)
Theorem set_method_then_typed_getters ptr i i' :
  IRAccess.set_method ptr i = Some i' →
  IRInstr.has_method i = true ∧
  IRInstr.get_method i' = Some ptr ∧
  IRAccess.get_string i' = None ∧ IRAccess.get_type i' = None ∧
  IRAccess.get_field i' = None ∧ IRAccess.get_data i' = None ∧
  IRAccess.get_literal i' = None ∧
  (∀ p, IRAccess.set_string p i = None ∧ IRAccess.set_type p i = None ∧
        IRAccess.set_field p i = None ∧ IRAccess.set_data p i = None) ∧
  IRAccess.gather_methods [] i' = [ptr] ∧
  IRAccess.gather_strings [] i' = [] ∧ IRAccess.gather_fields [] i' = [].
Proof.
  unfold IRAccess.set_method, IRAccess.set_pointer, IRInstr.get_method,
    IRAccess.get_string, IRAccess.get_type, IRAccess.get_field,
    IRAccess.get_data, IRAccess.get_pointer, IRAccess.get_literal,
    IRAccess.set_string, IRAccess.set_type, IRAccess.set_field,
    IRAccess.set_data, IRAccess.gather_methods, IRAccess.gather_strings,
    IRAccess.gather_fields,
    IRInstr.has_method, IRInstr.has_string, IRInstr.has_type,
    IRInstr.has_field, IRInstr.has_data, IRInstr.has_literal.
  destruct (Ref_eqb (Opcode.ref (m_opcode i)) RefMethod) eqn:Hm; [|done].
  intros [= <-]. simpl. apply Ref_eqb_eq in Hm. rewrite Hm.
  split_and!; try done. intros p. unfold IRAccess.set_pointer.
  by rewrite Hm.
Qed.

(** X18. The gatherers only append: each leaves the vector it is given
    as a prefix of its result, what it appends is what the getter of its
    kind returns, and over the three of them at most one reference is
    appended for an instruction. *)
Theorem gather_adds_at_most_one ls lf lm i :
  ∃ s f m,
    IRAccess.gather_strings ls i = ls ++ s ∧
    IRAccess.gather_fields lf i = lf ++ f ∧
    IRAccess.gather_methods lm i = lm ++ m ∧
    length s + length f + length m ≤ 1 ∧
    m = option_list (IRInstr.get_method i) ∧
    s = option_list (IRAccess.get_string i) ∧
    f = option_list (IRAccess.get_field i).
Proof.
  unfold IRAccess.gather_strings, IRAccess.gather_fields,
    IRAccess.gather_methods, IRInstr.get_method, IRAccess.get_string,
    IRAccess.get_field, IRAccess.get_pointer,
    IRInstr.has_method, IRInstr.has_string, IRInstr.has_field.
  exists (option_list (IRAccess.get_string i)),
    (option_list (IRAccess.get_field i)),
    (option_list (IRInstr.get_method i)).
  unfold IRInstr.get_method, IRAccess.get_string,
    IRAccess.get_field, IRAccess.get_pointer,
    IRInstr.has_method, IRInstr.has_string, IRInstr.has_field.
  destruct (Opcode.ref (m_opcode i)); simpl;
    rewrite ?app_nil_r; split_and!; try done; lia.
Qed.

(** ** Helpers of the resource tests *)

(** X19. [make_big_string] asserts [len > 4]; the string it returns has
    exactly [len] characters: it starts with [aa], ends with [zz], and
    everything between is [x]. *)
Theorem make_big_string_length len :
  (is_Some (ResTest.make_big_string len) ↔ 4 < len) ∧
  ∀ s, ResTest.make_big_string len = Some s →
    length s = len ∧
    take 2 s = ["a"; "a"]%char ∧
    drop (len - 2) s = ["z"; "z"]%char ∧
    ∀ k, 2 ≤ k < len - 2 → s !! k = Some "x"%char.
Proof.
  unfold ResTest.make_big_string. split.
  - destruct (decide _); split; intros Hs; eauto; try lia; by destruct Hs.
  - intros s Hs. destruct (decide _) as [Hlen|]; [|done].
    injection Hs as <-. cbn [app]. split_and!.
    + cbn [length]. rewrite length_app, length_replicate. simpl. lia.
    + done.
    + replace (len - 2) with (S (S (len - 4))) by lia. cbn [drop].
      apply drop_app_length'. by rewrite length_replicate.
    + intros [|[|k]] Hk; [lia..|]. simpl.
      rewrite lookup_app_l by (rewrite length_replicate; lia).
      apply lookup_replicate_2. lia.
Qed.

(** Bits below [k] and bits from [k] on: the union is the sum. *)
Lemma lor_disjoint a e k :
  (0 ≤ k)%Z →
  Z.lor (a * 2 ^ k) (e `mod` 2 ^ k) = (a * 2 ^ k + e `mod` 2 ^ k)%Z.
Proof.
  intros Hk. rewrite <-Z.lxor_lor, Z.add_nocarry_lxor; [done| |].
  all: apply Z.bits_inj'; intros n Hn; rewrite Z.land_spec, Z.bits_0.
  all: destruct (decide (n < k)%Z);
    [ rewrite Z.mul_pow2_bits_low by lia; done
    | rewrite Z.mod_pow2_bits_high by lia; apply andb_false_r ].
Qed.

(** X20. The id under which the test [AppendNewType] expects a copied
    entry: for a [uint8_t] type the three fields do not overlap, so the id
    has package [0x7f], the destination type as its type byte, and the entry
    number of the old id. *)
Theorem new_id_fields dest_type old_id :
  (0 ≤ dest_type < 2 ^ 8)%Z →
  let n := ResTest.new_id dest_type old_id in
  n = (0x7f * 2 ^ 24 + dest_type * 2 ^ 16 + old_id `mod` 2 ^ 16)%Z ∧
  Z.shiftr n 24 = 0x7f%Z ∧
  Z.land (Z.shiftr n 16) 0xff = dest_type ∧
  Z.land n 0xFFFF = Z.land old_id 0xFFFF.
Proof.
  intros Hd n.
  assert (n = 0x7f * 2 ^ 24 + dest_type * 2 ^ 16 + old_id `mod` 2 ^ 16)%Z
    as Hn.
  { unfold n, ResTest.new_id.
    change 0xFFFF%Z with (Z.ones 16). rewrite Z.land_ones by lia.
    rewrite Z.shiftl_mul_pow2 by lia.
    change 0x7f000000%Z with (0x7f00 * 2 ^ 16)%Z.
    rewrite <-(Z.shiftl_mul_pow2 0x7f00), <-(Z.shiftl_mul_pow2 dest_type),
      <-Z.shiftl_lor by lia.
    change 0x7f00%Z with (0x7f * 2 ^ 8)%Z.
    rewrite <-(Z.mod_small dest_type (2 ^ 8)) at 1 by lia.
    rewrite lor_disjoint by lia. rewrite Z.mod_small by lia.
    rewrite Z.shiftl_mul_pow2 by lia.
    rewrite lor_disjoint by lia. rewrite ?Z.shiftl_mul_pow2 by lia. lia. }
  split; [done|]. rewrite Hn.
  pose proof (Z.mod_pos_bound old_id (2 ^ 16)).
  split_and!.
  - rewrite Z.shiftr_div_pow2 by lia.
    symmetry. apply (Z.div_unique_pos _ _ _
      (dest_type * 2 ^ 16 + old_id `mod` 2 ^ 16)); lia.
  - rewrite Z.shiftr_div_pow2 by lia.
    change 0xff%Z with (Z.ones 8). rewrite Z.land_ones by lia.
    assert ((0x7f * 2 ^ 24 + dest_type * 2 ^ 16 + old_id `mod` 2 ^ 16)
              `div` 2 ^ 16 = 0x7f * 2 ^ 8 + dest_type)%Z as ->.
    { symmetry. apply (Z.div_unique_pos _ _ _ (old_id `mod` 2 ^ 16)); lia. }
    symmetry. apply (Z.mod_unique_pos _ _ 0x7f); lia.
  - change 0xFFFF%Z with (Z.ones 16). rewrite !Z.land_ones by lia.
    symmetry.
    apply (Z.mod_unique_pos _ _ (0x7f * 2 ^ 8 + dest_type)); lia.
Qed.

(** ** The properties on the sample inputs *)

(** One sweep over [Examples.loop_graph] from the initial map. *)
Lemma sweep_keeps_shape_witness :
  ∃ σ' dead changed,
    LocalDce.sweep (H := Examples.ext) Examples.pass Examples.loop_graph
      (m_blocks Examples.loop_graph)
      (LocalDce.init_liveness (m_blocks Examples.loop_graph) 2) =
      Some (σ', dead, changed) ∧
    ∀ k, is_Some (σ' !! k) ↔
         is_Some (LocalDce.init_liveness (m_blocks Examples.loop_graph) 2
                    !! k).
Proof.
  destruct (LocalDce.sweep (H := Examples.ext) Examples.pass
              Examples.loop_graph (m_blocks Examples.loop_graph)
              (LocalDce.init_liveness (m_blocks Examples.loop_graph) 2))
    as [[[σ' dead] changed]|] eqn:Hsweep;
    [|vm_compute in Hsweep; discriminate Hsweep].
  exists σ', dead, changed. split; [reflexivity|].
  exact (proj1 (proj2 (sweep_keeps_shape (H := Examples.ext) Examples.pass
                         _ _ _ _ _ _ Hsweep))).
Defined.

(** The loop on [Examples.loop_graph] stops with a map that one more sweep
    leaves as it is. *)
Lemma stable_is_fixed_point_witness :
  ∃ σ' dead m,
    LocalDce.fixed_point (H := Examples.ext) Examples.pass 10
      Examples.loop_graph (m_blocks Examples.loop_graph)
      (LocalDce.init_liveness (m_blocks Examples.loop_graph) 2) 0 =
      LocalDce.Stable σ' dead m ∧
    LocalDce.sweep (H := Examples.ext) Examples.pass Examples.loop_graph
      (m_blocks Examples.loop_graph) σ' = Some (σ', dead, false).
Proof.
  destruct (LocalDce.fixed_point (H := Examples.ext) Examples.pass 10
              Examples.loop_graph (m_blocks Examples.loop_graph)
              (LocalDce.init_liveness (m_blocks Examples.loop_graph) 2) 0)
    as [| |σ' dead m] eqn:Hfix;
    [vm_compute in Hfix; discriminate Hfix..|].
  exists σ', dead, m. split; [reflexivity|].
  exact (proj1 (stable_is_fixed_point (H := Examples.ext) Examples.pass
                  _ _ _ _ _ _ _ _ Hfix)).
Defined.

(** The branch of [Examples.same_target_graph] is removed, and it is one of
    the recorded dead instructions. *)
Lemma dce_removes_only_dead_witness :
  ∃ r,
    LocalDce.dce (H := Examples.ext) Examples.pass 3
      Examples.same_target_graph = LocalDce.DceDone r ∧
    (Examples.same_target_block, (1, MFLOW_OPCODE Examples.if_eqz))
      ∈ LocalDce.removed r ∧
    (Examples.same_target_block, (1, MFLOW_OPCODE Examples.if_eqz))
      ∈ LocalDce.dead_instructions r.
Proof.
  destruct (LocalDce.dce (H := Examples.ext) Examples.pass 3
              Examples.same_target_graph) as [| |r] eqn:Hdce;
    [vm_compute in Hdce; discriminate Hdce..|].
  assert ((Examples.same_target_block, (1, MFLOW_OPCODE Examples.if_eqz))
            ∈ LocalDce.removed r) as Hin.
  { vm_compute in Hdce. injection Hdce as <-.
    apply (list_elem_of_lookup_2 _ 0). reflexivity. }
  exists r. split; [reflexivity|]. split; [exact Hin|].
  exact (proj1 (dce_removes_only_dead (H := Examples.ext) Examples.pass
                  _ _ _ _ Hdce Hin)).
Defined.

(** Two distinct instructions of [Examples.inserts_block]. *)
Lemma remove_dead_distinct_witness :
  LocalDce.remove_dead
    [(Examples.inserts_block, (0, MFLOW_OPCODE Examples.const_v0));
     (Examples.inserts_block, (1, MFLOW_OPCODE Examples.const_v3))] =
  Some [(Examples.inserts_block, (0, MFLOW_OPCODE Examples.const_v0));
        (Examples.inserts_block, (1, MFLOW_OPCODE Examples.const_v3))].
Proof.
  apply remove_dead_distinct.
  - repeat constructor; eexists; reflexivity.
  - vm_compute. repeat constructor; set_solver.
Defined.

(** The loop block of [Examples.loop_graph], with [v1] live in the block of
    the return and [v0] live in the block itself after the previous
    sweep. *)
Lemma live_out_is_union_witness :
  LocalDce.live_out {[2 := [false; true; false]]}
    (mkBlock 1 [] [mkEdge 1 2 EDGE_GOTO; mkEdge 1 1 EDGE_BRANCH])
    [true; false; false] = Some [true; true; false] ∧
  length [true; true; false] = length [true; false; false].
Proof.
  assert (LocalDce.live_out {[2 := [false; true; false]]}
            (mkBlock 1 [] [mkEdge 1 2 EDGE_GOTO; mkEdge 1 1 EDGE_BRANCH])
            [true; false; false] = Some [true; true; false]) as Hout
    by reflexivity.
  split; [exact Hout|].
  exact (proj1 (live_out_is_union _ _ _ _ Hout)).
Defined.

(** The same block over a map without the block of the return. *)
Lemma live_out_fails_without_vector_witness :
  LocalDce.live_out ∅
    (mkBlock 1 [] [mkEdge 1 2 EDGE_GOTO; mkEdge 1 1 EDGE_BRANCH])
    [true; false; false] = None.
Proof.
  apply (live_out_fails_without_vector _ _ _ (mkEdge 1 2 EDGE_GOTO)).
  - apply (list_elem_of_lookup_2 _ 0). reflexivity.
  - simpl. lia.
  - left. reflexivity.
Defined.

(** A block whose only edge leaves for a block 5 that the graph does not
    list. *)
Lemma dce_aborts_on_open_edge_witness :
  LocalDce.dce (H := Examples.ext) Examples.pass 1
    (mkCFG [mkBlock 0 [MFLOW_OPCODE Examples.return_void]
              [mkEdge 0 5 EDGE_GOTO]] 0) =
  LocalDce.DceAborted.
Proof.
  apply (dce_aborts_on_open_edge (H := Examples.ext) Examples.pass 0 _
           (mkBlock 0 [MFLOW_OPCODE Examples.return_void]
              [mkEdge 0 5 EDGE_GOTO])
           (mkEdge 0 5 EDGE_GOTO)).
  - apply (list_elem_of_lookup_2 _ 0). reflexivity.
  - apply (list_elem_of_lookup_2 _ 0). reflexivity.
  - simpl. set_solver.
Defined.

(** [Examples.same_target_block] walked with nothing live and with
    everything live: with nothing live the [const] is recorded too. *)
Lemma walk_monotone_witness :
  ∃ a' b' da db,
    LocalDce.walk (H := Examples.ext) Examples.pass
      Examples.same_target_graph Examples.same_target_block
      ([false; false], []) = Some (a', da) ∧
    LocalDce.walk (H := Examples.ext) Examples.pass
      Examples.same_target_graph Examples.same_target_block
      ([true; true], []) = Some (b', db) ∧
    length da = 2 ∧ length db = 1 ∧
    bs_le a' b' ∧ db ⊆ da.
Proof.
  destruct (LocalDce.walk (H := Examples.ext) Examples.pass
              Examples.same_target_graph Examples.same_target_block
              ([false; false], [])) as [[a' da]|] eqn:Ha;
    [|vm_compute in Ha; discriminate Ha].
  destruct (LocalDce.walk (H := Examples.ext) Examples.pass
              Examples.same_target_graph Examples.same_target_block
              ([true; true], [])) as [[b' db]|] eqn:Hb;
    [|vm_compute in Hb; discriminate Hb].
  assert (bs_le [false; false] [true; true]) as Hle
    by (repeat constructor).
  exists a', b', da, db. split; [reflexivity|]. split; [reflexivity|].
  split; [vm_compute in Ha; by injection Ha as <- <-|].
  split; [vm_compute in Hb; by injection Hb as <- <-|].
  exact (walk_monotone (H := Examples.ext) Examples.pass _ _ _ _ _ _ _ _
           Hle Ha Hb).
Defined.

(** An [invoke-static] whose method reference is set to 9. *)
Lemma set_method_then_typed_getters_witness :
  IRAccess.set_method 9 (Examples.invoke_static 3) =
    Some (Examples.invoke_static 9) ∧
  IRInstr.get_method (Examples.invoke_static 9) = Some 9%N ∧
  IRAccess.get_literal (Examples.invoke_static 9) = None.
Proof.
  assert (IRAccess.set_method 9 (Examples.invoke_static 3) =
            Some (Examples.invoke_static 9)) as Hset by reflexivity.
  split; [exact Hset|].
  destruct (set_method_then_typed_getters _ _ _ Hset)
    as (_ & Hget & _ & _ & _ & _ & Hlit & _).
  split; [exact Hget|exact Hlit].
Defined.

(** The values of the test: type 3 and the id [0x7f010000] give
    [0x7f030000]. *)
Lemma new_id_fields_witness :
  ResTest.new_id 3 0x7f010000 = 0x7f030000%Z ∧
  Z.land (Z.shiftr (ResTest.new_id 3 0x7f010000) 16) 0xff = 3%Z.
Proof.
  split; [reflexivity|].
  assert (0 ≤ 3 < 2 ^ 8)%Z as Hd by lia.
  exact (proj1 (proj2 (proj2 (new_id_fields 3 0x7f010000 Hd)))).
Defined.

(** The loop block of [Examples.loop_graph] under the final liveness. *)
Lemma dce_liveness_solves_equations_witness :
  ∃ r, LocalDce.dce (H := Examples.ext) Examples.pass 10
         Examples.loop_graph = LocalDce.DceDone r ∧
    ∃ prev out dead,
      LocalDce.final_liveness r !! 1 = Some prev ∧
      LocalDce.live_out (LocalDce.final_liveness r)
        (mkBlock 1 [MFLOW_OPCODE (Examples.insn 2 OPCODE_ADD_INT 1 0 [1; 0]);
                    MFLOW_OPCODE (Examples.insn 3 OPCODE_IF_EQZ 0 0 [1])]
           [mkEdge 1 2 EDGE_GOTO; mkEdge 1 1 EDGE_BRANCH]) prev = Some out ∧
      LocalDce.walk (H := Examples.ext) Examples.pass Examples.loop_graph
        (mkBlock 1 [MFLOW_OPCODE (Examples.insn 2 OPCODE_ADD_INT 1 0 [1; 0]);
                    MFLOW_OPCODE (Examples.insn 3 OPCODE_IF_EQZ 0 0 [1])]
           [mkEdge 1 2 EDGE_GOTO; mkEdge 1 1 EDGE_BRANCH]) (out, []) =
        Some (prev, dead).
Proof.
  destruct (LocalDce.dce (H := Examples.ext) Examples.pass 10
              Examples.loop_graph) as [| |r] eqn:Hdce;
    [vm_compute in Hdce; discriminate Hdce..|].
  exists r. split; [reflexivity|].
  refine (dce_liveness_solves_equations (H := Examples.ext) Examples.pass
            10 Examples.loop_graph r
            (mkBlock 1
               [MFLOW_OPCODE (Examples.insn 2 OPCODE_ADD_INT 1 0 [1; 0]);
                MFLOW_OPCODE (Examples.insn 3 OPCODE_IF_EQZ 0 0 [1])]
               [mkEdge 1 2 EDGE_GOTO; mkEdge 1 1 EDGE_BRANCH]) Hdce _).
  apply (list_elem_of_lookup_2 _ 1). reflexivity.
Defined.

(** ** [dce] on a well-formed graph *)

(** A loop whose body succeeds under an invariant succeeds. *)
Lemma foldM_total {A B} (f : B → A → option B) (P : B → Prop) l :
  (∀ b x, x ∈ l → P b → ∃ b', f b x = Some b' ∧ P b') →
  ∀ b, P b → ∃ b', foldM f l b = Some b' ∧ P b'.
Proof.
  induction l as [|x l IH]; intros Hstep b Hb; simpl; [eauto|].
  destruct (Hstep b x) as (b1 & -> & Hb1); [set_solver|done|]. simpl.
  apply IH; [|done]. intros b0 y Hy. apply Hstep. set_solver.
Qed.

Section total.
Context `{Externals} (this : LocalDce.t).

Lemma is_required_total g b inst regs bl :
  registers_below regs inst → edges_present g b inst →
  length bl = regs + 1 →
  is_Some (LocalDce.is_required this g b inst bl).
Proof.
  intros [Hdest _] [Hcb Hsw] Hlen.
  assert (is_Some (Bitset.test bl (LocalDce.rv_slot bl))) as Hrv.
  { apply lookup_lt_is_Some. unfold LocalDce.rv_slot, Bitset.size. lia. }
  destruct (is_invoke (IRInstr.opcode inst)) eqn:Hinv.
  { rewrite (is_required_invoke this g b inst bl Hinv).
    destruct (resolve_method _ _); [|done].
    by destruct (LocalDce.assumenosideeffects _ _ _). }
  destruct (is_conditional_branch (IRInstr.opcode inst)) eqn:Hc.
  { rewrite (is_required_conditional_branch this g b inst bl Hc).
    destruct (Hcb eq_refl) as [[e1 ->] [e2 ->]]. done. }
  destruct (is_switch (IRInstr.opcode inst)) eqn:Hs.
  { rewrite (is_required_switch this g b inst bl Hs).
    destruct (Hsw eq_refl) as [e1 ->]. done. }
  unfold LocalDce.is_required. rewrite Hinv, Hc, Hs.
  destruct (LocalDce.has_side_effects _); [done|].
  unfold IRInstr.dest.
  destruct (IRInstr.has_dest inst) eqn:Hd.
  - simpl. apply lookup_lt_is_Some. specialize (Hdest eq_refl). lia.
  - by destruct (_ || _).
Qed.

Lemma walk_step_total g b regs it bl dead :
  (∀ insn, it.2 = MFLOW_OPCODE insn →
     registers_below regs (pointee insn) ∧
     edges_present g b (pointee insn)) →
  length bl = regs + 1 →
  ∃ bl' dead', LocalDce.walk_step this g b (bl, dead) it = Some (bl', dead') ∧
    length bl' = regs + 1.
Proof.
  intros Hwf Hlen. unfold LocalDce.walk_step.
  destruct it as [k [insn| | | | | |]]; simpl; eauto.
  destruct (Hwf insn eq_refl) as [Hregs Hedges].
  destruct (is_required_total g b _ regs bl Hregs Hedges Hlen) as [r ->].
  simpl. destruct r.
  - destruct Hregs as [Hd Hs].
    destruct (update_liveness_lookup (pointee insn) bl)
      as (bl' & -> & Hlen' & _).
    + lia.
    + intros Hdest. specialize (Hd Hdest). lia.
    + intros s Hin. specialize (Hs s Hin). lia.
    + simpl. eexists _, _. split; [done|]. lia.
  - destruct (negb _); eauto.
Qed.

Lemma walk_total g b regs bl dead :
  (∀ insn, MFLOW_OPCODE insn ∈ m_entries b →
     registers_below regs (pointee insn) ∧
     edges_present g b (pointee insn)) →
  length bl = regs + 1 →
  ∃ bl' dead', LocalDce.walk this g b (bl, dead) = Some (bl', dead') ∧
    length bl' = regs + 1.
Proof.
  intros Hwf Hlen. unfold LocalDce.walk.
  destruct (foldM_total (LocalDce.walk_step this g b)
              (λ st, length st.1 = regs + 1) (rentries b))
    with (b := (bl, dead)) as ([bl' dead'] & Hrun & Hlen'); [|done|eauto].
  intros [bl0 dead0] [k e] Hin Hlen0. simpl in Hlen0.
  apply elem_of_rentries in Hin.
  destruct (walk_step_total g b regs (k, e) bl0 dead0)
    as (bl1 & dead1 & -> & Hlen1); [|done|by eexists].
  intros insn Heq. simpl in Heq. subst e. apply Hwf.
  by eapply list_elem_of_lookup_2.
Qed.

Lemma live_out_total (σ : gmap nat (list bool)) b n prev :
  (∀ s, s ∈ m_succs b → m_target s ≠ m_id b →
     ∃ v, σ !! m_target s = Some v ∧ length v = n) →
  length prev = n →
  ∃ out, LocalDce.live_out σ b prev = Some out ∧ length out = n.
Proof.
  intros Hsucc Hprev. unfold LocalDce.live_out.
  apply (foldM_total (LocalDce.live_out_step σ b prev)
           (λ bl, length bl = n) (m_succs b)).
  - intros bl s Hs Hlen. unfold LocalDce.live_out_step.
    case_bool_decide as Hself.
    + rewrite (proj2 (or_assign_Some bl prev _)
                 (conj (eq_trans Hlen (eq_sym Hprev)) eq_refl)).
      simpl. rewrite Hself, lookup_insert_eq. simpl.
      eexists. split; [apply or_assign_Some; split; [|done]|].
      * by rewrite length_zip_with, Hlen, Hprev, Nat.min_id.
      * rewrite !length_zip_with. lia.
    + simpl. rewrite lookup_insert_ne by done.
      destruct (Hsucc s Hs Hself) as (v & -> & Hv). simpl.
      eexists. split; [apply or_assign_Some; split; [lia|done]|].
      rewrite length_zip_with. lia.
  - unfold Bitset.reset_all. by rewrite length_replicate.
Qed.

Lemma block_step_total g blocks b σ d c :
  well_formed g blocks → b ∈ blocks →
  covers blocks (m_registers_size g + 1) σ →
  ∃ σ' d' c', LocalDce.block_step this g (σ, d, c) b = Some (σ', d', c') ∧
    covers blocks (m_registers_size g + 1) σ'.
Proof.
  intros [Hclosed Hinsns] Hb [Hdom Hsized]. unfold LocalDce.block_step.
  destruct (Hdom (m_id b)) as [prev Hprev]; [by apply list_elem_of_fmap_2|].
  rewrite Hprev. simpl.
  destruct (live_out_total σ b (m_registers_size g + 1) prev)
    as (out & -> & Hout).
  { intros s Hs _. destruct (Hdom (m_target s)) as [v Hv]; [by eapply Hclosed|].
    exists v. split; [done|]. by eapply Hsized. }
  { by eapply Hsized. }
  simpl.
  destruct (walk_total g b (m_registers_size g) out d)
    as (bl' & d' & -> & Hlen); [by intros; eapply Hinsns|done|].
  simpl. eexists _, _, _. split; [done|]. split.
  - intros k Hk. destruct (decide (k = m_id b)) as [->|Hne].
    + rewrite lookup_insert_eq. by eexists.
    + rewrite lookup_insert_ne by done. by apply Hdom.
  - intros k v. destruct (decide (k = m_id b)) as [->|Hne].
    + rewrite lookup_insert_eq. by intros [= <-].
    + rewrite lookup_insert_ne by done. apply Hsized.
Qed.

Lemma sweep_total g blocks σ :
  well_formed g blocks →
  covers blocks (m_registers_size g + 1) σ →
  ∃ σ' dead changed,
    LocalDce.sweep this g blocks σ = Some (σ', dead, changed) ∧
    covers blocks (m_registers_size g + 1) σ'.
Proof.
  intros Hwf Hcov. unfold LocalDce.sweep.
  destruct (foldM_total (LocalDce.block_step this g)
              (λ st, covers blocks (m_registers_size g + 1) st.1.1) blocks)
    with (b := (σ, @nil (Block * iterator), false))
    as ([[σ' dead] ch] & Hrun & Hcov'); [|done|by eexists _, _, _].
  intros [[σ0 d0] c0] b Hb Hcov0.
  destruct (block_step_total g blocks b σ0 d0 c0 Hwf Hb Hcov0)
    as (σ1 & d1 & c1 & -> & Hcov1). by eexists.
Qed.

Lemma fixed_point_not_aborted g blocks fuel : ∀ σ k,
  well_formed g blocks →
  covers blocks (m_registers_size g + 1) σ →
  LocalDce.fixed_point this fuel g blocks σ k ≠ LocalDce.Aborted.
Proof.
  induction fuel as [|fuel IH]; intros σ k Hwf Hcov; [done|]. simpl.
  destruct (sweep_total g blocks σ Hwf Hcov)
    as (σ' & dead & changed & -> & Hcov').
  destruct changed; [by apply IH|done].
Qed.

Lemma init_liveness_covers blocks regs :
  covers blocks (regs + 1) (LocalDce.init_liveness blocks regs).
Proof.
  split; [|apply init_liveness_sized].
  intros k Hk. unfold LocalDce.init_liveness.
  rewrite init_liveness_from, lookup_empty.
  rewrite bool_decide_eq_true_2 by done. by eexists.
Qed.


End total.

Section branch_claim.
Context `{Externals} (this : LocalDce.t).

(** With enough fuel, [dce] finishes on a well-formed graph. *)
Lemma dce_finishes g fuel :
  ids_identify (blocks_post g) →
  well_formed g (blocks_post g) →
  length (blocks_post g) * (m_registers_size g + 1) + 1 ≤ fuel →
  ∃ r, LocalDce.dce this fuel g = LocalDce.DceDone r.
Proof.
  intros Hids Hwf Hfuel. unfold LocalDce.dce.
  destruct (fixed_point_bounded this g (blocks_post g)
              (m_registers_size g + 1) fuel
              (LocalDce.init_liveness (blocks_post g) (m_registers_size g))
              0 Hids (init_liveness_sized _ _)
              (init_liveness_prefixpoint this _ _ _)) as [Hrun _].
  pose proof (fixed_point_not_aborted this g (blocks_post g) fuel _ 0 Hwf
                (init_liveness_covers _ _)) as Hna.
  destruct (LocalDce.fixed_point _ _ _ _ _ _) as [| |σ dead n] eqn:Hfix.
  - destruct Hrun; [lia|done].
  - done.
  - apply fixed_point_stable in Hfix as (σ0 & Hsweep).
    destruct (remove_dead_once dead) as (calls & -> & _).
    { eapply Forall_impl; [by eapply sweep_dead_recordable|].
      intros pair (insn' & -> & _). eauto. }
    by eexists.
Qed.

(** C1. For a conditional branch in a block with GOTO edge [goto_edge] and
    BRANCH edge [branch_edge], [is_required] answers, and answers true if
    and only if the two edges lead to different blocks.  When they lead to
    the same block the branch, whose opcode has side effects, is recorded
    as dead by the last sweep of every run of [dce] that finishes and is
    handed to [remove_insn]; and on a well-formed graph whose blocks are
    identified by their ids [dce] does finish, with the branch removed, once
    it is given [blocks * (regs + 1) + 1] sweeps. *)
Theorem is_required_conditional_branch_iff g b inst bl
    goto_edge branch_edge :
  is_conditional_branch (IRInstr.opcode inst) = true →
  get_succ_edge_of_type g b EDGE_GOTO = Some goto_edge →
  get_succ_edge_of_type g b EDGE_BRANCH = Some branch_edge →
  LocalDce.is_required this g b inst bl =
    Some (bool_decide (m_target goto_edge ≠ m_target branch_edge)) ∧
  (LocalDce.is_required this g b inst bl = Some true ↔
     m_target goto_edge ≠ m_target branch_edge) ∧
  (m_target goto_edge = m_target branch_edge →
     LocalDce.has_side_effects (IRInstr.opcode inst) = true ∧
     (∀ fuel r k insn,
        LocalDce.dce this fuel g = LocalDce.DceDone r →
        b ∈ blocks_post g →
        m_entries b !! k = Some (MFLOW_OPCODE insn) →
        pointee insn = inst →
        (b, (k, MFLOW_OPCODE insn)) ∈ LocalDce.dead_instructions r ∧
        Some (addr insn) ∈ map call_addr (LocalDce.removed r)) ∧
     (ids_identify (blocks_post g) →
      well_formed g (blocks_post g) →
      ∀ fuel k insn,
        length (blocks_post g) * (m_registers_size g + 1) + 1 ≤ fuel →
        b ∈ blocks_post g →
        m_entries b !! k = Some (MFLOW_OPCODE insn) →
        pointee insn = inst →
        ∃ r, LocalDce.dce this fuel g = LocalDce.DceDone r ∧
          (b, (k, MFLOW_OPCODE insn)) ∈ LocalDce.dead_instructions r ∧
          Some (addr insn) ∈ map call_addr (LocalDce.removed r))).
Proof.
  intros Hcb Hgoto Hbranch.
  assert (∀ bl', LocalDce.is_required this g b inst bl' =
            Some (bool_decide (m_target goto_edge ≠ m_target branch_edge)))
    as Hreq.
  { intros bl'. rewrite (is_required_conditional_branch this g b inst bl' Hcb).
    by rewrite Hgoto, Hbranch. }
  split_and!; [done| |].
  - rewrite Hreq. split.
    + intros [= Hdec]. by apply bool_decide_eq_true in Hdec.
    + intros Hne. by rewrite bool_decide_eq_true_2.
  - intros Hsame.
    assert (∀ fuel r k insn,
      LocalDce.dce this fuel g = LocalDce.DceDone r →
      b ∈ blocks_post g →
      m_entries b !! k = Some (MFLOW_OPCODE insn) →
      pointee insn = inst →
      (b, (k, MFLOW_OPCODE insn)) ∈ LocalDce.dead_instructions r ∧
      Some (addr insn) ∈ map call_addr (LocalDce.removed r)) as Hsafe.
    { intros fuel r k insn Hdce Hb Hlk <-. unfold LocalDce.dce in Hdce.
      destruct (LocalDce.fixed_point _ _ _ _ _ _) as [| |σ dead n] eqn:Hfix;
        [done..|].
      destruct (LocalDce.remove_dead dead) as [calls|] eqn:Hrem; [|done].
      simplify_eq. simpl.
      apply fixed_point_stable in Hfix as (σ0 & Hsweep).
      assert ((b, (k, MFLOW_OPCODE insn)) ∈ dead) as Hdead.
      { eapply sweep_records; [done..| | |done].
        - intros bl'. rewrite Hreq. by rewrite bool_decide_eq_false_2 by auto.
        - revert Hcb. unfold IRInstr.opcode.
          by destruct (m_opcode (pointee insn)). }
      split; [done|].
      destruct (remove_dead_once dead) as (calls' & Hrem' & _ & _ & Hall).
      { eapply Forall_impl; [by eapply sweep_dead_recordable|].
        intros pair (insn' & -> & _). eauto. }
      rewrite Hrem in Hrem'. simplify_eq.
      by apply (Hall _ Hdead). }
    split; [by apply conditional_branch_class|]. split; [exact Hsafe|].
    intros Hids Hwf fuel k insn Hfuel Hb Hlk Hinst.
    destruct (dce_finishes g fuel Hids Hwf Hfuel) as [r Hdce].
    exists r. split; [done|]. by eapply Hsafe.
Qed.

End branch_claim.

(** Well-formedness, block by block and entry by entry. *)
Lemma well_formed_intro `{Externals} g blocks :
  Forall (λ b,
    Forall (λ s, m_target s ∈ map m_id blocks) (m_succs b) ∧
    Forall (λ e, ∀ insn, e = MFLOW_OPCODE insn →
              registers_below (m_registers_size g) (pointee insn) ∧
              edges_present g b (pointee insn)) (m_entries b)) blocks →
  well_formed g blocks.
Proof.
  intros Hall. split.
  - intros b s Hb Hs.
    destruct (proj1 (Forall_forall _ _) Hall b Hb) as [Hsuccs _].
    by apply (proj1 (Forall_forall _ _) Hsuccs).
  - intros b insn Hb Hin.
    destruct (proj1 (Forall_forall _ _) Hall b Hb) as [_ Hents].
    by apply (proj1 (Forall_forall _ _) Hents _ Hin).
Qed.

Lemma registers_below_intro regs inst :
  (IRInstr.has_dest inst = true → m_dest inst < regs) →
  Forall (λ s, s < regs) (m_srcs inst) →
  registers_below regs inst.
Proof.
  intros Hd Hs. split; [done|]. by apply Forall_forall.
Qed.

(** The branch of [Examples.same_target_graph]: not required, and removed by
    the run of [dce] with five sweeps allowed. *)
Lemma is_required_conditional_branch_iff_witness :
  LocalDce.is_required (H := Examples.ext) Examples.pass
    Examples.same_target_graph Examples.same_target_block
    (pointee Examples.if_eqz) [false; false] = Some false ∧
  ∃ r, LocalDce.dce (H := Examples.ext) Examples.pass 5
         Examples.same_target_graph = LocalDce.DceDone r ∧
    Some 2%N ∈ map call_addr (LocalDce.removed r).
Proof.
  destruct (is_required_conditional_branch_iff (H := Examples.ext)
              Examples.pass Examples.same_target_graph
              Examples.same_target_block (pointee Examples.if_eqz)
              [false; false] (mkEdge 0 1 EDGE_GOTO) (mkEdge 0 1 EDGE_BRANCH)
              eq_refl eq_refl eq_refl) as (Hreq & _ & Hdead).
  split; [exact Hreq|].
  destruct (Hdead eq_refl) as (_ & _ & Hremoved).
  destruct (Hremoved) with (fuel := 5) (k := 1) (insn := Examples.if_eqz)
    as (r & Hdce & _ & Hrem).
  - apply NoDup_ids_identify. vm_compute. repeat constructor; set_solver.
  - apply (well_formed_intro (H := Examples.ext)).
    repeat first
      [ apply Forall_nil_2
      | apply Forall_cons_2
      | split ];
    try (vm_compute; set_solver);
    intros insn [= <-];
    (split; [apply registers_below_intro;
               [vm_compute; lia || done
               |repeat constructor; vm_compute; lia]
            |split; [intros _; split; by eexists|done]]).
  - vm_compute. lia.
  - vm_compute. set_solver.
  - reflexivity.
  - reflexivity.
  - exists r. split; [exact Hdce|exact Hrem].
Defined.
